(** * ComfyUI-PromptDrafter: value-list parser, placeholder substitution,
      prompt cleaning and the wildcard node's selection policies

    A shallow embedding of [utils/wildcard_parser.py],
    [utils/text_processor.py] ([clean_prompt]) and [nodes/wildcard_node.py]
    ([process], [reset_sequential_index]), and the properties of them that
    the specification states.

    Python [str] values are sequences of Unicode code points: a character is
    an [N], a string a [list N].  The class-level dictionary
    [_sequential_indices] is a [gmap] from node keys to integers that is
    threaded through [process]. *)

From Stdlib Require Import List Bool Arith ZArith NArith Lia.
From Stdlib Require Import Strings.Ascii Strings.String.
From Stdlib Require Import Numbers.DecimalString Numbers.DecimalNat.
From stdpp Require Import gmap sorting.
Import ListNotations.

(** ** Python strings *)

Module PyStr.

Definition char := N.
Definition pystr := list char.

Definition ord (a : ascii) : char := N_of_ascii a.

(** A string literal as a Python string. *)
Definition py (s : string) : pystr := List.map ord (list_ascii_of_string s).

Definition c_nl : char := 10%N.
Definition c_space : char := Eval compute in ord " ".
Definition c_comma : char := Eval compute in ord ",".
Definition c_pipe : char := Eval compute in ord "|".
Definition c_lparen : char := Eval compute in ord "(".
Definition c_rparen : char := Eval compute in ord ")".
Definition c_lcurly : char := Eval compute in ord "{".
Definition c_rcurly : char := Eval compute in ord "}".
Definition c_underscore : char := Eval compute in ord "_".

(** [str.isspace] on one character, which is also the class [\s] of [re] on
    [str] patterns: the Unicode white space characters and the separators
    U+001C..U+001F. *)
Definition is_space (c : char) : bool :=
  ((9 <=? c) && (c <=? 13) || (28 <=? c) && (c <=? 32)
   || (c =? 133) || (c =? 160) || (c =? 5760)
   || (8192 <=? c) && (c <=? 8202)
   || (c =? 8232) || (c =? 8233) || (c =? 8239) || (c =? 8287)
   || (c =? 12288))%N.

(** The class [[a-zA-Z0-9_]]. *)
Definition is_ident (c : char) : bool :=
  ((97 <=? c) && (c <=? 122) || (65 <=? c) && (c <=? 90)
   || (48 <=? c) && (c <=? 57) || (c =? 95))%N.

(** Truth value of a string: [bool(s)]. *)
Definition truthy (s : pystr) : bool :=
  match s with [] => false | _ :: _ => true end.

Definition pystr_eqb (a b : pystr) : bool := bool_decide (a = b).

(** [c in s] for a one-character [c]. *)
Definition contains (c : char) (s : pystr) : bool := existsb (N.eqb c) s.

Fixpoint lstrip (s : pystr) : pystr :=
  match s with
  | [] => []
  | c :: r => if is_space c then lstrip r else s
  end.

Definition rstrip (s : pystr) : pystr := rev (lstrip (rev s)).

(** [s.strip()] *)
Definition strip (s : pystr) : pystr := rstrip (lstrip s).

(** [s.startswith(p)], returning the text after the prefix. *)
Fixpoint strip_prefix (p s : pystr) : option pystr :=
  match p, s with
  | [], _ => Some s
  | _ :: _, [] => None
  | a :: p', b :: s' => if (a =? b)%N then strip_prefix p' s' else None
  end.

Definition startswith (p s : pystr) : bool :=
  match strip_prefix p s with Some _ => true | None => false end.

(** [s.endswith(c)] for a one-character [c]. *)
Definition endswith (c : char) (s : pystr) : bool :=
  match rev s with
  | [] => false
  | d :: _ => (d =? c)%N
  end.

(** [s.split(sep)] for a one-character separator. *)
Fixpoint split (sep : char) (s : pystr) : list pystr :=
  match s with
  | [] => [[]]
  | c :: r =>
      if (c =? sep)%N then [] :: split sep r
      else match split sep r with
           | [] => [[c]]
           | p :: ps => (c :: p) :: ps
           end
  end.

(** [sep.join(parts)] *)
Fixpoint join (sep : pystr) (parts : list pystr) : pystr :=
  match parts with
  | [] => []
  | [p] => p
  | p :: ps => p ++ sep ++ join sep ps
  end.

(** [str(n)] for a natural number. *)
Definition str_of_nat (n : nat) : pystr :=
  py (NilEmpty.string_of_uint (Nat.to_uint n)).

(** *** Left-to-right scanning for non-overlapping matches

    [re.findall], [re.sub] and [str.replace] walk the text from the left;
    at each position they try the pattern, and on success continue after
    the match, otherwise they step over one character.  [matcher s] is the
    pattern anchored at the head of [s]: the payload of the match and the
    text after it.  No pattern of this program matches the empty string,
    so the length of the text bounds the number of steps. *)
Section Scan.
Context {A : Type}.
Variable matcher : pystr -> option (A * pystr).

Inductive piece : Type :=
| Lit (c : char)
| Hit (a : A).

Fixpoint scan_fuel (fuel : nat) (s : pystr) : list piece :=
  match fuel with
  | O => []
  | S k =>
      match s with
      | [] => []
      | c :: r =>
          match matcher s with
          | Some (a, rest) => Hit a :: scan_fuel k rest
          | None => Lit c :: scan_fuel k r
          end
      end
  end.

Definition scan (s : pystr) : list piece := scan_fuel (length s) s.

(** [pattern.findall(s)]: the payloads of the matches. *)
Definition findall (s : pystr) : list A :=
  flat_map (fun p => match p with Lit _ => [] | Hit a => [a] end) (scan s).

(** [pattern.sub(repl, s)] *)
Definition sub (repl : A -> pystr) (s : pystr) : pystr :=
  flat_map (fun p => match p with Lit c => [c] | Hit a => repl a end) (scan s).
End Scan.

Arguments Lit {A} c.
Arguments Hit {A} a.

(** The literal [old] anchored at the head of [s]. *)
Definition prefix_here (old s : pystr) : option (unit * pystr) :=
  option_map (fun rest => (tt, rest)) (strip_prefix old s).

(** [s.replace(old, new)]; an empty [old] matches between all characters. *)
Definition replace (old new s : pystr) : pystr :=
  match old with
  | [] => new ++ flat_map (fun c => c :: new) s
  | _ :: _ => sub (prefix_here old) (fun _ => new) s
  end.

(** [l[i]] on a Python list: a negative index counts from the end, an index
    out of range raises [IndexError] ([None]). *)
Definition getitem {A : Type} (l : list A) (i : Z) : option A :=
  let n := Z.of_nat (length l) in
  let j := (if i <? 0 then i + n else i)%Z in
  if ((0 <=? j) && (j <? n))%Z then nth_error l (Z.to_nat j) else None.

(** [s.strip(chars)]: the leading and the trailing characters that occur in
    [chars] are removed. *)
Fixpoint lstrip_chars (chars s : pystr) : pystr :=
  match s with
  | [] => []
  | c :: r => if contains c chars then lstrip_chars chars r else s
  end.

Definition rstrip_chars (chars s : pystr) : pystr :=
  rev (lstrip_chars chars (rev s)).

Definition strip_chars (chars s : pystr) : pystr :=
  rstrip_chars chars (lstrip_chars chars s).

(** [a <= b] on strings: the lexicographic order of the code points, which
    [sorted] uses. *)
Fixpoint pystr_leb (a b : pystr) : bool :=
  match a, b with
  | [], _ => true
  | _ :: _, [] => false
  | x :: a', y :: b' =>
      if (x <? y)%N then true
      else if (y <? x)%N then false
      else pystr_leb a' b'
  end.

End PyStr.

Import PyStr.

(** ** utils/wildcard_parser.py *)

Module WildcardParser.

(** A Python [dict] with [str] keys, in insertion order. *)
Definition dict (V : Type) := list (pystr * V).

(** [d[k] = v]: an existing key keeps its place, a new one goes last. *)
Fixpoint dict_set {V : Type} (k : pystr) (v : V) (d : dict V) : dict V :=
  match d with
  | [] => [(k, v)]
  | (k', v') :: d' =>
      if pystr_eqb k' k then (k', v) :: d' else (k', v') :: dict_set k v d'
  end.

(** [[a-zA-Z0-9_]*] from the head of [s]: the run and the text after it. *)
Fixpoint ident_run (s : pystr) : pystr * pystr :=
  match s with
  | [] => ([], [])
  | c :: r =>
      if is_ident c then let '(run, rest) := ident_run r in (c :: run, rest)
      else ([], s)
  end.

(** [WILDCARD_PATTERN = \{wildcard_([a-zA-Z0-9_]+)\}] anchored at the head of
    [s]: group 1 and the text after the match. *)
Definition wildcard_here (s : pystr) : option (pystr * pystr) :=
  match strip_prefix (py "{wildcard_") s with
  | None => None
  | Some s1 =>
      match ident_run s1 with
      | ((_ :: _) as name, c :: rest) =>
          if (c =? c_rcurly)%N then Some (name, rest) else None
      | _ => None
      end
  end.

(** The loop of [extract_wildcard_names]: the names not seen before, in the
    order of their first occurrence. *)
Fixpoint unique_full_names (matches seen unique_names : list pystr) : list pystr :=
  match matches with
  | [] => unique_names
  | name :: more =>
      let full_name := py "wildcard_" ++ name in
      if existsb (pystr_eqb full_name) seen then
        unique_full_names more seen unique_names
      else
        unique_full_names more (full_name :: seen) (unique_names ++ [full_name])
  end.

Definition extract_wildcard_names (text : pystr) : list pystr :=
  let matches := findall wildcard_here text in
  unique_full_names matches [] [].

(** [str(value) if value else ""] for a [str] value. *)
Definition str_or_empty (value : pystr) : pystr :=
  if truthy value then value else [].

(** The pattern that [replace_wildcards] builds for a key of the
    dictionary, which may or may not carry the prefix [wildcard_]. *)
Definition pattern_of_name (name : pystr) : pystr :=
  if startswith (py "wildcard_") name then py "{" ++ name ++ py "}"
  else py "{wildcard_" ++ name ++ py "}".

(** The first loop of [replace_wildcards]: the supplied values, in the
    order of the dictionary. *)
Fixpoint apply_values (result : pystr) (wildcard_values : dict pystr) : pystr :=
  match wildcard_values with
  | [] => result
  | (name, value) :: more =>
      let pattern := pattern_of_name name in
      apply_values (replace pattern (str_or_empty value) result) more
  end.

(** The second loop of [replace_wildcards]: the names found in the text
    after the first loop, each replaced by the empty string. *)
Fixpoint blank_remaining (result : pystr) (remaining_wildcards : list pystr) : pystr :=
  match remaining_wildcards with
  | [] => result
  | wc_name :: more =>
      let pattern := py "{" ++ wc_name ++ py "}" in
      blank_remaining (replace pattern [] result) more
  end.

Definition replace_wildcards (text : pystr) (wildcard_values : dict pystr) : pystr :=
  let result := apply_values text wildcard_values in
  let remaining_wildcards := extract_wildcard_names result in
  blank_remaining result remaining_wildcards.

(** [[^()]*\)]: the body of a parenthesised group and its closing bracket. *)
Fixpoint paren_body (s : pystr) : option (pystr * pystr) :=
  match s with
  | [] => None
  | c :: r =>
      if (c =? c_rparen)%N then Some ([c], r)
      else if (c =? c_lparen)%N then None
      else match paren_body r with
           | Some (g, rest) => Some (c :: g, rest)
           | None => None
           end
  end.

(** [\([^()]*\)] anchored at the head of [s]. *)
Definition paren_here (s : pystr) : option (pystr * pystr) :=
  match s with
  | c :: r =>
      if (c =? c_lparen)%N then
        match paren_body r with
        | Some (g, rest) => Some (c :: g, rest)
        | None => None
        end
      else None
  | [] => None
  end.

(** [[^{}]*\}] *)
Fixpoint curly_body (s : pystr) : option (pystr * pystr) :=
  match s with
  | [] => None
  | c :: r =>
      if (c =? c_rcurly)%N then Some ([c], r)
      else if (c =? c_lcurly)%N then None
      else match curly_body r with
           | Some (g, rest) => Some (c :: g, rest)
           | None => None
           end
  end.

(** [\{(?!wildcard_)[^{}]*\}] anchored at the head of [s]. *)
Definition curly_here (s : pystr) : option (pystr * pystr) :=
  match s with
  | c :: r =>
      if (c =? c_lcurly)%N then
        if startswith (py "wildcard_") r then None
        else match curly_body r with
             | Some (g, rest) => Some (c :: g, rest)
             | None => None
             end
      else None
  | [] => None
  end.

(** [pattern.search(s)]: the leftmost match, as [s[:match.start()]],
    [match.group(0)] and [s[match.end():]]. *)
Fixpoint search (here : pystr -> option (pystr * pystr)) (s : pystr)
  : option (pystr * pystr * pystr) :=
  match here s with
  | Some (g, rest) => Some ([], g, rest)
  | None =>
      match s with
      | [] => None
      | c :: r =>
          match search here r with
          | Some (before, g, rest) => Some (c :: before, g, rest)
          | None => None
          end
      end
  end.

(** The state of the loops of [_protect_brackets]. *)
Record protect_state : Type := ProtectState {
  ps_result : pystr;
  ps_replacements : dict pystr;
  ps_counter : nat
  }.

(** One [while pattern.search(result)] loop of [_protect_brackets]; [tag] is
    [PAREN] or [CURLY].  Every round removes one opening bracket from
    [result], so the number of characters [opening] in it bounds the
    number of rounds. *)
Fixpoint protect_loop (here : pystr -> option (pystr * pystr)) (tag : pystr)
    (fuel : nat) (st : protect_state) : protect_state :=
  match fuel with
  | O => st
  | S fuel' =>
      match search here (ps_result st) with
      | None => st
      | Some (before, group, rest) =>
          let placeholder :=
            py "__" ++ tag ++ py "_" ++ str_of_nat (ps_counter st) ++ py "__" in
          protect_loop here tag fuel'
            {| ps_result := before ++ placeholder ++ rest;
               ps_replacements := dict_set placeholder group (ps_replacements st);
               ps_counter := S (ps_counter st) |}
      end
  end.

Definition count_char (c : char) (s : pystr) : nat :=
  length (List.filter (N.eqb c) s).

Definition _protect_brackets (text : pystr) : pystr * dict pystr :=
  let st := {| ps_result := text; ps_replacements := []; ps_counter := 0 |} in
  let st := protect_loop paren_here (py "PAREN") (count_char c_lparen text) st in
  let st := protect_loop curly_here (py "CURLY")
              (count_char c_lcurly (ps_result st)) st in
  (ps_result st, ps_replacements st).

Fixpoint _restore_brackets (text : pystr) (replacements : dict pystr) : pystr :=
  match replacements with
  | [] => text
  | (placeholder, original) :: more =>
      _restore_brackets (replace placeholder original text) more
  end.

(** [[v.strip() for v in s.split(sep) if v.strip()]] *)
Definition split_strip (sep : char) (s : pystr) : list pystr :=
  List.map strip (List.filter (fun v => truthy (strip v)) (split sep s)).

(** The delimiter selection of [parse_value_list] on the protected text. *)
Definition split_values (protected_text : pystr) : list pystr :=
  if contains c_nl protected_text then
    let lines := split c_nl protected_text in
    flat_map
      (fun line =>
         let line := strip line in
         if truthy line then
           if contains c_pipe line then split_strip c_pipe line
           else if contains c_comma line then split_strip c_comma line
           else [line]
         else [])
      lines
  else if contains c_pipe protected_text then
    split_strip c_pipe protected_text
  else if contains c_comma protected_text then
    split_strip c_comma protected_text
  else
    if truthy (strip protected_text) then [strip protected_text] else [].

(** The restoration loop of [parse_value_list]. *)
Definition restore_values (replacements : dict pystr) (values : list pystr)
  : list pystr :=
  flat_map
    (fun value =>
       let restored := _restore_brackets value replacements in
       if truthy restored then [restored] else [])
    values.

Definition parse_value_list (text : pystr) : list pystr :=
  if negb (truthy text) || negb (truthy (strip text)) then []
  else
    let '(protected_text, replacements) := _protect_brackets text in
    let values := split_values protected_text in
    restore_values replacements values.

Definition format_as_dynamic_prompts (values : list pystr) : pystr :=
  match values with
  | [] => []
  | [v] => v
  | _ => py "{" ++ join (py "|") values ++ py "}"
  end.

Definition count_values (text : pystr) : nat :=
  length (parse_value_list text).

(** The value at [index], or the empty string when the index is out of
    range; [None] would be an [IndexError]. *)
Definition get_value_at_index (text : pystr) (index : Z) : option pystr :=
  let values := parse_value_list text in
  if ((0 <=? index) && (index <? Z.of_nat (length values)))%Z
  then getitem values index
  else Some [].

(** [re.match(r'^[a-zA-Z0-9_]+$', name)]: after the identifier characters
    the text ends, or a single newline ends it, as [$] allows. *)
Definition validate_wildcard_name (name : pystr) : bool :=
  if negb (truthy name) then false
  else
    match ident_run name with
    | (_ :: _, rest) => pystr_eqb rest [] || pystr_eqb rest [c_nl]
    | ([], _) => false
    end.

End WildcardParser.

Import WildcardParser.

(** ** utils/text_processor.py *)

Module TextProcessor.

(** [r' +'] anchored at the head of [s]. *)
Fixpoint skip_spaces (s : pystr) : pystr :=
  match s with
  | [] => []
  | c :: r => if (c =? c_space)%N then skip_spaces r else s
  end.

Definition spaces_here (s : pystr) : option (unit * pystr) :=
  match s with
  | c :: r => if (c =? c_space)%N then Some (tt, skip_spaces r) else None
  | [] => None
  end.

(** [r'\s*,\s*'] anchored at the head of [s]: the white space before the
    comma, the comma, and all the white space after it. *)
Definition comma_here (s : pystr) : option (unit * pystr) :=
  match lstrip s with
  | c :: r => if (c =? c_comma)%N then Some (tt, lstrip r) else None
  | [] => None
  end.

Definition clean_prompt (text : pystr) : pystr :=
  if negb (truthy text) then []
  else
    (* replace multiple spaces with single space *)
    let text := sub spaces_here (fun _ => py " ") text in
    (* clean up comma spacing *)
    let text := sub comma_here (fun _ => py ", ") text in
    (* remove leading/trailing whitespace *)
    let text := strip text in
    (* remove trailing comma *)
    if endswith c_comma text then strip (removelast text) else text.

Definition _strip_commas (text : pystr) : pystr :=
  if negb (truthy text) then []
  else
    (* strip whitespace first, then commas, then whitespace again *)
    let result := strip text in
    let result := strip_chars (py ",") result in
    let result := strip result in
    result.

(** [part and part.strip()] for an optional string. *)
Definition has_text (part : option pystr) : bool :=
  match part with
  | Some s => truthy s && truthy (strip s)
  | None => false
  end.

Definition combine_prompt (text : pystr) (prefix suffix : option pystr)
    (separator : pystr) : pystr :=
  let parts := [] in
  let parts :=
    match prefix with
    | Some p => if has_text prefix then parts ++ [_strip_commas p] else parts
    | None => parts
    end in
  let parts :=
    if has_text (Some text) then parts ++ [_strip_commas text] else parts in
  let parts :=
    match suffix with
    | Some p => if has_text suffix then parts ++ [_strip_commas p] else parts
    | None => parts
    end in
  join separator parts.

Definition combine_strings (strings : list pystr) (separator : pystr) : pystr :=
  let parts :=
    flat_map
      (fun s =>
         if has_text (Some s) then
           let cleaned := _strip_commas s in
           (* only add if there's content after cleaning *)
           if truthy cleaned then [cleaned] else []
         else [])
      strings in
  join separator parts.

(** [wildcard_values] is [None] or a dictionary; an empty dictionary is
    falsy, and then the placeholders are not touched. *)
Definition process_prompt (text : pystr) (prefix suffix : option pystr)
    (wildcard_values : option (dict pystr)) (separator : pystr) : pystr :=
  let combined := combine_prompt text prefix suffix separator in
  match wildcard_values with
  | Some ((_ :: _) as values) => replace_wildcards combined values
  | _ => combined
  end.

Definition get_required_wildcards (text : pystr) : list pystr :=
  extract_wildcard_names text.

(** [(len(missing) == 0, missing)], where a name is missing when it is no
    key of [available_wildcards]. *)
Definition validate_wildcards (text : pystr) (available_wildcards : dict pystr)
  : bool * list pystr :=
  let required := get_required_wildcards text in
  let missing :=
    List.filter
      (fun w => negb (existsb (fun kv => pystr_eqb (fst kv) w) available_wildcards))
      required in
  (Nat.eqb (length missing) 0, missing).

Definition pystr_le (a b : pystr) : Prop := pystr_leb a b = true.

#[global] Instance pystr_le_dec (a b : pystr) : Decision (pystr_le a b) :=
  decide (pystr_leb a b = true).

(** [sorted(list(positive_wildcards.union(negative_wildcards)))] *)
Definition get_combined_wildcards (positive_text negative_text : pystr)
  : list pystr :=
  let positive_wildcards : gset pystr :=
    list_to_set (extract_wildcard_names positive_text) in
  let negative_wildcards : gset pystr :=
    list_to_set (extract_wildcard_names negative_text) in
  let all_wildcards := positive_wildcards ∪ negative_wildcards in
  merge_sort pystr_le (elements all_wildcards).

End TextProcessor.

Import TextProcessor.

(** ** nodes/wildcard_node.py *)

Module WildcardNode.

(** [f"wildcard_{unique_id}"] *)
Definition node_key (unique_id : pystr) : pystr := py "wildcard_" ++ unique_id.

(** [process] after the test for an empty list.  [sigma] is the class
    variable [_sequential_indices]; [choice] is the number that [random]
    draws for [random.choice].  The result is [None] when the Python code
    raises. *)
Definition select (values : list pystr) (output_mode : pystr) (fixed_index : Z)
    (unique_id : pystr) (choice : nat) (sigma : gmap pystr Z)
  : option pystr * gmap pystr Z :=
  let len := Z.of_nat (length values) in
  if pystr_eqb output_mode (py "list (csv)") then
    (Some (join (py ", ") values), sigma)
  else if pystr_eqb output_mode (py "dynamic_prompts") then
    (Some (format_as_dynamic_prompts values), sigma)
  else if pystr_eqb output_mode (py "fixed") then
    let index := Z.max 0 (Z.min fixed_index (len - 1)) in
    (getitem values index, sigma)
  else if pystr_eqb output_mode (py "sequential") then
    let key := node_key unique_id in
    let sigma :=
      match sigma !! key with
      | None => <[key := 0%Z]> sigma
      | Some _ => sigma
      end in
    match sigma !! key with
    | None => (None, sigma)
    | Some cursor =>
        let index := (cursor mod len)%Z in
        match getitem values index with
        | None => (None, sigma)
        | Some result =>
            (Some result, <[key := ((index + 1) mod len)%Z]> sigma)
        end
    end
  else
    (nth_error values (choice mod length values), sigma).

Definition process (wildcard_values output_mode : pystr) (fixed_index : Z)
    (unique_id : pystr) (choice : nat) (sigma : gmap pystr Z)
  : option pystr * gmap pystr Z :=
  let values := parse_value_list wildcard_values in
  match values with
  | [] => (Some [], sigma)
  | _ :: _ => select values output_mode fixed_index unique_id choice sigma
  end.

Definition reset_sequential_index (unique_id : pystr) (sigma : gmap pystr Z)
  : gmap pystr Z :=
  let key := node_key unique_id in
  match sigma !! key with
  | Some _ => <[key := 0%Z]> sigma
  | None => sigma
  end.

Definition reset_all_sequential_indices (sigma : gmap pystr Z) : gmap pystr Z := ∅.

Definition get_value_count (wildcard_values : pystr) : nat :=
  count_values wildcard_values.

End WildcardNode.

Import WildcardNode.

(** ** utils/file_manager.py *)

Module FileManager.

(** The characters of [invalid_chars]: less-than, greater-than, colon,
    double quote, slash, backslash, pipe, question mark and asterisk. *)
Definition invalid_chars : pystr := [60; 62; 58; 34; 47; 92; 124; 63; 42]%N.

Definition _sanitize_filename (name : pystr) : pystr :=
  (* replace invalid characters with underscores *)
  let result :=
    fold_left (fun result char => replace [char] (py "_") result)
      invalid_chars name in
  (* remove leading/trailing spaces and dots *)
  let result := strip_chars (py " .") result in
  (* ensure it's not empty *)
  if negb (truthy result) then py "unnamed" else result.

End FileManager.

(** ** nodes/prompt_combiner.py *)

Module PromptCombiner.

Definition MAX_INPUTS : nat := 25.

(** [kwargs] holds the inputs [string_1] ... [string_25] that are
    connected; [input_count] is not used. *)
Definition process (input_count : Z) (kwargs : gmap pystr pystr) : pystr :=
  let strings :=
    flat_map
      (fun i =>
         let key := py "string_" ++ str_of_nat i in
         let value := default [] (kwargs !! key) in
         if truthy value && truthy (strip value) then [value] else [])
      (seq 1 MAX_INPUTS) in
  combine_strings strings (py ", ").

End PromptCombiner.

(** ** nodes/single_prompt_drafter.py and nodes/dual_prompt_drafter.py *)

Module PromptDrafter.

(** The loop that collects the wildcard inputs from [kwargs]. *)
Definition collect_wildcard_values (kwargs : dict pystr) : dict pystr :=
  fold_left
    (fun wildcard_values kv =>
       if startswith (py "wildcard_") (fst kv)
       then dict_set (fst kv) (snd kv) wildcard_values
       else wildcard_values)
    kwargs [].

(** [SinglePromptDrafter.process] *)
Definition process_single (prompt prefix suffix : pystr) (kwargs : dict pystr)
  : pystr :=
  let wildcard_values := collect_wildcard_values kwargs in
  let processed :=
    process_prompt prompt (Some prefix) (Some suffix) (Some wildcard_values)
      (py ", ") in
  clean_prompt processed.

(** [DualPromptDrafter.process] *)
Definition process_dual (positive_prompt negative_prompt positive_prefix
    positive_suffix negative_prefix negative_suffix : pystr)
    (kwargs : dict pystr) : pystr * pystr :=
  let wildcard_values := collect_wildcard_values kwargs in
  let processed_positive :=
    process_prompt positive_prompt (Some positive_prefix) (Some positive_suffix)
      (Some wildcard_values) (py ", ") in
  let processed_negative :=
    process_prompt negative_prompt (Some negative_prefix) (Some negative_suffix)
      (Some wildcard_values) (py ", ") in
  (clean_prompt processed_positive, clean_prompt processed_negative).

End PromptDrafter.

(** ** Notions of the specification used in the statements *)

(** The specification's [clamp(x, lo, hi)]. *)
Definition clamp (x lo hi : Z) : Z :=
  if (x <? lo)%Z then lo else if (hi <? x)%Z then hi else x.

(** [p in s] for strings. *)
Fixpoint is_infix (p s : pystr) : bool :=
  startswith p s || match s with [] => false | _ :: r => is_infix p r end.

(** ["\n".join(lines)] of string literals. *)
Definition py_lines (lines : list string) : pystr :=
  join [c_nl] (List.map py lines).

(** [[0-9]+__] from the head of [s]. *)
Fixpoint digits_then_close (seen_digit : bool) (s : pystr) : bool :=
  match s with
  | [] => false
  | c :: r =>
      if ((48 <=? c) && (c <=? 57))%N then digits_then_close true r
      else seen_digit && startswith (py "__") s
  end.

(** The text contains a bracket placeholder, [__PAREN_<n>__] or
    [__CURLY_<n>__]. *)
Fixpoint has_bracket_placeholder (s : pystr) : bool :=
  match strip_prefix (py "__PAREN_") s, strip_prefix (py "__CURLY_") s with
  | Some r, _ | None, Some r => digits_then_close false r
  | None, None => false
  end
  || match s with [] => false | _ :: r => has_bracket_placeholder r end.

(** [WILDCARD_PATTERN.search(s) is not None]: the text contains a
    placeholder. *)
Definition has_wildcard (s : pystr) : bool :=
  match findall wildcard_here s with [] => false | _ :: _ => true end.

(** The placeholder of the identifier [id]. *)
Definition token (id : pystr) : pystr := py "{wildcard_" ++ id ++ py "}".

(** Every opening brace of the text opens a placeholder. *)
Fixpoint braces_open_wildcards (s : pystr) : bool :=
  match s with
  | [] => true
  | c :: r =>
      (if (c =? c_lcurly)%N
       then match wildcard_here (c :: r) with Some _ => true | None => false end
       else true)
      && braces_open_wildcards r
  end.

(** *** Pieces of a text with placeholders *)

(** The pieces of a text: its characters outside of the placeholders,
    and the identifiers of its placeholders. *)
Definition pieces (s : pystr) : list (piece (A := pystr)) := scan wildcard_here s.

Definition render_piece (p : piece (A := pystr)) : pystr :=
  match p with Lit c => [c] | Hit id => token id end.

Definition well_formed (p : piece (A := pystr)) : Prop :=
  match p with
  | Lit c => c <> c_lcurly
  | Hit id => id <> [] /\ forallb is_ident id = true
  end.

(** The pieces other than the placeholder of [n]. *)
Definition other_than (n : pystr) (p : piece (A := pystr)) : bool :=
  match p with Lit _ => true | Hit id => negb (pystr_eqb id n) end.

(** A name as [extract_wildcard_names] builds it. *)
Definition full_name (x : pystr) : Prop :=
  exists n, x = py "wildcard_" ++ n /\ forallb is_ident n = true.

(** The placeholder is one of [names]. *)
Definition named_in (names : list pystr) (p : piece (A := pystr)) : bool :=
  match p with
  | Lit _ => false
  | Hit id => existsb (pystr_eqb (py "wildcard_" ++ id)) names
  end.

(** [f] on the last element of a list. *)
Fixpoint map_last {A} (f : A -> A) (l : list A) : list A :=
  match l with
  | [] => []
  | [a] => [f a]
  | a :: l' => a :: map_last f l'
  end.

(** *** Normal forms of [clean_prompt] *)

(** The two substitutions of [clean_prompt]. *)
Definition collapse (s : pystr) : pystr := sub spaces_here (fun _ => py " ") s.
Definition commas (s : pystr) : pystr := sub comma_here (fun _ => py ", ") s.

(** The text begins with the character [c]. *)
Definition head_is (c : char) (s : pystr) : bool :=
  match s with d :: _ => (d =? c)%N | [] => false end.

(** The text begins with white space. *)
Definition starts_space (s : pystr) : bool :=
  match s with d :: _ => is_space d | [] => false end.

(** The first character after the leading white space is a comma: the
    pattern [\s*,\s*] matches at the head of the text. *)
Definition next_is_comma (s : pystr) : bool := head_is c_comma (lstrip s).

(** No two spaces in a row. *)
Fixpoint single_spaced (s : pystr) : bool :=
  match s with
  | [] => true
  | c :: r => negb ((c =? c_space)%N && head_is c_space r) && single_spaced r
  end.

(** The commas of the text are all of the form [", "], with no white space
    before the comma and none after the space. *)
Inductive comma_normal : pystr -> Prop :=
| cn_nil : comma_normal []
| cn_lit c r :
    next_is_comma (c :: r) = false -> comma_normal r -> comma_normal (c :: r)
| cn_sep r :
    starts_space r = false -> comma_normal r ->
    comma_normal (c_comma :: c_space :: r).

(** The delimiter precedence in the specification's words (section 4.1,
    step 2, and claim C5). *)
Module Spec.

(** "pieces are trimmed and blank pieces dropped" *)
Definition trimmed (pieces : list pystr) : list pystr :=
  List.filter truthy (List.map strip pieces).

Definition is_blank (s : pystr) : bool := forallb is_space s.

(** "split on [|] if present, else on [,] if present, else kept whole" *)
Definition split_pipe_comma (t : pystr) : list pystr :=
  if contains c_pipe t then split c_pipe t
  else if contains c_comma t then split c_comma t
  else [t].

(** "if the text contains a newline it is split on newlines and each
    non-blank line is further split ...; otherwise the whole text is
    split ..." *)
Definition delimiter_split (t : pystr) : list pystr :=
  if contains c_nl t then
    trimmed (flat_map split_pipe_comma
               (List.filter (fun line => negb (is_blank line)) (split c_nl t)))
  else trimmed (split_pipe_comma t).

End Spec.

(** ** Notions used in the further properties *)

(** [k] successive sequential calls of [WildcardNode.process] for one node:
    their results and the cursors after them. *)
Fixpoint sequential_calls (k : nat) (text uid : pystr) (fixed_index : Z)
    (choice : nat) (sigma : gmap pystr Z)
  : list (option pystr) * gmap pystr Z :=
  match k with
  | O => ([], sigma)
  | S k' =>
      let '(r, sigma1) :=
        process text (py "sequential") fixed_index uid choice sigma in
      let '(rs, sigma2) :=
        sequential_calls k' text uid fixed_index choice sigma1 in
      (r :: rs, sigma2)
  end.

(** The identifier that a key of the value dictionary stands for: the key
    itself, or what follows its prefix [wildcard_]. *)
Definition key_id (name : pystr) : pystr :=
  match strip_prefix (py "wildcard_") name with
  | Some id => id
  | None => name
  end.

(** The value that the dictionary holds for the placeholder of [id]: that
    of the first key that stands for [id]. *)
Fixpoint value_for (id : pystr) (values : dict pystr) : option pystr :=
  match values with
  | [] => None
  | (name, value) :: more =>
      if pystr_eqb (key_id name) id then Some value else value_for id more
  end.

(** A piece of the text after the substitution of [values]: a placeholder
    becomes its value, or the empty string when it has none. *)
Definition substituted (values : dict pystr) (p : piece (A := pystr)) : pystr :=
  match p with
  | Lit c => [c]
  | Hit id => default [] (value_for id values)
  end.

(** A piece of the text after the first loop only: a placeholder without a
    value is still there. *)
Definition half_substituted (values : dict pystr) (p : piece (A := pystr))
  : pystr :=
  match p with
  | Lit c => [c]
  | Hit id => default (token id) (value_for id values)
  end.

(** The keys stand for identifiers and the values hold no opening brace. *)
Definition plain_values (values : dict pystr) : bool :=
  forallb
    (fun kv => forallb is_ident (key_id (fst kv))
               && negb (contains c_lcurly (snd kv)))
    values.

(** A character that is neither white space nor a comma. *)
Definition is_solid (c : char) : bool := negb (is_space c) && negb (c =? c_comma)%N.

(** A value that needs no protection: it is not empty, has no white space
    at its ends and holds no delimiter and no opening bracket. *)
Definition is_plain_value (v : pystr) : bool :=
  truthy v && pystr_eqb (strip v) v
  && forallb (fun c => negb (contains c v))
       [c_nl; c_pipe; c_comma; c_lparen; c_lcurly].

(** A run of spaces. *)
Definition is_padding (s : pystr) : bool := forallb (N.eqb c_space) s.

(** The first character of the text is not white space; the text is not
    empty. *)
Definition head_solid (v : pystr) : bool :=
  match v with
  | c :: _ => negb (is_space c)
  | [] => false
  end.

(** Neither end of the text is white space. *)
Definition is_tight (v : pystr) : bool := head_solid v && head_solid (rev v).

(** A part that [combine_prompt] keeps although [_strip_commas] leaves
    nothing of it: it has text, and all of it is commas and white space
    that the stripping takes away. *)
Definition comma_only (s : pystr) : bool :=
  has_text (Some s) && negb (truthy (_strip_commas s)).

(** The keyword [string_i] of the combiner node. *)
Definition string_key (i : nat) : pystr := py "string_" ++ str_of_nat i.

(** The keys of the dictionary stand for identifiers that are not empty. *)
Definition keys_are_names (values : dict pystr) : bool :=
  forallb
    (fun kv => truthy (key_id (fst kv)) && forallb is_ident (key_id (fst kv)))
    values.

(** The text without its placeholders. *)
Definition without_placeholders (s : pystr) : pystr :=
  sub wildcard_here (fun _ => []) s.

(** The specification's substitution: every placeholder with a supplied
    value becomes the string form of that value, every other placeholder
    the empty string, and the other characters stay. *)
Definition substitution (text : pystr) (values : dict pystr) : pystr :=
  flat_map (substituted values) (pieces text).

(** A piece with the placeholders filled in by [g]. *)
Definition fill (g : pystr -> pystr) (p : piece (A := pystr)) : pystr :=
  match p with
  | Lit c => [c]
  | Hit id => g id
  end.

(** The placeholder of [n] replaced by the characters of [v]. *)
Definition replace_hit (n v : pystr) (p : piece (A := pystr))
  : list (piece (A := pystr)) :=
  match p with
  | Lit c => [Lit c]
  | Hit m => if pystr_eqb m n then List.map Lit v else [Hit m]
  end.

(** The identifier of a placeholder is not empty and made of identifier
    characters. *)
Definition valid_hit (p : piece (A := pystr)) : Prop :=
  match p with
  | Lit _ => True
  | Hit id => id <> [] /\ forallb is_ident id = true
  end.

(** The internal placeholder number [n] of the loop for [tag]. *)
Definition placeholder (tag : pystr) (n : nat) : pystr :=
  py "__" ++ tag ++ py "_" ++ str_of_nat n ++ py "__".

(** The two tags of [_protect_brackets]. *)
Definition is_tag (tag : pystr) : Prop := tag = py "PAREN" \/ tag = py "CURLY".

Definition is_digit (c : char) : bool := ((48 <=? c) && (c <=? 57))%N.
(** An element of a list of values: a plain value, a parenthesised group
    or a curly group, the groups given by the text between the
    brackets. *)
Inductive element : Type :=
| Plain (v : pystr)
| Paren (g : pystr)
| Curly (g : pystr).

Definition show (e : element) : pystr :=
  match e with
  | Plain v => v
  | Paren g => c_lparen :: g ++ [c_rparen]
  | Curly g => c_lcurly :: g ++ [c_rcurly]
  end.

Definition is_paren (e : element) : bool :=
  match e with Paren _ => true | _ => false end.

Definition is_curly (e : element) : bool :=
  match e with Curly _ => true | _ => false end.

(** A plain value as [parse_join_round_trip] has it; a parenthesised
    group without parentheses in it; a curly group without parentheses
    and braces in it that does not begin with [{wildcard_]; and no
    element holds the text of an internal placeholder. *)
Definition element_ok (e : element) : bool :=
  negb (has_bracket_placeholder (show e))
  && match e with
     | Plain v => is_plain_value v
     | Paren g => negb (contains c_lparen g) && negb (contains c_rparen g)
     | Curly g =>
         negb (contains c_lparen g) && negb (contains c_lcurly g)
         && negb (contains c_rcurly g) && negb (startswith (py "wildcard_") g)
     end.

(** What one loop of [_protect_brackets] makes of the elements: the
    groups of its kind become placeholders, numbered from [c]. *)
Fixpoint pass (tag : pystr) (kind : element -> bool) (c : nat) (es : list element)
  : list element :=
  match es with
  | [] => []
  | e :: r =>
      if kind e then Plain (placeholder tag c) :: pass tag kind (S c) r
      else e :: pass tag kind c r
  end.

(** The entries that the loop adds to the dictionary. *)
Fixpoint entries (tag : pystr) (kind : element -> bool) (c : nat) (es : list element)
  : dict pystr :=
  match es with
  | [] => []
  | e :: r =>
      if kind e then (placeholder tag c, show e) :: entries tag kind (S c) r
      else entries tag kind c r
  end.

(** The elements, each after its separator. *)
Definition cat (seps : list pystr) (es : list element) : pystr :=
  flat_map (fun x => fst x ++ show (snd x)) (combine seps es).

(** The keys of the dictionary are the placeholders number [lo],
    [lo + 1], and so on. *)
Fixpoint indexed (lo : nat) (reps : dict pystr) : Prop :=
  match reps with
  | [] => True
  | (k, _) :: r => (exists t, is_tag t /\ k = placeholder t lo) /\ indexed (S lo) r
  end.

(** Every opening brace of the text is followed by [wildcard_]. *)
Fixpoint braces_start_wildcard (s : pystr) : bool :=
  match s with
  | [] => true
  | c :: r =>
      (if (c =? c_lcurly)%N then startswith (py "wildcard_") r else true)
      && braces_start_wildcard r
  end.
(** What the restoration has to make of an element after the two loops:
    a plain value is itself, a group is a placeholder that the dictionary
    maps to the group. *)
Definition restored_by (reps : dict pystr) (e e2 : element) : Prop :=
  match e with
  | Plain v => e2 = Plain v
  | _ => exists t n, is_tag t /\ e2 = Plain (placeholder t n)
                    /\ In (placeholder t n, show e) reps
  end.
(** The element is a group that the pattern [here] of a loop matches, or
    holds no opening bracket of the loop. *)
Definition element_fits (here : pystr -> option (pystr * pystr)) (opening : char)
    (kind : element -> bool) (e : element) : Prop :=
  if kind e then forall rest, here (show e ++ rest) = Some (show e, rest)
  else contains opening (show e) = false.

(** * Properties *)

(** ** Scanning: the fuel is enough *)

Section ScanFacts.
Context {A : Type} (matcher : pystr -> option (A * pystr)).

(** A match takes at least one character. *)
Hypothesis consumes :
  forall s a rest, matcher s = Some (a, rest) -> length rest < length s.

Lemma scan_fuel_enough n m s :
  length s <= n -> length s <= m ->
  scan_fuel matcher n s = scan_fuel matcher m s.
Proof.
  revert m s. induction n as [|n IH]; intros m s Hn Hm.
  - destruct s; simpl in *; [|lia]. destruct m; reflexivity.
  - destruct m as [|m].
    + destruct s; simpl in *; [reflexivity|lia].
    + destruct s as [|c r]; [reflexivity|]. simpl.
      destruct (matcher (c :: r)) as [[a rest]|] eqn:E.
      * apply consumes in E. simpl in *. f_equal. apply IH; lia.
      * f_equal. simpl in *. apply IH; lia.
Qed.

Lemma scan_nil : scan matcher [] = [].
Proof. reflexivity. Qed.

Lemma scan_cons c r :
  scan matcher (c :: r) =
  match matcher (c :: r) with
  | Some (a, rest) => Hit a :: scan matcher rest
  | None => Lit c :: scan matcher r
  end.
Proof.
  unfold scan. simpl.
  destruct (matcher (c :: r)) as [[a rest]|] eqn:E; [|reflexivity].
  apply consumes in E. simpl in E. f_equal.
  apply scan_fuel_enough; lia.
Qed.

Lemma sub_cons repl c r :
  sub matcher repl (c :: r) =
  match matcher (c :: r) with
  | Some (a, rest) => repl a ++ sub matcher repl rest
  | None => c :: sub matcher repl r
  end.
Proof.
  unfold sub. rewrite scan_cons.
  destruct (matcher (c :: r)) as [[a rest]|]; reflexivity.
Qed.

Lemma findall_cons c r :
  findall matcher (c :: r) =
  match matcher (c :: r) with
  | Some (a, rest) => a :: findall matcher rest
  | None => findall matcher r
  end.
Proof.
  unfold findall. rewrite scan_cons.
  destruct (matcher (c :: r)) as [[a rest]|]; reflexivity.
Qed.
End ScanFacts.

(** ** Facts about [strip], [split] and [in] *)

Section StripFacts.
Implicit Types (s p q : pystr) (c : char).

Lemma lstrip_blank s : forallb is_space s = true -> lstrip s = [].
Proof.
  induction s as [|c r IH]; simpl; [reflexivity|].
  intros H. apply andb_prop in H as [-> Hr]. auto.
Qed.

Lemma lstrip_app p q :
  lstrip (p ++ q) = if forallb is_space p then lstrip q else lstrip p ++ q.
Proof.
  induction p as [|c r IH]; simpl; [reflexivity|].
  destruct (is_space c); simpl; [exact IH | reflexivity].
Qed.

Lemma forallb_lstrip s : forallb is_space (lstrip s) = forallb is_space s.
Proof.
  induction s as [|c r IH]; simpl; [reflexivity|].
  destruct (is_space c) eqn:E; simpl; [exact IH | rewrite E; reflexivity].
Qed.

Lemma forallb_rev {A} (f : A -> bool) (l : list A) :
  forallb f (rev l) = forallb f l.
Proof.
  induction l as [|a l IH]; simpl; [reflexivity|].
  rewrite forallb_app, IH. simpl. rewrite andb_true_r. apply andb_comm.
Qed.

Lemma existsb_rev {A} (f : A -> bool) (l : list A) :
  existsb f (rev l) = existsb f l.
Proof.
  induction l as [|a l IH]; simpl; [reflexivity|].
  rewrite existsb_app, IH. simpl. rewrite orb_false_r. apply orb_comm.
Qed.

Lemma rstrip_snoc s c :
  rstrip (s ++ [c]) = if is_space c then rstrip s else s ++ [c].
Proof.
  unfold rstrip. rewrite rev_unit. simpl.
  destruct (is_space c); [reflexivity|].
  simpl. rewrite rev_involutive. reflexivity.
Qed.

Lemma rstrip_blank s : forallb is_space s = true -> rstrip s = [].
Proof.
  intros H. unfold rstrip. rewrite lstrip_blank; [reflexivity|].
  rewrite forallb_rev. exact H.
Qed.

Lemma rstrip_cons c s :
  rstrip (c :: s) =
  if forallb is_space (c :: s) then [] else c :: rstrip s.
Proof.
  induction s as [|d s IH] using rev_ind.
  - unfold rstrip. simpl. destruct (is_space c); reflexivity.
  - change (c :: s ++ [d]) with ((c :: s) ++ [d]).
    rewrite (rstrip_snoc (c :: s) d), (rstrip_snoc s d), forallb_app.
    cbn [forallb] in *. rewrite andb_true_r.
    destruct (is_space d).
    + rewrite IH, andb_true_r. reflexivity.
    + rewrite andb_false_r. reflexivity.
Qed.

Lemma forallb_rstrip s : forallb is_space (rstrip s) = forallb is_space s.
Proof.
  unfold rstrip. rewrite forallb_rev, forallb_lstrip, forallb_rev. reflexivity.
Qed.

Lemma strip_blank s : forallb is_space s = true -> strip s = [].
Proof. intros H. unfold strip. rewrite lstrip_blank; auto. Qed.

Lemma truthy_strip s : truthy (strip s) = negb (forallb is_space s).
Proof.
  destruct (forallb is_space s) eqn:E.
  - rewrite strip_blank by exact E. reflexivity.
  - destruct (strip s) eqn:E2; [|reflexivity].
    rewrite <- forallb_lstrip, <- forallb_rstrip in E.
    unfold strip in E2. rewrite E2 in E. discriminate.
Qed.

Lemma strip_cons_space c s : is_space c = true -> strip (c :: s) = strip s.
Proof. intros H. unfold strip. simpl. rewrite H. reflexivity. Qed.

Lemma strip_snoc_space s c : is_space c = true -> strip (s ++ [c]) = strip s.
Proof.
  intros H. unfold strip. rewrite lstrip_app. simpl. rewrite H.
  destruct (forallb is_space s) eqn:E.
  - rewrite lstrip_blank by exact E. reflexivity.
  - rewrite rstrip_snoc, H. reflexivity.
Qed.

Lemma contains_lstrip c s :
  is_space c = false -> contains c (lstrip s) = contains c s.
Proof.
  intros Hc. induction s as [|d r IH]; simpl; [reflexivity|].
  destruct (is_space d) eqn:Ed; [|reflexivity].
  rewrite IH. destruct (N.eqb_spec c d) as [->|_]; [congruence | reflexivity].
Qed.

Lemma contains_strip c s :
  is_space c = false -> contains c (strip s) = contains c s.
Proof.
  intros Hc. unfold strip, rstrip, contains.
  rewrite existsb_rev. fold (contains c (lstrip (rev (lstrip s)))).
  rewrite contains_lstrip by exact Hc. unfold contains.
  rewrite existsb_rev. apply contains_lstrip. exact Hc.
Qed.

Lemma contains_blank c s :
  is_space c = false -> forallb is_space s = true -> contains c s = false.
Proof.
  intros Hc. induction s as [|d r IH]; simpl; [reflexivity|].
  intros H. apply andb_prop in H as [Hd Hr]. rewrite (IH Hr).
  destruct (N.eqb_spec c d) as [->|_]; [congruence | reflexivity].
Qed.

(** *** [split] *)

Lemma split_not_nil sep s : split sep s <> [].
Proof.
  destruct s as [|c r]; simpl; [discriminate|].
  destruct (c =? sep)%N; [discriminate|].
  destruct (split sep r); discriminate.
Qed.

Lemma split_no_sep sep s : contains sep s = false -> split sep s = [s].
Proof.
  induction s as [|c r IH]; simpl; [reflexivity|].
  intros H. apply orb_false_elim in H as [Hc Hr].
  rewrite N.eqb_sym, Hc, (IH Hr). reflexivity.
Qed.

Lemma split_snoc sep s c :
  (c =? sep)%N = false ->
  split sep (s ++ [c]) = map_last (fun p => p ++ [c]) (split sep s).
Proof.
  intros Hc. induction s as [|d r IH]; simpl.
  - rewrite Hc. reflexivity.
  - rewrite IH. destruct (d =? sep)%N.
    + pose proof (split_not_nil sep r) as Hn.
      destruct (split sep r); [congruence | reflexivity].
    + pose proof (split_not_nil sep r) as Hn.
      destruct (split sep r) as [|p [|p' ps]]; [congruence | reflexivity |].
      simpl. reflexivity.
Qed.

Lemma map_strip_map_last (f : pystr -> pystr) (l : list pystr) :
  (forall p, strip (f p) = strip p) ->
  List.map strip (map_last f l) = List.map strip l.
Proof.
  intros Hf. induction l as [|a [|b l] IH]; simpl in *; [reflexivity| |].
  - rewrite Hf. reflexivity.
  - f_equal. exact IH.
Qed.

Lemma map_strip_split_lstrip sep s :
  is_space sep = false ->
  List.map strip (split sep (lstrip s)) = List.map strip (split sep s).
Proof.
  intros Hsep. induction s as [|c r IH]; [reflexivity|].
  simpl lstrip. destruct (is_space c) eqn:Ec; [|reflexivity].
  rewrite IH. simpl split.
  destruct (N.eqb_spec c sep) as [->|_]; [congruence|].
  pose proof (split_not_nil sep r) as Hn.
  destruct (split sep r) as [|p ps]; [congruence|].
  simpl. rewrite (strip_cons_space c p Ec). reflexivity.
Qed.

Lemma map_strip_split_rstrip sep s :
  is_space sep = false ->
  List.map strip (split sep (rstrip s)) = List.map strip (split sep s).
Proof.
  intros Hsep. induction s as [|c r IH] using rev_ind; [reflexivity|].
  rewrite rstrip_snoc. destruct (is_space c) eqn:Ec; [|reflexivity].
  rewrite IH. rewrite split_snoc.
  - rewrite map_strip_map_last; [reflexivity|].
    intros p. apply strip_snoc_space. exact Ec.
  - destruct (N.eqb_spec c sep) as [->|_]; [congruence | reflexivity].
Qed.

Lemma map_strip_split_strip sep s :
  is_space sep = false ->
  List.map strip (split sep (strip s)) = List.map strip (split sep s).
Proof.
  intros Hsep. unfold strip.
  rewrite map_strip_split_rstrip, map_strip_split_lstrip by exact Hsep.
  reflexivity.
Qed.

Lemma split_blank sep s :
  forallb is_space s = true ->
  Forall (fun p => forallb is_space p = true) (split sep s).
Proof.
  induction s as [|c r IH]; simpl; intros H.
  - repeat constructor.
  - apply andb_prop in H as [Hc Hr]. specialize (IH Hr).
    destruct (c =? sep)%N.
    + constructor; [reflexivity | exact IH].
    + destruct (split sep r) as [|p ps]; [repeat constructor; simpl; rewrite Hc; reflexivity|].
      inversion IH; subst. constructor; [|assumption].
      simpl. rewrite Hc. assumption.
Qed.
End StripFacts.

(** ** The value-list parser *)

Section Parser.
Implicit Types (s t line text : pystr) (sep c : char).

Lemma split_strip_trimmed sep s :
  split_strip sep s = Spec.trimmed (split sep s).
Proof.
  unfold split_strip, Spec.trimmed.
  induction (split sep s) as [|p ps IH]; simpl; [reflexivity|].
  destruct (truthy (strip p)); simpl; rewrite IH; reflexivity.
Qed.

Lemma trimmed_flat_map (f : pystr -> list pystr) (l : list pystr) :
  Spec.trimmed (flat_map f l) = flat_map (fun x => Spec.trimmed (f x)) l.
Proof.
  unfold Spec.trimmed. induction l as [|x l IH]; simpl; [reflexivity|].
  rewrite List.map_app, List.filter_app, IH. reflexivity.
Qed.

Lemma flat_map_filter {A B} (keep : A -> bool) (f : A -> list B) (l : list A) :
  flat_map f (List.filter keep l) =
  flat_map (fun x => if keep x then f x else []) l.
Proof.
  induction l as [|x l IH]; simpl; [reflexivity|].
  destruct (keep x); simpl; rewrite IH; reflexivity.
Qed.

(** What [parse_value_list] does with one line is what the specification
    says: the line is skipped when blank, and otherwise split on the
    pipe or else the comma, its pieces trimmed and the blank ones
    dropped.  Stripping the line before splitting it changes nothing. *)
Lemma line_values line :
  (let line := strip line in
   if truthy line then
     if contains c_pipe line then split_strip c_pipe line
     else if contains c_comma line then split_strip c_comma line
     else [line]
   else [])
  = if negb (Spec.is_blank line) then Spec.trimmed (Spec.split_pipe_comma line)
    else [].
Proof.
  cbv zeta. rewrite truthy_strip. unfold Spec.is_blank.
  destruct (forallb is_space line) eqn:Hb; simpl; [reflexivity|].
  unfold Spec.split_pipe_comma.
  rewrite !contains_strip by reflexivity.
  rewrite !split_strip_trimmed. unfold Spec.trimmed.
  rewrite !map_strip_split_strip by reflexivity.
  destruct (contains c_pipe line); [reflexivity|].
  destruct (contains c_comma line); [reflexivity|].
  simpl. pose proof (truthy_strip line) as Ht. rewrite Hb in Ht. simpl in Ht.
  rewrite Ht. reflexivity.
Qed.

Lemma split_values_spec t : split_values t = Spec.delimiter_split t.
Proof.
  unfold split_values, Spec.delimiter_split.
  destruct (contains c_nl t).
  - rewrite trimmed_flat_map, flat_map_filter.
    apply flat_map_ext. intros line. apply line_values.
  - unfold Spec.split_pipe_comma. rewrite !split_strip_trimmed.
    destruct (contains c_pipe t); [reflexivity|].
    destruct (contains c_comma t); reflexivity.
Qed.

Lemma delimiter_split_blank t :
  forallb is_space t = true -> Spec.delimiter_split t = [].
Proof.
  intros Hb. unfold Spec.delimiter_split.
  destruct (contains c_nl t).
  - replace (List.filter _ (split c_nl t)) with (@nil pystr); [reflexivity|].
    pose proof (split_blank c_nl t Hb) as Hall.
    induction Hall as [|p ps Hp _ IH]; simpl; [reflexivity|].
    unfold Spec.is_blank at 1. rewrite Hp. simpl. exact IH.
  - unfold Spec.split_pipe_comma.
    rewrite !contains_blank by (reflexivity || assumption).
    unfold Spec.trimmed. simpl. rewrite strip_blank by assumption. reflexivity.
Qed.

Lemma count_char_blank c s :
  is_space c = false -> forallb is_space s = true -> count_char c s = 0.
Proof.
  intros Hc Hb. pose proof (contains_blank c s Hc Hb) as Hn.
  unfold count_char, contains in *.
  induction s as [|d r IH]; simpl in *; [reflexivity|].
  apply orb_false_elim in Hn as [Hd Hr]. rewrite Hd.
  apply andb_prop in Hb as [_ Hb]. auto.
Qed.

(** On a blank text there is no bracket to protect. *)
Lemma protect_blank text :
  forallb is_space text = true -> _protect_brackets text = (text, []).
Proof.
  intros Hb. unfold _protect_brackets.
  rewrite (count_char_blank c_lparen text) by (reflexivity || assumption).
  simpl. rewrite (count_char_blank c_lcurly text) by (reflexivity || assumption).
  reflexivity.
Qed.
End Parser.

(** C5.  [parse_value_list] applies the delimiter precedence newline >
    pipe > comma of the specification to the bracket-protected text, with
    the pieces trimmed and the blank ones dropped, and restores the values;
    in particular ["a\nb|c\nd,e"] parses to [a], [b], [c], [d], [e]. *)
Theorem delimiter_precedence :
  (forall text,
     parse_value_list text =
     restore_values (snd (_protect_brackets text))
       (Spec.delimiter_split (fst (_protect_brackets text))))
  /\ parse_value_list (py_lines ["a"; "b|c"; "d,e"]%string)
     = [py "a"; py "b"; py "c"; py "d"; py "e"].
Proof.
  split; [|vm_compute; reflexivity].
  intros text. unfold parse_value_list.
  destruct (negb (truthy text) || negb (truthy (strip text))) eqn:E.
  - assert (Hb : forallb is_space text = true).
    { rewrite truthy_strip, negb_involutive in E.
      destruct text; [reflexivity|]. exact E. }
    rewrite protect_blank by exact Hb. simpl.
    rewrite delimiter_split_blank by exact Hb. reflexivity.
  - destruct (_protect_brackets text) as [protected_text replacements].
    simpl. rewrite split_values_spec. reflexivity.
Qed.

(** ** Facts about [replace] *)

Section ReplaceFacts.
Implicit Types (old new s rest : pystr).

Lemma strip_prefix_length old s rest :
  strip_prefix old s = Some rest -> length s = length old + length rest.
Proof.
  revert s. induction old as [|a p IH]; intros s; cbn [strip_prefix].
  - intros [= ->]. reflexivity.
  - destruct s as [|b s]; [discriminate|].
    destruct (a =? b)%N; [|discriminate].
    intros H. apply IH in H. simpl. lia.
Qed.

Lemma strip_prefix_app old rest : strip_prefix old (old ++ rest) = Some rest.
Proof.
  induction old as [|a p IH]; cbn [strip_prefix app]; [reflexivity|].
  rewrite N.eqb_refl. exact IH.
Qed.

Lemma strip_prefix_Some old s rest :
  strip_prefix old s = Some rest -> s = old ++ rest.
Proof.
  revert s. induction old as [|a p IH]; intros s; cbn [strip_prefix].
  - intros [= ->]. reflexivity.
  - destruct s as [|b s]; [discriminate|].
    destruct (N.eqb_spec a b) as [->|]; [|discriminate].
    intros H. apply IH in H. subst s. reflexivity.
Qed.

Lemma prefix_here_consumes a p s u rest :
  prefix_here (a :: p) s = Some (u, rest) -> length rest < length s.
Proof.
  unfold prefix_here. destruct (strip_prefix (a :: p) s) eqn:E; [|discriminate].
  intros [= _ <-]. apply strip_prefix_length in E. simpl in E. lia.
Qed.

Lemma replace_nil a p new : replace (a :: p) new [] = [].
Proof. reflexivity. Qed.

Lemma replace_cons a p new c s :
  replace (a :: p) new (c :: s) =
  match strip_prefix (a :: p) (c :: s) with
  | Some rest => new ++ replace (a :: p) new rest
  | None => c :: replace (a :: p) new s
  end.
Proof.
  unfold replace.
  rewrite (sub_cons _ (prefix_here_consumes a p)).
  unfold prefix_here at 1.
  destruct (strip_prefix (a :: p) (c :: s)); reflexivity.
Qed.

Lemma replace_whole a p new : replace (a :: p) new (a :: p) = new.
Proof.
  rewrite replace_cons.
  pose proof (strip_prefix_app (a :: p) []) as H. rewrite app_nil_r in H.
  rewrite H, replace_nil, app_nil_r. reflexivity.
Qed.
End ReplaceFacts.

(** ** One bracket group *)

Section Groups.
Implicit Types (g rest s : pystr) (c : char).

Lemma count_char_app c s1 s2 :
  count_char c (s1 ++ s2) = count_char c s1 + count_char c s2.
Proof. unfold count_char. rewrite List.filter_app, length_app. reflexivity. Qed.

Lemma count_char_absent c s : contains c s = false -> count_char c s = 0.
Proof.
  unfold count_char, contains. induction s as [|d r IH]; simpl; [reflexivity|].
  intros H. apply orb_false_elim in H as [-> Hr]. auto.
Qed.

Lemma paren_body_group g rest :
  contains c_lparen g = false -> contains c_rparen g = false ->
  paren_body (g ++ c_rparen :: rest) = Some (g ++ [c_rparen], rest).
Proof.
  unfold contains.
  induction g as [|c g IH]; [intros _ _; cbn; reflexivity|].
  cbn [existsb app paren_body curly_body].
  intros Hl Hr. apply orb_false_elim in Hl as [Hl Hl'].
  apply orb_false_elim in Hr as [Hr Hr'].
  rewrite (N.eqb_sym c), Hr, (N.eqb_sym c), Hl, (IH Hl' Hr'). reflexivity.
Qed.

Lemma curly_body_group g rest :
  contains c_lcurly g = false -> contains c_rcurly g = false ->
  curly_body (g ++ c_rcurly :: rest) = Some (g ++ [c_rcurly], rest).
Proof.
  unfold contains.
  induction g as [|c g IH]; [intros _ _; cbn; reflexivity|].
  cbn [existsb app paren_body curly_body].
  intros Hl Hr. apply orb_false_elim in Hl as [Hl Hl'].
  apply orb_false_elim in Hr as [Hr Hr'].
  rewrite (N.eqb_sym c), Hr, (N.eqb_sym c), Hl, (IH Hl' Hr'). reflexivity.
Qed.

Lemma startswith_group p g c rest :
  contains c p = false -> startswith p g = false ->
  startswith p (g ++ c :: rest) = false.
Proof.
  unfold startswith, contains. revert g.
  induction p as [|a p IH]; intros g; cbn [strip_prefix existsb].
  - discriminate.
  - intros Hc. apply orb_false_elim in Hc as [Ha Hp].
    destruct g as [|b g]; cbn [app strip_prefix].
    + rewrite N.eqb_sym, Ha. reflexivity.
    + destruct (a =? b)%N; [apply IH; exact Hp | reflexivity].
Qed.

(** One group at the head of the text, and no bracket after it: the
    group becomes the placeholder number 0. *)
Lemma protect_single_paren g rest :
  contains c_lparen g = false -> contains c_rparen g = false ->
  contains c_lparen rest = false -> contains c_lcurly rest = false ->
  _protect_brackets (c_lparen :: g ++ c_rparen :: rest) =
  (py "__PAREN_0__" ++ rest, [(py "__PAREN_0__", c_lparen :: g ++ [c_rparen])]).
Proof.
  intros Hl Hr Hl' Hc'. unfold _protect_brackets.
  assert (Hn : count_char c_lparen (c_lparen :: g ++ c_rparen :: rest) = 1).
  { change (c_lparen :: g ++ c_rparen :: rest)
      with ([c_lparen] ++ g ++ [c_rparen] ++ rest).
    rewrite !count_char_app, (count_char_absent _ g Hl),
      (count_char_absent _ rest Hl'). reflexivity. }
  rewrite Hn. cbn [protect_loop ps_result ps_replacements ps_counter].
  cbn [search paren_here]. rewrite N.eqb_refl.
  rewrite (paren_body_group g rest Hl Hr).
  cbn [ps_result ps_replacements ps_counter dict_set app].
  change (count_char c_lcurly _) with (count_char c_lcurly (py "__PAREN_0__" ++ rest)).
  rewrite count_char_app, (count_char_absent _ rest Hc'). reflexivity.
Qed.

Lemma protect_single_curly g rest :
  contains c_lparen g = false ->
  contains c_lcurly g = false -> contains c_rcurly g = false ->
  startswith (py "wildcard_") g = false ->
  contains c_lparen rest = false -> contains c_lcurly rest = false ->
  _protect_brackets (c_lcurly :: g ++ c_rcurly :: rest) =
  (py "__CURLY_0__" ++ rest, [(py "__CURLY_0__", c_lcurly :: g ++ [c_rcurly])]).
Proof.
  intros Hp Hl Hr Hw Hp' Hc'. unfold _protect_brackets.
  assert (Hn0 : count_char c_lparen (c_lcurly :: g ++ c_rcurly :: rest) = 0).
  { change (c_lcurly :: g ++ c_rcurly :: rest)
      with ([c_lcurly] ++ g ++ [c_rcurly] ++ rest).
    rewrite !count_char_app, (count_char_absent _ g Hp),
      (count_char_absent _ rest Hp'). reflexivity. }
  assert (Hn : count_char c_lcurly (c_lcurly :: g ++ c_rcurly :: rest) = 1).
  { change (c_lcurly :: g ++ c_rcurly :: rest)
      with ([c_lcurly] ++ g ++ [c_rcurly] ++ rest).
    rewrite !count_char_app, (count_char_absent _ g Hl),
      (count_char_absent _ rest Hc'). reflexivity. }
  rewrite Hn0. cbn [protect_loop ps_result ps_replacements ps_counter].
  rewrite Hn. cbn [protect_loop ps_result ps_replacements ps_counter].
  cbn [search curly_here]. rewrite N.eqb_refl.
  rewrite (startswith_group _ g c_rcurly rest) by (reflexivity || assumption).
  rewrite (curly_body_group g rest Hl Hr).
  reflexivity.
Qed.
End Groups.

(** A single group before a plain value.  A parenthesised group without
    inner parentheses is one value, with its delimiters kept; so is a curly
    group without inner brackets that does not begin with [{wildcard_]. *)
Lemma single_group_is_atomic (g : pystr) :
  (contains c_lparen g = false -> contains c_rparen g = false ->
   parse_value_list (py "(" ++ g ++ py "), c") = [py "(" ++ g ++ py ")"; py "c"])
  /\ (contains c_lparen g = false ->
      contains c_lcurly g = false -> contains c_rcurly g = false ->
      startswith (py "wildcard_") g = false ->
      parse_value_list (py "{" ++ g ++ py "}, c") = [py "{" ++ g ++ py "}"; py "c"])
  /\ parse_value_list (py "(a, b), c") = [py "(a, b)"; py "c"].
Proof.
  split; [|split; [|vm_compute; reflexivity]].
  - intros Hl Hr. unfold parse_value_list.
    change (py "(" ++ g ++ py "), c") with (c_lparen :: g ++ c_rparen :: py ", c").
    rewrite truthy_strip. cbn [truthy forallb negb orb andb].
    change (is_space c_lparen) with false. cbn [truthy forallb negb orb andb].
    rewrite protect_single_paren by (reflexivity || assumption).
    change (split_values (py "__PAREN_0__" ++ py ", c"))
      with [py "__PAREN_0__"; py "c"].
    unfold restore_values. cbn [flat_map _restore_brackets].
    rewrite (replace_whole 95%N (List.tl (py "__PAREN_0__"))).
    change (replace (py "__PAREN_0__") _ (py "c")) with (py "c").
    reflexivity.
  - intros Hp Hl Hr Hw. unfold parse_value_list.
    change (py "{" ++ g ++ py "}, c") with (c_lcurly :: g ++ c_rcurly :: py ", c").
    rewrite truthy_strip. cbn [truthy forallb negb orb andb].
    change (is_space c_lcurly) with false. cbn [truthy forallb negb orb andb].
    rewrite protect_single_curly by (reflexivity || assumption).
    change (split_values (py "__CURLY_0__" ++ py ", c"))
      with [py "__CURLY_0__"; py "c"].
    unfold restore_values. cbn [flat_map _restore_brackets].
    rewrite (replace_whole 95%N (List.tl (py "__CURLY_0__"))).
    change (replace (py "__CURLY_0__") _ (py "c")) with (py "c").
    reflexivity.
Qed.

(** C6 as stated fails: [{wildcard_a, b}] does not match the placeholder
    pattern, and is split at its comma all the same. *)
Lemma curly_group_not_protected :
  wildcard_here (py "{wildcard_a, b}") = None
  /\ parse_value_list (py "{wildcard_a, b}, c")
     = [py "{wildcard_a"; py "b}"; py "c"]
  /\ parse_value_list (py "{wildcard_a, b}, c") <> [py "{wildcard_a, b}"; py "c"].
Proof.
  split; [vm_compute; reflexivity|].
  split; [vm_compute; reflexivity|].
  vm_compute. discriminate.
Qed.

(** C1 fails on nested groups.  The inner group of [((a))] becomes
    [__PAREN_0__] and the outer one [__PAREN_1__]; the restoration goes
    through the placeholders in the order of their creation, so the text
    restored for [__PAREN_1__] is never looked at again, and the value
    returned still holds [__PAREN_0__]. *)
Theorem nested_group_leaks_placeholder :
  _protect_brackets (py "((a))")
  = (py "__PAREN_1__",
     [(py "__PAREN_0__", py "(a)"); (py "__PAREN_1__", py "(__PAREN_0__)")])
  /\ parse_value_list (py "((a))") = [py "(__PAREN_0__)"]
  /\ existsb has_bracket_placeholder (parse_value_list (py "((a))")) = true.
Proof. repeat split; vm_compute; reflexivity. Qed.

(** ** The loops of [_protect_brackets] run to their end *)

Section ProtectLoop.
Variable here : pystr -> option (pystr * pystr).
Variable opening : char.
Variable tag : pystr.

(** A match is a part of the text that holds one opening bracket. *)
Hypothesis here_group :
  forall s g rest, here s = Some (g, rest) ->
    s = g ++ rest /\ count_char opening g = 1.
Hypothesis tag_plain : count_char opening tag = 0.
Hypothesis opening_no_digit :
  ((48 <=? opening) && (opening <=? 57))%N = false.
Hypothesis opening_no_underscore : (opening =? c_underscore)%N = false.

Lemma search_Some s before g rest :
  search here s = Some (before, g, rest) ->
  s = before ++ g ++ rest /\ count_char opening g = 1.
Proof.
  revert before. induction s as [|c s IH]; intros before; cbn [search].
  - destruct (here []) as [[g' r']|] eqn:E; [|discriminate].
    intros [= <- <- <-]. exact (here_group _ _ _ E).
  - destruct (here (c :: s)) as [[g' r']|] eqn:E.
    + intros [= <- <- <-]. exact (here_group _ _ _ E).
    + destruct (search here s) as [[[b' g'] r']|]; [|discriminate].
      intros [= <- <- <-]. destruct (IH b' eq_refl) as [-> Hg].
      split; [reflexivity | exact Hg].
Qed.

Lemma search_without_opening s :
  count_char opening s = 0 -> search here s = None.
Proof.
  intros Hs. destruct (search here s) as [[[b g] r]|] eqn:E; [|reflexivity].
  apply search_Some in E as [-> Hg].
  rewrite !count_char_app in Hs. lia.
Qed.

Lemma count_char_digits (d : Decimal.uint) :
  count_char opening (py (NilEmpty.string_of_uint d)) = 0.
Proof.
  induction d; cbn [NilEmpty.string_of_uint py list_ascii_of_string List.map];
    [reflexivity|..];
    change (count_char opening (?c :: ?l))
      with (length (List.filter (N.eqb opening) (c :: l)));
    cbn [List.filter];
    match goal with
    | |- context [(opening =? ?k)%N] =>
        destruct (N.eqb_spec opening k) as [Hk|_];
        [rewrite Hk in opening_no_digit; discriminate | exact IHd]
    end.
Qed.

Lemma count_char_placeholder n :
  count_char opening (py "__" ++ tag ++ py "_" ++ str_of_nat n ++ py "__") = 0.
Proof.
  rewrite !count_char_app. unfold str_of_nat.
  rewrite tag_plain, count_char_digits.
  assert (H : forall k, count_char opening (List.repeat c_underscore k) = 0).
  { induction k as [|k IH]; [reflexivity|].
    cbn [List.repeat]. unfold count_char in *. cbn [List.filter].
    rewrite opening_no_underscore. exact IH. }
  change (py "__") with (List.repeat c_underscore 2).
  change (py "_") with (List.repeat c_underscore 1).
  rewrite (H 2), (H 1). reflexivity.
Qed.

(** With as much fuel as the text has opening brackets the loop stops
    because the pattern is no longer found. *)
Lemma protect_loop_exits fuel st :
  count_char opening (ps_result st) <= fuel ->
  search here (ps_result (protect_loop here tag fuel st)) = None.
Proof.
  revert st. induction fuel as [|fuel IH]; intros st Hn; cbn [protect_loop].
  - apply search_without_opening. lia.
  - destruct (search here (ps_result st)) as [[[before g] rest]|] eqn:E;
      [|exact E].
    apply IH. cbn [ps_result].
    apply search_Some in E as [Hs Hg]. rewrite Hs in Hn.
    rewrite !count_char_app in Hn.
    rewrite (count_char_app _ before), count_char_app, count_char_placeholder.
    lia.
Qed.
End ProtectLoop.

Section ProtectBrackets.
Implicit Types (s g rest text : pystr).

Lemma count_char_cons c d s :
  count_char c (d :: s) = (if (c =? d)%N then 1 else 0) + count_char c s.
Proof. unfold count_char. cbn [List.filter]. destruct (c =? d)%N; reflexivity. Qed.

Lemma paren_body_group_inv s g rest :
  paren_body s = Some (g, rest) -> s = g ++ rest /\ count_char c_lparen g = 0.
Proof.
  revert g. induction s as [|c s IH]; intros g; cbn [paren_body]; [discriminate|].
  destruct (N.eqb_spec c c_rparen) as [->|_].
  - intros [= <- <-]. split; reflexivity.
  - destruct (N.eqb_spec c c_lparen) as [|Hc]; [discriminate|].
    destruct (paren_body s) as [[g' r']|]; [|discriminate].
    intros [= <- <-]. destruct (IH g' eq_refl) as [-> Hg].
    split; [reflexivity|]. rewrite count_char_cons, Hg.
    destruct (N.eqb_spec c_lparen c); [congruence | reflexivity].
Qed.

Lemma paren_here_group s g rest :
  paren_here s = Some (g, rest) -> s = g ++ rest /\ count_char c_lparen g = 1.
Proof.
  destruct s as [|c s]; cbn [paren_here]; [discriminate|].
  destruct (N.eqb_spec c c_lparen) as [->|]; [|discriminate].
  destruct (paren_body s) as [[g' r']|] eqn:E; [|discriminate].
  intros [= <- <-]. apply paren_body_group_inv in E as [-> Hg].
  split; [reflexivity|]. rewrite count_char_cons, Hg. reflexivity.
Qed.

Lemma curly_body_group_inv s g rest :
  curly_body s = Some (g, rest) -> s = g ++ rest /\ count_char c_lcurly g = 0.
Proof.
  revert g. induction s as [|c s IH]; intros g; cbn [curly_body]; [discriminate|].
  destruct (N.eqb_spec c c_rcurly) as [->|_].
  - intros [= <- <-]. split; reflexivity.
  - destruct (N.eqb_spec c c_lcurly) as [|Hc]; [discriminate|].
    destruct (curly_body s) as [[g' r']|]; [|discriminate].
    intros [= <- <-]. destruct (IH g' eq_refl) as [-> Hg].
    split; [reflexivity|]. rewrite count_char_cons, Hg.
    destruct (N.eqb_spec c_lcurly c); [congruence | reflexivity].
Qed.

Lemma curly_here_group s g rest :
  curly_here s = Some (g, rest) -> s = g ++ rest /\ count_char c_lcurly g = 1.
Proof.
  destruct s as [|c s]; cbn [curly_here]; [discriminate|].
  destruct (N.eqb_spec c c_lcurly) as [->|]; [|discriminate].
  destruct (startswith (py "wildcard_") s); [discriminate|].
  destruct (curly_body s) as [[g' r']|] eqn:E; [|discriminate].
  intros [= <- <-]. apply curly_body_group_inv in E as [-> Hg].
  split; [reflexivity|]. rewrite count_char_cons, Hg. reflexivity.
Qed.

(** Both loops of [_protect_brackets] end as the Python loops do: when
    their pattern is not found in the text any more. *)
Lemma protect_brackets_loops_exit text :
  let st :=
    protect_loop paren_here (py "PAREN") (count_char c_lparen text)
      {| ps_result := text; ps_replacements := []; ps_counter := 0 |} in
  search paren_here (ps_result st) = None
  /\ search curly_here (fst (_protect_brackets text)) = None.
Proof.
  split.
  - apply (protect_loop_exits paren_here c_lparen (py "PAREN") paren_here_group);
      reflexivity || (cbn [ps_result]; lia).
  - unfold _protect_brackets. cbn [fst].
    apply (protect_loop_exits curly_here c_lcurly (py "CURLY") curly_here_group);
      reflexivity || lia.
Qed.
End ProtectBrackets.

(** ** Placeholders *)

Section Placeholders.
Implicit Types (s r rest id n : pystr) (c : char).

Lemma ident_run_spec s :
  let '(run, rest) := ident_run s in
  s = run ++ rest /\ forallb is_ident run = true.
Proof.
  induction s as [|c s IH]; cbn [ident_run]; [split; reflexivity|].
  destruct (is_ident c) eqn:Ec.
  - destruct (ident_run s) as [run rest]. destruct IH as [-> Hrun].
    split; [reflexivity|]. cbn [forallb]. rewrite Ec. exact Hrun.
  - split; reflexivity.
Qed.

Lemma ident_run_app id c rest :
  forallb is_ident id = true -> is_ident c = false ->
  ident_run (id ++ c :: rest) = (id, c :: rest).
Proof.
  intros Hid Hc. induction id as [|d id IH]; cbn [ident_run app].
  - rewrite Hc. reflexivity.
  - cbn [forallb] in Hid. apply andb_prop in Hid as [-> Hid].
    rewrite (IH Hid). reflexivity.
Qed.

(** A match of the pattern is a token followed by the rest of the text. *)
Lemma wildcard_here_Some s id rest :
  wildcard_here s = Some (id, rest) ->
  s = token id ++ rest /\ id <> [] /\ forallb is_ident id = true.
Proof.
  unfold wildcard_here.
  destruct (strip_prefix (py "{wildcard_") s) as [s1|] eqn:E; [|discriminate].
  apply strip_prefix_Some in E. subst s.
  pose proof (ident_run_spec s1) as Hrun.
  destruct (ident_run s1) as [[|d run] [|c rest']]; try discriminate.
  destruct (N.eqb_spec c c_rcurly) as [->|]; [|discriminate].
  intros [= <- <-]. destruct Hrun as [-> Hrun].
  split; [|split; [discriminate | exact Hrun]].
  unfold token. rewrite <- !app_assoc. reflexivity.
Qed.

Lemma wildcard_here_token id rest :
  id <> [] -> forallb is_ident id = true ->
  wildcard_here (token id ++ rest) = Some (id, rest).
Proof.
  intros Hne Hid. unfold wildcard_here, token.
  rewrite <- !app_assoc, strip_prefix_app.
  change (py "}" ++ rest) with (c_rcurly :: rest).
  rewrite ident_run_app by (reflexivity || assumption).
  destruct id; [congruence|]. reflexivity.
Qed.

Lemma wildcard_here_consumes s id rest :
  wildcard_here s = Some (id, rest) -> length rest < length s.
Proof.
  intros H. apply wildcard_here_Some in H as (-> & _ & _).
  rewrite length_app. unfold token. rewrite length_app. simpl. lia.
Qed.

Lemma braces_open_wildcards_tail c s :
  braces_open_wildcards (c :: s) = true -> braces_open_wildcards s = true.
Proof. cbn [braces_open_wildcards]. intros H. apply andb_prop in H as [_ H]. exact H. Qed.

Lemma braces_open_wildcards_app s1 s2 :
  braces_open_wildcards (s1 ++ s2) = true -> braces_open_wildcards s2 = true.
Proof.
  induction s1 as [|c s1 IH]; [auto|].
  intros H. apply IH. exact (braces_open_wildcards_tail _ _ H).
Qed.

Lemma pieces_cons c s :
  pieces (c :: s) =
  match wildcard_here (c :: s) with
  | Some (id, rest) => Hit id :: pieces rest
  | None => Lit c :: pieces s
  end.
Proof. apply scan_cons. exact wildcard_here_consumes. Qed.

Lemma by_length (P : pystr -> Prop) :
  (forall s, (forall r, length r < length s -> P r) -> P s) -> forall s, P s.
Proof.
  intros H s. apply (well_founded_induction
    (well_founded_ltof _ (@length char))). exact H.
Qed.

Lemma render_pieces s : flat_map render_piece (pieces s) = s.
Proof.
  induction s as [s IH] using by_length.
  destruct s as [|c s]; [reflexivity|]. rewrite pieces_cons.
  destruct (wildcard_here (c :: s)) as [[id rest]|] eqn:E.
  - cbn [flat_map render_piece]. rewrite IH.
    + apply wildcard_here_Some in E as (-> & _). reflexivity.
    + exact (wildcard_here_consumes _ _ _ E).
  - cbn [flat_map render_piece app]. rewrite IH; [reflexivity | simpl; lia].
Qed.

Lemma pieces_well_formed s :
  braces_open_wildcards s = true -> Forall well_formed (pieces s).
Proof.
  induction s as [s IH] using by_length. intros Hs.
  destruct s as [|c s]; [constructor|]. rewrite pieces_cons.
  destruct (wildcard_here (c :: s)) as [[id rest]|] eqn:E.
  - pose proof (wildcard_here_consumes _ _ _ E) as Hlen.
    apply wildcard_here_Some in E as (Heq & Hne & Hid).
    constructor; [split; assumption|]. apply IH; [exact Hlen|].
    rewrite Heq in Hs. exact (braces_open_wildcards_app _ _ Hs).
  - constructor.
    + cbn [braces_open_wildcards] in Hs. rewrite E in Hs.
      cbn [well_formed]. intros ->. discriminate.
    + apply IH; [simpl; lia|]. exact (braces_open_wildcards_tail _ _ Hs).
Qed.

(** *** Replacing one placeholder by the empty string *)

Lemma is_ident_not_brace c : is_ident c = true -> c <> c_lcurly /\ c <> c_rcurly.
Proof. intros H. split; intros ->; discriminate. Qed.

Lemma replace_plain a p new plain s :
  Forall (fun c => c <> a) plain ->
  replace (a :: p) new (plain ++ s) = plain ++ replace (a :: p) new s.
Proof.
  induction 1 as [|c plain Hc _ IH]; [reflexivity|].
  cbn [app]. rewrite replace_cons. cbn [strip_prefix].
  destruct (N.eqb_spec a c) as [->|_]; [congruence|].
  rewrite IH. reflexivity.
Qed.

Lemma strip_prefix_common p a b :
  strip_prefix (p ++ a) (p ++ b) = strip_prefix a b.
Proof.
  induction p as [|c p IH]; [reflexivity|].
  cbn [app strip_prefix]. rewrite N.eqb_refl. exact IH.
Qed.

Lemma token_prefix n id rest :
  forallb is_ident n = true -> forallb is_ident id = true ->
  strip_prefix (token n) (token id ++ rest) <> None -> n = id.
Proof.
  intros Hn Hid. unfold token. rewrite <- !app_assoc, strip_prefix_common.
  change (py "}" ++ rest) with (c_rcurly :: rest). change (py "}") with [c_rcurly].
  revert id Hid. induction n as [|a n IH]; intros [|d id] Hid; cbn [app strip_prefix forallb] in *.
  - reflexivity.
  - apply andb_prop in Hid as [Hd _]. apply is_ident_not_brace in Hd as [_ Hd].
    destruct (N.eqb_spec c_rcurly d); congruence.
  - apply andb_prop in Hn as [Ha _]. apply is_ident_not_brace in Ha as [_ Ha].
    destruct (N.eqb_spec a c_rcurly); congruence.
  - apply andb_prop in Hn as [_ Hn]. apply andb_prop in Hid as [_ Hid].
    destruct (N.eqb_spec a d) as [->|]; [|congruence].
    intros H. f_equal. exact (IH Hn id Hid H).
Qed.

Lemma token_plain id :
  forallb is_ident id = true ->
  Forall (fun c => c <> c_lcurly) (py "wildcard_" ++ id ++ py "}").
Proof.
  intros Hid. apply Forall_app. split; [|apply Forall_app; split].
  - repeat constructor; discriminate.
  - apply List.Forall_forall. intros c Hc.
    rewrite forallb_forall in Hid. apply Hid in Hc.
    apply is_ident_not_brace in Hc. tauto.
  - repeat constructor; discriminate.
Qed.

Lemma replace_token n segs :
  forallb is_ident n = true -> Forall well_formed segs ->
  replace (token n) [] (flat_map render_piece segs) =
  flat_map render_piece (List.filter (other_than n) segs).
Proof.
  intros Hn. induction 1 as [|[c|id] segs Hp _ IH].
  - reflexivity.
  - cbn [flat_map render_piece app List.filter other_than].
    change (token n) with (c_lcurly :: (py "wildcard_" ++ n ++ py "}")) in *.
    rewrite replace_cons. cbn [strip_prefix].
    cbn [well_formed] in Hp.
    destruct (N.eqb_spec c_lcurly c) as [<-|_]; [congruence|].
    rewrite IH. reflexivity.
  - destruct Hp as [_ Hid].
    cbn [flat_map render_piece List.filter other_than].
    unfold pystr_eqb. destruct (decide (id = n)) as [->|Hne].
    + rewrite bool_decide_true by reflexivity. cbn [negb].
      change (token n) with (c_lcurly :: (py "wildcard_" ++ n ++ py "}")) at 1 2.
      cbn [app]. rewrite replace_cons.
      change (c_lcurly :: (py "wildcard_" ++ n ++ py "}")) with (token n).
      change (c_lcurly :: (py "wildcard_" ++ n ++ py "}") ++ flat_map render_piece segs)
        with (token n ++ flat_map render_piece segs).
      rewrite strip_prefix_app. exact IH.
    + rewrite bool_decide_false by exact Hne. cbn [negb flat_map render_piece].
      destruct (strip_prefix (token n) (token id ++ flat_map render_piece segs)) eqn:E.
      { exfalso. apply Hne. symmetry. apply (token_prefix n id (flat_map render_piece segs) Hn Hid).
        rewrite E. discriminate. }
      change (token n) with (c_lcurly :: (py "wildcard_" ++ n ++ py "}")) in *.
      change (token id) with (c_lcurly :: (py "wildcard_" ++ id ++ py "}")) in *.
      cbn [app] in *. rewrite replace_cons, E.
      rewrite replace_plain by (apply token_plain; exact Hid).
      rewrite IH. reflexivity.
Qed.

(** *** The names that [extract_wildcard_names] returns *)

Lemma unique_full_names_shape ms seen acc :
  Forall (fun m => forallb is_ident m = true) ms -> Forall full_name acc ->
  Forall full_name (unique_full_names ms seen acc).
Proof.
  intros Hms. revert seen acc.
  induction Hms as [|m ms Hm _ IH]; intros seen acc Hacc; cbn [unique_full_names].
  - exact Hacc.
  - destruct (existsb _ seen); apply IH; [exact Hacc|].
    apply Forall_app. split; [exact Hacc|].
    constructor; [|constructor]. exists m. split; [reflexivity | exact Hm].
Qed.

Lemma unique_full_names_covers ms seen acc :
  (forall x, In x seen -> In x acc) ->
  (forall x, In x acc -> In x (unique_full_names ms seen acc))
  /\ (forall m, In m ms -> In (py "wildcard_" ++ m) (unique_full_names ms seen acc)).
Proof.
  revert seen acc. induction ms as [|m ms IH]; intros seen acc Hseen;
    cbn [unique_full_names].
  - split; [auto | intros m []].
  - destruct (existsb (pystr_eqb (py "wildcard_" ++ m)) seen) eqn:E.
    + destruct (IH seen acc Hseen) as [Hacc Hms].
      split; [exact Hacc|]. intros m' [<-|Hin]; [|auto].
      apply Hacc, Hseen. apply existsb_exists in E as (x & Hx & Heq).
      unfold pystr_eqb in Heq. apply bool_decide_eq_true in Heq. subst x. exact Hx.
    + destruct (IH ((py "wildcard_" ++ m) :: seen) (acc ++ [py "wildcard_" ++ m]))
        as [Hacc Hms].
      { intros x [<-|Hx]; apply in_or_app; [right; left; reflexivity | left; auto]. }
      split.
      * intros x Hx. apply Hacc, in_or_app. left. exact Hx.
      * intros m' [<-|Hin]; [|auto].
        apply Hacc, in_or_app. right. left. reflexivity.
Qed.

Lemma findall_pieces s id :
  In id (findall wildcard_here s) <-> In (Hit id) (pieces s).
Proof.
  unfold findall, pieces. rewrite in_flat_map. split.
  - intros ([c|id'] & Hin & Hid); [destruct Hid|].
    destruct Hid as [->|[]]. exact Hin.
  - intros Hin. exists (Hit id). split; [exact Hin | left; reflexivity].
Qed.

(** *** The second loop of [replace_wildcards] *)

Lemma Forall_filter_list {A} (P : A -> Prop) (f : A -> bool) (l : list A) :
  Forall P l -> Forall P (List.filter f l).
Proof.
  rewrite !List.Forall_forall. intros H x Hx.
  apply List.filter_In in Hx as [Hx _]. auto.
Qed.

Lemma filter_twice {A} (f g : A -> bool) (l : list A) :
  List.filter f (List.filter g l) = List.filter (fun x => g x && f x) l.
Proof.
  induction l as [|x l IH]; [reflexivity|]. cbn [List.filter].
  destruct (g x); cbn [List.filter andb]; rewrite IH; reflexivity.
Qed.

Lemma blank_remaining_pieces names segs :
  Forall full_name names -> Forall well_formed segs ->
  blank_remaining (flat_map render_piece segs) names =
  flat_map render_piece (List.filter (fun p => negb (named_in names p)) segs).
Proof.
  intros Hnames. revert segs.
  induction Hnames as [|x names (n & -> & Hn) _ IH]; intros segs Hsegs;
    cbn [blank_remaining].
  - f_equal. symmetry. apply forallb_filter_id.
    apply forallb_forall. intros [c|id] _; reflexivity.
  - change (py "{" ++ (py "wildcard_" ++ n) ++ py "}") with (token n).
    rewrite (replace_token n segs Hn Hsegs).
    rewrite IH by (apply Forall_filter_list; exact Hsegs).
    f_equal. rewrite filter_twice. apply List.filter_ext. intros p.
    destruct p as [c|id]; cbn [other_than named_in existsb]; [reflexivity|].
    rewrite negb_orb. f_equal. f_equal. unfold pystr_eqb.
    apply bool_decide_ext. split; [intros ->; reflexivity|].
    intros H. exact (app_inv_head _ _ _ H).
Qed.

(** On a text in which every opening brace opens a placeholder, the
    second loop deletes all the placeholders at once. *)
Lemma blank_remaining_deletes r :
  braces_open_wildcards r = true ->
  blank_remaining r (extract_wildcard_names r) = sub wildcard_here (fun _ => []) r.
Proof.
  intros Hr. pose proof (pieces_well_formed r Hr) as Hwf.
  rewrite <- (render_pieces r) at 1.
  rewrite blank_remaining_pieces; [| |exact Hwf].
  - unfold sub. fold (pieces r).
    assert (Hcov : forall id, In (Hit id) (pieces r) ->
                     named_in (extract_wildcard_names r) (Hit id) = true).
    { intros id Hin. apply findall_pieces in Hin. cbn [named_in].
      apply existsb_exists. exists (py "wildcard_" ++ id). split.
      - apply unique_full_names_covers; [intros x [] | exact Hin].
      - unfold pystr_eqb. apply bool_decide_eq_true. reflexivity. }
    clear Hwf. induction (pieces r) as [|[c|id] segs IH]; [reflexivity| |].
    + cbn [List.filter named_in negb flat_map render_piece].
      rewrite IH; [reflexivity|]. intros id Hin. apply Hcov. right. exact Hin.
    + cbn [List.filter]. rewrite (Hcov id) by (left; reflexivity).
      cbn [negb flat_map app]. apply IH. intros id' Hin. apply Hcov. right. exact Hin.
  - apply unique_full_names_shape; [|constructor].
    apply List.Forall_forall. intros id Hin. apply findall_pieces in Hin.
    rewrite List.Forall_forall in Hwf. apply Hwf in Hin. apply Hin.
Qed.

Lemma deleted_has_no_brace r :
  braces_open_wildcards r = true ->
  contains c_lcurly (sub wildcard_here (fun _ => []) r) = false.
Proof.
  intros Hr. pose proof (pieces_well_formed r Hr) as Hwf.
  unfold sub. fold (pieces r).
  induction Hwf as [|[c|id] segs Hp _ IH]; [reflexivity| |exact IH].
  cbn [flat_map app contains existsb]. fold (contains c_lcurly).
  unfold contains in IH. rewrite IH. cbn [well_formed] in Hp.
  destruct (N.eqb_spec c_lcurly c); [congruence | reflexivity].
Qed.

Lemma no_brace_no_wildcard s :
  contains c_lcurly s = false -> has_wildcard s = false.
Proof.
  intros Hs. unfold has_wildcard.
  replace (findall wildcard_here s) with (@nil pystr); [reflexivity|].
  induction s as [|c s IH]; [reflexivity|].
  cbn [contains existsb] in Hs. apply orb_false_elim in Hs as [Hc Hs].
  rewrite (findall_cons _ wildcard_here_consumes).
  unfold wildcard_here at 1. cbn [py List.map list_ascii_of_string strip_prefix].
  change (ord "{") with c_lcurly. rewrite Hc. exact (IH Hs).
Qed.
(** *** The first loop of [replace_wildcards] *)

Lemma braces_open_wildcards_plain plain s :
  contains c_lcurly plain = false -> braces_open_wildcards s = true ->
  braces_open_wildcards (plain ++ s) = true.
Proof.
  intros Hp Hs. induction plain as [|c plain IH]; [exact Hs|].
  cbn [contains existsb] in Hp. apply orb_false_elim in Hp as [Hc Hp].
  cbn [app braces_open_wildcards]. rewrite N.eqb_sym, Hc. exact (IH Hp).
Qed.

Lemma contains_Forall c s :
  contains c s = false -> Forall (fun d => d <> c) s.
Proof.
  induction s as [|d s IH]; [constructor|]. cbn [contains existsb].
  intros H. apply orb_false_elim in H as [Hd Hs]. constructor; [|exact (IH Hs)].
  intros ->. rewrite N.eqb_refl in Hd. discriminate.
Qed.

(** Replacing a text that begins with an opening brace by a text without
    one leaves the other placeholders whole. *)
Lemma replace_keeps_braces p new s :
  contains c_lcurly new = false -> braces_open_wildcards s = true ->
  braces_open_wildcards (replace (c_lcurly :: p) new s) = true.
Proof.
  intros Hnew. induction s as [s IH] using by_length. intros Hs.
  destruct s as [|c s]; [reflexivity|]. rewrite replace_cons.
  destruct (strip_prefix (c_lcurly :: p) (c :: s)) as [rest|] eqn:E.
  - apply braces_open_wildcards_plain; [exact Hnew|].
    pose proof (strip_prefix_length _ _ _ E) as Hlen.
    apply strip_prefix_Some in E. apply IH.
    + simpl in Hlen |- *. lia.
    + rewrite E in Hs. exact (braces_open_wildcards_app _ _ Hs).
  - pose proof (braces_open_wildcards_tail _ _ Hs) as Htail.
    cbn [braces_open_wildcards] in Hs |- *.
    destruct (N.eqb_spec c c_lcurly) as [->|_]; [|apply IH; [simpl; lia | exact Htail]].
    destruct (wildcard_here (c_lcurly :: s)) as [[id rest]|] eqn:Ew; [|discriminate].
    pose proof (wildcard_here_consumes _ _ _ Ew) as Hlen.
    apply wildcard_here_Some in Ew as (Heq & Hne & Hid).
    assert (Hs' : s = (py "wildcard_" ++ id ++ py "}") ++ rest)
      by (apply (f_equal (@List.tl char)) in Heq; exact Heq).
    clear Heq. subst s.
    rewrite replace_plain by (apply token_plain; exact Hid).
    change (c_lcurly :: (py "wildcard_" ++ id ++ py "}") ++ ?x)
      with (token id ++ x).
    rewrite wildcard_here_token by assumption. cbn [andb].
    rewrite <- (replace_plain c_lcurly p new (py "wildcard_" ++ id ++ py "}"))
      by (apply token_plain; exact Hid).
    apply IH; [simpl; lia|]. exact Htail.
Qed.

Lemma pattern_of_name_brace name :
  exists p, pattern_of_name name = c_lcurly :: p.
Proof.
  unfold pattern_of_name. destruct (startswith (py "wildcard_") name); eexists; reflexivity.
Qed.

(** Values without an opening brace leave every opening brace of the
    text at the head of a placeholder. *)
Lemma apply_values_keeps_braces text (values : dict pystr) :
  braces_open_wildcards text = true ->
  forallb (fun kv => negb (contains c_lcurly (snd kv))) values = true ->
  braces_open_wildcards (apply_values text values) = true.
Proof.
  revert text. induction values as [|[name value] values IH]; intros text Ht Hv;
    cbn [apply_values]; [exact Ht|].
  cbn [forallb snd] in Hv. apply andb_prop in Hv as [Hval Hv].
  apply negb_true_iff in Hval.
  destruct (pattern_of_name_brace name) as [p ->].
  apply IH; [|exact Hv]. apply replace_keeps_braces; [|exact Ht].
  destruct value; [reflexivity | exact Hval].
Qed.
End Placeholders.

(** C4 as stated fails: deleting [{wildcard_a}] from
    [{wildcard_{wildcard_a}b}] brings the pieces of [{wildcard_b}]
    together, and the names were collected before. *)
Lemma blank_fill_can_form_placeholder :
  replace_wildcards (py "{wildcard_{wildcard_a}b}") [] = py "{wildcard_b}"
  /\ has_wildcard (replace_wildcards (py "{wildcard_{wildcard_a}b}") []) = true.
Proof. split; vm_compute; reflexivity. Qed.

(** C2 as stated fails: the value [{wildcard_b}] supplied for
    [{wildcard_a}] matches the placeholder pattern, and the output is
    empty. *)
Lemma injected_placeholder_is_erased :
  has_wildcard (py "{wildcard_b}") = true
  /\ replace_wildcards (py "{wildcard_a}") [(py "a", py "{wildcard_b}")] = []
  /\ is_infix (py "{wildcard_b}")
       (replace_wildcards (py "{wildcard_a}") [(py "a", py "{wildcard_b}")])
     = false.
Proof. repeat split; vm_compute; reflexivity. Qed.

(** ** Cleaning a prompt *)

Section Clean.
Implicit Types (s r w a b : pystr) (c d : char).

Lemma lstrip_suffix s : exists a, s = a ++ lstrip s.
Proof.
  induction s as [|c s [a IH]]; [exists []; reflexivity|].
  cbn [lstrip]. destruct (is_space c).
  - exists (c :: a). cbn [app]. f_equal. exact IH.
  - exists []. reflexivity.
Qed.

Lemma lstrip_length s : length (lstrip s) <= length s.
Proof.
  destruct (lstrip_suffix s) as [a H]. rewrite H at 2. rewrite length_app. lia.
Qed.

Lemma starts_space_lstrip s : starts_space (lstrip s) = false.
Proof.
  induction s as [|c s IH]; [reflexivity|]. cbn [lstrip].
  destruct (is_space c) eqn:E; [exact IH|]. cbn [starts_space]. exact E.
Qed.

Lemma lstrip_id s : starts_space s = false -> lstrip s = s.
Proof. destruct s as [|c s]; [reflexivity|]. cbn [starts_space lstrip]. intros ->. reflexivity. Qed.

Lemma rstrip_prefix s : exists b, s = rstrip s ++ b.
Proof.
  unfold rstrip. destruct (lstrip_suffix (rev s)) as [a H].
  exists (rev a). rewrite <- rev_app_distr, <- H, rev_involutive. reflexivity.
Qed.

Lemma rstrip_id_idem s : rstrip (rstrip s) = rstrip s.
Proof.
  unfold rstrip. rewrite rev_involutive.
  rewrite (lstrip_id (lstrip (rev s))) by apply starts_space_lstrip. reflexivity.
Qed.

Lemma starts_space_rstrip s : starts_space s = false -> starts_space (rstrip s) = false.
Proof.
  destruct s as [|c s]; [reflexivity|]. rewrite rstrip_cons.
  destruct (forallb is_space (c :: s)); [reflexivity|]. auto.
Qed.

Lemma strip_idem s : strip (strip s) = strip s.
Proof.
  unfold strip.
  rewrite (lstrip_id (rstrip (lstrip s))).
  - apply rstrip_id_idem.
  - apply starts_space_rstrip, starts_space_lstrip.
Qed.

(** *** Runs of spaces *)

Lemma skip_spaces_length s : length (skip_spaces s) <= length s.
Proof.
  induction s as [|c s IH]; [reflexivity|]. cbn [skip_spaces].
  destruct (c =? c_space)%N; simpl; lia.
Qed.

Lemma spaces_here_consumes s u rest :
  spaces_here s = Some (u, rest) -> length rest < length s.
Proof.
  destruct s as [|c s]; [discriminate|]. cbn [spaces_here].
  destruct (c =? c_space)%N; [|discriminate]. intros [= _ <-].
  pose proof (skip_spaces_length s). simpl. lia.
Qed.

Lemma collapse_cons c s :
  collapse (c :: s) =
  if (c =? c_space)%N then c_space :: collapse (skip_spaces s)
  else c :: collapse s.
Proof.
  unfold collapse. rewrite (sub_cons _ spaces_here_consumes).
  cbn [spaces_here]. destruct (c =? c_space)%N; reflexivity.
Qed.

Lemma head_is_skip_spaces s : head_is c_space (skip_spaces s) = false.
Proof.
  induction s as [|c s IH]; [reflexivity|]. cbn [skip_spaces].
  destruct (c =? c_space)%N eqn:E; [exact IH|]. cbn [head_is]. exact E.
Qed.

Lemma skip_spaces_id s : head_is c_space s = false -> skip_spaces s = s.
Proof. destruct s as [|c s]; [reflexivity|]. cbn [head_is skip_spaces]. intros ->. reflexivity. Qed.

Lemma head_is_collapse c s : head_is c (collapse s) = head_is c s.
Proof.
  destruct s as [|d s]; [reflexivity|]. rewrite collapse_cons.
  destruct (N.eqb_spec d c_space) as [->|]; reflexivity.
Qed.

Lemma single_spaced_collapse s : single_spaced (collapse s) = true.
Proof.
  induction s as [s IH] using by_length.
  destruct s as [|c s]; [reflexivity|]. rewrite collapse_cons.
  destruct (N.eqb_spec c c_space) as [->|Hc].
  - cbn [single_spaced]. rewrite head_is_collapse, head_is_skip_spaces.
    rewrite andb_false_r. cbn [negb andb]. apply IH.
    pose proof (skip_spaces_length s). simpl. lia.
  - cbn [single_spaced]. apply N.eqb_neq in Hc. rewrite Hc. cbn [negb andb].
    apply IH. simpl. lia.
Qed.

Lemma collapse_single_spaced s : single_spaced s = true -> collapse s = s.
Proof.
  induction s as [|c s IH]; [reflexivity|]. cbn [single_spaced].
  intros H. apply andb_prop in H as [Hc Hs]. rewrite collapse_cons.
  destruct (N.eqb_spec c c_space) as [->|_].
  - cbn [andb] in Hc. apply negb_true_iff in Hc.
    rewrite (skip_spaces_id s Hc), (IH Hs). reflexivity.
  - rewrite (IH Hs). reflexivity.
Qed.

Lemma single_spaced_app a b :
  single_spaced (a ++ b) = true -> single_spaced a = true /\ single_spaced b = true.
Proof.
  induction a as [|c a IH]; [intros H; split; [reflexivity | exact H]|].
  cbn [app single_spaced]. intros H. apply andb_prop in H as [Hc Hs].
  destruct (IH Hs) as [Ha Hb]. split; [|exact Hb]. rewrite Ha, andb_true_r.
  destruct (c =? c_space)%N; [|reflexivity]. cbn [andb] in *.
  destruct a as [|d a]; [reflexivity | exact Hc].
Qed.

Lemma single_spaced_lstrip s : single_spaced s = true -> single_spaced (lstrip s) = true.
Proof.
  destruct (lstrip_suffix s) as [a H]. rewrite H at 1.
  intros Hs. apply single_spaced_app in Hs. tauto.
Qed.

Lemma single_spaced_rstrip s : single_spaced s = true -> single_spaced (rstrip s) = true.
Proof.
  destruct (rstrip_prefix s) as [b H]. rewrite H at 1.
  intros Hs. apply single_spaced_app in Hs. tauto.
Qed.

Lemma single_spaced_strip s : single_spaced s = true -> single_spaced (strip s) = true.
Proof. intros H. apply single_spaced_rstrip, single_spaced_lstrip, H. Qed.

Lemma single_spaced_removelast s :
  single_spaced s = true -> single_spaced (removelast s) = true.
Proof.
  destruct s as [|c s]; [auto|].
  rewrite (app_removelast_last c (l := c :: s)) at 1 by discriminate.
  intros Hs. apply single_spaced_app in Hs. tauto.
Qed.

(** *** Commas *)

Lemma comma_here_next s :
  comma_here s =
  if next_is_comma s then Some (tt, lstrip (List.tl (lstrip s))) else None.
Proof.
  unfold comma_here, next_is_comma. destruct (lstrip s) as [|c r]; [reflexivity|].
  cbn [head_is List.tl]. destruct (c =? c_comma)%N; reflexivity.
Qed.

Lemma comma_here_consumes s u rest :
  comma_here s = Some (u, rest) -> length rest < length s.
Proof.
  unfold comma_here. pose proof (lstrip_length s) as Hs.
  destruct (lstrip s) as [|c r]; [discriminate|].
  destruct (c =? c_comma)%N; [|discriminate]. intros [= _ <-].
  pose proof (lstrip_length r). simpl in Hs. lia.
Qed.

Lemma commas_cons c s :
  commas (c :: s) =
  if next_is_comma (c :: s)
  then c_comma :: c_space :: commas (lstrip (List.tl (lstrip (c :: s))))
  else c :: commas s.
Proof.
  unfold commas. rewrite (sub_cons _ comma_here_consumes), comma_here_next.
  destruct (next_is_comma (c :: s)); reflexivity.
Qed.

(** The text after a match is a part of the text. *)
Lemma after_comma_suffix s : exists a, s = a ++ lstrip (List.tl (lstrip s)).
Proof.
  destruct (lstrip_suffix s) as [a Ha].
  destruct (lstrip s) as [|c r] eqn:E.
  - exists s. cbn. rewrite app_nil_r. reflexivity.
  - cbn [List.tl]. destruct (lstrip_suffix r) as [a' Ha'].
    exists (a ++ c :: a'). rewrite Ha, Ha' at 1. rewrite <- app_assoc. reflexivity.
Qed.

Lemma next_is_comma_cons c s :
  next_is_comma (c :: s) = if is_space c then next_is_comma s else (c =? c_comma)%N.
Proof. unfold next_is_comma. cbn [lstrip]. destruct (is_space c); reflexivity. Qed.

Lemma next_is_comma_commas s : next_is_comma (commas s) = next_is_comma s.
Proof.
  induction s as [|c s IH]; [reflexivity|]. rewrite commas_cons.
  destruct (next_is_comma (c :: s)) eqn:E; [reflexivity|].
  rewrite next_is_comma_cons in *. destruct (is_space c); [|exact E].
  rewrite IH. exact E.
Qed.

(** The substitution begins with a comma or with the first character of
    the text. *)
Lemma head_commas s :
  (next_is_comma s = true /\ head_is c_comma (commas s) = true)
  \/ (next_is_comma s = false /\ forall c, head_is c (commas s) = head_is c s).
Proof.
  destruct s as [|c s]; [right; split; reflexivity|]. rewrite commas_cons.
  destruct (next_is_comma (c :: s)); [left | right]; split; reflexivity.
Qed.

Lemma starts_space_commas s : starts_space s = false -> starts_space (commas s) = false.
Proof.
  destruct s as [|c s]; [reflexivity|]. rewrite commas_cons.
  destruct (next_is_comma (c :: s)); [reflexivity | auto].
Qed.

Lemma single_spaced_commas s :
  single_spaced s = true -> single_spaced (commas s) = true.
Proof.
  induction s as [s IH] using by_length. intros Hs.
  destruct s as [|c s]; [reflexivity|]. rewrite commas_cons.
  destruct (next_is_comma (c :: s)) eqn:E.
  - set (rest := lstrip (List.tl (lstrip (c :: s)))).
    assert (Hrest : single_spaced (commas rest) = true).
    { apply IH.
      - pose proof (comma_here_consumes (c :: s) tt rest) as Hlen.
        apply Hlen. rewrite comma_here_next, E. reflexivity.
      - destruct (after_comma_suffix (c :: s)) as [a Ha]. fold rest in Ha.
        rewrite Ha in Hs. apply single_spaced_app in Hs. tauto. }
    cbn [single_spaced]. rewrite Hrest.
    change (c_comma =? c_space)%N with false. cbn [andb negb].
    assert (Hh : head_is c_space (commas rest) = false).
    { assert (Hsp : starts_space (commas rest) = false)
        by (apply starts_space_commas; subst rest; apply starts_space_lstrip).
      destruct (commas rest) as [|d r]; [reflexivity|].
      cbn [head_is starts_space] in *.
      destruct (N.eqb_spec d c_space) as [->|]; [discriminate | reflexivity]. }
    rewrite Hh. rewrite N.eqb_refl. reflexivity.
  - cbn [single_spaced] in *. apply andb_prop in Hs as [Hc Hs].
    rewrite IH by (simpl; lia || exact Hs). rewrite andb_true_r.
    destruct (c =? c_space)%N; [|reflexivity]. cbn [andb] in *.
    destruct (head_commas s) as [[_ Hh]|[_ Hh]].
    + destruct (commas s) as [|d r]; [reflexivity|]. cbn [head_is] in *.
      apply N.eqb_eq in Hh. subst d. reflexivity.
    + rewrite Hh. exact Hc.
Qed.

Lemma comma_normal_commas s : comma_normal (commas s).
Proof.
  induction s as [s IH] using by_length.
  destruct s as [|c s]; [constructor|]. rewrite commas_cons.
  destruct (next_is_comma (c :: s)) eqn:E.
  - set (rest := lstrip (List.tl (lstrip (c :: s)))).
    apply cn_sep.
    + apply starts_space_commas. subst rest. apply starts_space_lstrip.
    + apply IH. apply (comma_here_consumes (c :: s) tt rest).
      rewrite comma_here_next, E. reflexivity.
  - apply cn_lit; [|apply IH; simpl; lia].
    rewrite next_is_comma_cons in *. destruct (is_space c); [|exact E].
    rewrite next_is_comma_commas. exact E.
Qed.

Lemma commas_comma_normal s : comma_normal s -> commas s = s.
Proof.
  induction 1 as [|c r Hc _ IH|r Hr _ IH]; [reflexivity| |].
  - rewrite commas_cons, Hc, IH. reflexivity.
  - rewrite commas_cons. rewrite next_is_comma_cons.
    change (is_space c_comma) with false. rewrite N.eqb_refl.
    cbn [lstrip]. change (is_space c_comma) with false. cbn [List.tl lstrip].
    change (is_space c_space) with true. cbn iota.
    rewrite (lstrip_id r Hr), IH. reflexivity.
Qed.

Lemma comma_normal_lstrip s : comma_normal s -> comma_normal (lstrip s).
Proof.
  induction 1 as [|c r Hc Hr IH|r Hr Hn IH]; [constructor| |].
  - cbn [lstrip]. destruct (is_space c); [exact IH | constructor; assumption].
  - cbn [lstrip]. change (is_space c_comma) with false. constructor; assumption.
Qed.

(** *** The end of the text *)

Lemma endswith_cons c d s :
  endswith c (d :: s) = match s with [] => (d =? c)%N | _ :: _ => endswith c s end.
Proof.
  unfold endswith. destruct s as [|e s] using rev_ind; [reflexivity|].
  change (d :: s ++ [e]) with ((d :: s) ++ [e]). rewrite !rev_unit.
  destruct (s ++ [e]) eqn:E; [destruct s; discriminate | reflexivity].
Qed.

Lemma endswith_last c s :
  endswith c s = true -> s = removelast s ++ [c].
Proof.
  unfold endswith. destruct s as [|e s] using rev_ind; [discriminate|].
  rewrite rev_unit, removelast_last. intros H. apply N.eqb_eq in H. subst e. reflexivity.
Qed.

Lemma next_is_comma_app a b :
  forallb is_space a = false -> next_is_comma (a ++ b) = next_is_comma a.
Proof.
  intros H. unfold next_is_comma. rewrite lstrip_app, H.
  destruct (lstrip a) as [|c r] eqn:E; [|reflexivity].
  rewrite <- forallb_lstrip, E in H. discriminate.
Qed.

Lemma next_is_comma_rstrip a :
  forallb is_space a = false -> next_is_comma (rstrip a) = next_is_comma a.
Proof.
  intros H. destruct (rstrip_prefix a) as [b Hb]. rewrite Hb at 2.
  rewrite next_is_comma_app; [reflexivity|]. rewrite forallb_rstrip. exact H.
Qed.

(** A text in normal form, cut anywhere and stripped on the right, is in
    normal form again unless the cut leaves a comma at its end. *)
Lemma comma_normal_rstrip_prefix s :
  comma_normal s -> forall a b, s = a ++ b ->
  endswith c_comma (rstrip a) = false -> comma_normal (rstrip a).
Proof.
  induction 1 as [|c r Hc Hr IH|r Hr Hn IH]; intros a b Heq Hend.
  - destruct a; [constructor | discriminate].
  - destruct a as [|c' a]; [constructor|]. injection Heq as <- ->.
    rewrite rstrip_cons in *.
    destruct (forallb is_space (c :: a)) eqn:Hall; [constructor|].
    assert (Hra : comma_normal (rstrip a)).
    { destruct (rstrip a) as [|e l] eqn:E; [constructor|]. rewrite <- E.
      apply (IH a b eq_refl). rewrite endswith_cons in Hend. rewrite E. exact Hend. }
    apply cn_lit; [|exact Hra].
    rewrite next_is_comma_cons in *. destruct (is_space c) eqn:Ec; [|exact Hc].
    cbn [forallb] in Hall. rewrite Ec in Hall. cbn [andb] in Hall.
    rewrite next_is_comma_rstrip by exact Hall.
    rewrite next_is_comma_app in Hc by exact Hall. exact Hc.
  - destruct a as [|c' a]; [constructor|]. injection Heq as <- Heq.
    destruct a as [|c'' a].
    { exfalso. revert Hend. vm_compute. discriminate. }
    injection Heq as <- ->.
    rewrite (rstrip_cons c_comma) in *. cbn [forallb] in Hend |- *.
    change (is_space c_comma) with false in *. cbn [andb] in Hend |- *.
    rewrite (rstrip_cons c_space) in *. cbn [forallb] in Hend |- *.
    change (is_space c_space) with true in *. cbn [andb] in Hend |- *.
    destruct (forallb is_space a) eqn:Hall.
    { exfalso. revert Hend. vm_compute. discriminate. }
    assert (Hsp : starts_space (rstrip a) = false).
    { destruct a as [|e a]; [discriminate|]. cbn [app starts_space] in Hr.
      rewrite rstrip_cons, Hall. cbn [starts_space]. exact Hr. }
    apply cn_sep; [exact Hsp|].
    apply (IH a b eq_refl).
    rewrite !endswith_cons in Hend.
    destruct (rstrip a) as [|e l] eqn:E; [reflexivity | exact Hend].
Qed.

Lemma clean_prompt_nil : clean_prompt [] = [].
Proof. reflexivity. Qed.

(** A text with single spaces, normal commas, no white space at its ends
    and no comma at its end is left as it is. *)
Lemma clean_prompt_fixed s :
  single_spaced s = true -> comma_normal s -> strip s = s ->
  endswith c_comma s = false -> clean_prompt s = s.
Proof.
  intros Hs Hn Hstrip Hend. unfold clean_prompt.
  destruct s as [|c s]; [reflexivity|]. cbn [truthy negb].
  fold (collapse (c :: s)). rewrite (collapse_single_spaced _ Hs).
  fold (commas (c :: s)). rewrite (commas_comma_normal _ Hn).
  rewrite Hstrip, Hend. reflexivity.
Qed.
End Clean.

(** [clean_prompt] takes one comma from the end of the text, so cleaning
    again changes nothing when the cleaned text does not end with a
    comma. *)
Lemma clean_prompt_idempotent_without_trailing_comma (x : pystr) :
  endswith c_comma (clean_prompt x) = false ->
  clean_prompt (clean_prompt x) = clean_prompt x.
Proof.
  intros Hend. destruct x as [|c x]; [reflexivity|].
  unfold clean_prompt in Hend |- * at 2 3. cbn [truthy negb] in *.
  fold (collapse (c :: x)) in *. fold (commas (collapse (c :: x))) in *.
  set (z := commas (collapse (c :: x))) in *.
  assert (Hz1 : single_spaced z = true)
    by apply single_spaced_commas, single_spaced_collapse.
  assert (Hz2 : comma_normal (lstrip z))
    by apply comma_normal_lstrip, comma_normal_commas.
  destruct (endswith c_comma (strip z)) eqn:Et.
  - (* one comma is taken from the end *)
    set (a := removelast (strip z)) in *.
    destruct (forallb is_space a) eqn:Ha.
    { rewrite (strip_blank a Ha). reflexivity. }
    apply clean_prompt_fixed; [| |apply strip_idem|exact Hend].
    + apply single_spaced_strip, single_spaced_removelast, single_spaced_strip, Hz1.
    + destruct (rstrip_prefix (lstrip z)) as [ws Hws].
      fold (strip z) in Hws. rewrite (endswith_last _ _ Et) in Hws. fold a in Hws.
      rewrite Hws in Hz2. apply comma_normal_lstrip in Hz2.
      rewrite <- app_assoc, lstrip_app, Ha in Hz2.
      exact (comma_normal_rstrip_prefix _ Hz2 _ _ eq_refl Hend).
  - apply clean_prompt_fixed; [| |apply strip_idem|exact Et].
    + apply single_spaced_strip, Hz1.
    + destruct (rstrip_prefix (lstrip z)) as [ws Hws].
      exact (comma_normal_rstrip_prefix _ Hz2 _ [] (eq_sym (app_nil_r _)) Et).
Qed.

(** ** The wildcard node *)

Section Node.
Implicit Types (values : list pystr) (sigma : gmap pystr Z).

Lemma process_nonempty text values mode i uid choice sigma :
  parse_value_list text = values -> values <> [] ->
  process text mode i uid choice sigma = select values mode i uid choice sigma.
Proof.
  intros <- Hne. unfold process.
  destruct (parse_value_list text); [congruence | reflexivity].
Qed.

Lemma getitem_in_range {A : Type} (l : list A) (i : Z) :
  (0 <= i < Z.of_nat (length l))%Z ->
  exists v, nth_error l (Z.to_nat i) = Some v /\ getitem l i = Some v.
Proof.
  intros Hi. unfold getitem.
  destruct (Z.ltb_spec i 0) as [?|_]; [lia|].
  destruct (Z.leb_spec 0 i) as [_|?]; [|lia].
  destruct (Z.ltb_spec i (Z.of_nat (length l))) as [_|?]; [|lia].
  simpl. destruct (nth_error l (Z.to_nat i)) as [v|] eqn:E.
  - exists v. split; reflexivity.
  - apply nth_error_None in E. lia.
Qed.

Lemma select_fixed values i uid choice sigma :
  values <> [] ->
  exists v,
    nth_error values
      (Z.to_nat (clamp i 0 (Z.of_nat (length values) - 1))) = Some v /\
    select values (py "fixed") i uid choice sigma = (Some v, sigma).
Proof.
  intros Hne.
  assert (Hlen : (0 < Z.of_nat (length values))%Z).
  { destruct values; [congruence | simpl; lia]. }
  assert (Hc : clamp i 0 (Z.of_nat (length values) - 1)
               = Z.max 0 (Z.min i (Z.of_nat (length values) - 1))).
  { unfold clamp. destruct (Z.ltb_spec i 0), (Z.ltb_spec (Z.of_nat (length values) - 1) i); lia. }
  destruct (getitem_in_range values (Z.max 0 (Z.min i (Z.of_nat (length values) - 1))))
    as (v & Hv & Hg); [lia|].
  exists v. rewrite Hc. split; [exact Hv|].
  unfold select. change (pystr_eqb (py "fixed") (py "list (csv)")) with false.
  change (pystr_eqb (py "fixed") (py "dynamic_prompts")) with false.
  change (pystr_eqb (py "fixed") (py "fixed")) with true.
  cbv iota. rewrite Hg. reflexivity.
Qed.

(** One sequential selection: the element under the cursor, reduced
    modulo the length, and the cursor after it. *)
Lemma select_sequential values i uid choice sigma :
  values <> [] ->
  let len := Z.of_nat (length values) in
  let cursor := default 0%Z (sigma !! node_key uid) in
  exists v,
    nth_error values (Z.to_nat (cursor mod len)) = Some v /\
    select values (py "sequential") i uid choice sigma =
      (Some v, <[node_key uid := ((cursor mod len + 1) mod len)%Z]> sigma).
Proof.
  intros Hne len cursor.
  assert (Hlen : (0 < len)%Z).
  { subst len. destruct values; [congruence | simpl; lia]. }
  destruct (getitem_in_range values (cursor mod len)) as (v & Hv & Hg).
  { apply Z.mod_pos_bound. exact Hlen. }
  exists v. split; [exact Hv|].
  unfold select. change (pystr_eqb (py "sequential") (py "list (csv)")) with false.
  change (pystr_eqb (py "sequential") (py "dynamic_prompts")) with false.
  change (pystr_eqb (py "sequential") (py "fixed")) with false.
  change (pystr_eqb (py "sequential") (py "sequential")) with true.
  cbv iota. fold len. subst cursor.
  destruct (sigma !! node_key uid) as [c|] eqn:E; simpl in *.
  - rewrite E. rewrite Hg. reflexivity.
  - rewrite lookup_insert_eq. rewrite Hg.
    rewrite insert_insert_eq. reflexivity.
Qed.
End Node.

(** C7.  Sequential selection is a round-robin per key: with a fresh key
    and a text that parses to the three values [x; y; z], four successive
    sequential calls of [process] return [x], [y], [z], [x], and after
    [reset_sequential_index] the next call returns [x]. *)
Theorem sequential_round_robin
    (text uid x y z : pystr) (i1 i2 i3 i4 i5 : Z) (c1 c2 c3 c4 c5 : nat)
    (sigma : gmap pystr Z) :
  parse_value_list text = [x; y; z] ->
  sigma !! node_key uid = None ->
  let seq := py "sequential" in
  let '(r1, s1) := process text seq i1 uid c1 sigma in
  let '(r2, s2) := process text seq i2 uid c2 s1 in
  let '(r3, s3) := process text seq i3 uid c3 s2 in
  let '(r4, s4) := process text seq i4 uid c4 s3 in
  let '(r5, _) := process text seq i5 uid c5 (reset_sequential_index uid s4) in
  r1 = Some x /\ r2 = Some y /\ r3 = Some z /\ r4 = Some x /\ r5 = Some x.
Proof.
  intros Hparse Hfresh seq.
  assert (Hne : [x; y; z] <> []) by discriminate.
  assert (Hstep : forall i c (s : gmap pystr Z) (k : Z),
             s !! node_key uid = Some k -> (0 <= k < 3)%Z ->
             process text seq i uid c s =
               (nth_error [x; y; z] (Z.to_nat k),
                <[node_key uid := ((k + 1) mod 3)%Z]> s)).
  { intros i c s k Hk Hr.
    rewrite (process_nonempty _ _ _ _ _ _ _ Hparse Hne).
    destruct (select_sequential [x; y; z] i uid c s Hne) as (v & Hv & Hs).
    rewrite Hk in Hv, Hs.
    change (default 0%Z (Some k)) with k in Hv, Hs.
    change (Z.of_nat (length [x; y; z])) with 3%Z in Hv, Hs.
    rewrite (Z.mod_small k 3) in Hv, Hs by lia.
    fold seq in Hs. rewrite Hs, Hv. reflexivity. }
  rewrite (process_nonempty _ _ _ _ _ _ _ Hparse Hne).
  destruct (select_sequential [x; y; z] i1 uid c1 sigma Hne) as (v & Hv & Hs).
  rewrite Hfresh in Hv, Hs.
  change (default 0%Z None) with 0%Z in Hv, Hs.
  change (Z.of_nat (length [x; y; z])) with 3%Z in Hv, Hs.
  change ((0 mod 3 + 1) mod 3)%Z with 1%Z in Hs.
  fold seq in Hs. rewrite Hs. injection Hv as <-.
  rewrite (Hstep i2 c2 _ 1%Z); [|apply lookup_insert_eq|lia].
  change ((1 + 1) mod 3)%Z with 2%Z.
  rewrite (Hstep i3 c3 _ 2%Z); [|apply lookup_insert_eq|lia].
  change ((2 + 1) mod 3)%Z with 0%Z.
  rewrite (Hstep i4 c4 _ 0%Z); [|apply lookup_insert_eq|lia].
  unfold reset_sequential_index. rewrite lookup_insert_eq.
  rewrite (Hstep i5 c5 _ 0%Z); [|apply lookup_insert_eq|lia].
  simpl. repeat split; reflexivity.
Qed.

Lemma sequential_round_robin_witness :
  let text := py "x,y,z" in
  let seq := py "sequential" in
  let uid := py "12" in
  let '(r1, s1) := process text seq 0 uid 0 ∅ in
  let '(r2, s2) := process text seq 0 uid 0 s1 in
  let '(r3, s3) := process text seq 0 uid 0 s2 in
  let '(r4, s4) := process text seq 0 uid 0 s3 in
  let '(r5, _) := process text seq 0 uid 0 (reset_sequential_index uid s4) in
  r1 = Some (py "x") /\ r2 = Some (py "y") /\ r3 = Some (py "z")
  /\ r4 = Some (py "x") /\ r5 = Some (py "x").
Proof.
  apply (sequential_round_robin (py "x,y,z") (py "12") (py "x") (py "y") (py "z")
           0 0 0 0 0 0 0 0 0 0 ∅).
  - vm_compute. reflexivity.
  - apply lookup_empty.
Defined.

(** C8.  Fixed mode returns the element at
    [clamp(requestedIndex, 0, len(values) - 1)] for every non-empty value
    list and every integer index; the access never raises. *)
Theorem fixed_index_is_clamped
    (values : list pystr) (fixed_index : Z) (uid : pystr) (choice : nat)
    (sigma : gmap pystr Z) :
  values <> [] ->
  exists v,
    nth_error values
      (Z.to_nat (clamp fixed_index 0 (Z.of_nat (length values) - 1))) = Some v
    /\ select values (py "fixed") fixed_index uid choice sigma = (Some v, sigma)
    /\ forall text, parse_value_list text = values ->
         process text (py "fixed") fixed_index uid choice sigma = (Some v, sigma).
Proof.
  intros Hne.
  destruct (select_fixed values fixed_index uid choice sigma Hne) as (v & Hv & Hs).
  exists v. repeat split; [exact Hv | exact Hs |].
  intros text Ht. rewrite (process_nonempty _ _ _ _ _ _ _ Ht Hne). exact Hs.
Qed.

Lemma fixed_index_is_clamped_witness :
  exists v,
    nth_error [py "x"; py "y"; py "z"] (Z.to_nat (clamp (-5) 0 (3 - 1))) = Some v
    /\ select [py "x"; py "y"; py "z"] (py "fixed") (-5) (py "12") 0 ∅ = (Some v, ∅)
    /\ forall text, parse_value_list text = [py "x"; py "y"; py "z"] ->
         process text (py "fixed") (-5) (py "12") 0 ∅ = (Some v, ∅).
Proof.
  apply (fixed_index_is_clamped [py "x"; py "y"; py "z"] (-5) (py "12") 0 ∅).
  discriminate.
Defined.

(** C9.  A text whose parsed value list is empty, as that of an empty or
    white-space-only text is, makes [process] return the empty string in
    every output mode, with the cursors unchanged. *)
Theorem empty_list_short_circuits
    (text mode : pystr) (fixed_index : Z) (uid : pystr) (choice : nat)
    (sigma : gmap pystr Z) :
  (forallb is_space text = true -> parse_value_list text = [])
  /\ (parse_value_list text = [] ->
      process text mode fixed_index uid choice sigma = (Some [], sigma)).
Proof.
  split.
  - intros Hblank. unfold parse_value_list.
    assert (Hl : lstrip text = []).
    { induction text as [|c r IH]; [reflexivity|].
      simpl in *. apply andb_prop in Hblank as [-> Hr]. auto. }
    unfold strip. rewrite Hl. simpl. rewrite orb_true_r. reflexivity.
  - intros Hnil. unfold process. rewrite Hnil. reflexivity.
Qed.

Lemma empty_list_short_circuits_witness :
  process (py "   ") (py "sequential") 0 (py "12") 0 {[ py "wildcard_12" := 2%Z ]}
  = (Some [], {[ py "wildcard_12" := 2%Z ]}).
Proof.
  destruct (empty_list_short_circuits (py "   ") (py "sequential") 0 (py "12") 0
              {[ py "wildcard_12" := 2%Z ]}) as [Hblank Hempty].
  apply Hempty, Hblank. reflexivity.
Defined.

(** C10.  After a sequential-mode call over a non-empty value list of
    length [n] the cursor stored under the node's key lies in [0, n). *)
Theorem sequential_cursor_in_range
    (values : list pystr) (fixed_index : Z) (uid : pystr) (choice : nat)
    (sigma : gmap pystr Z) :
  values <> [] ->
  exists cursor,
    (0 <= cursor < Z.of_nat (length values))%Z
    /\ cursor = ((default 0 (sigma !! node_key uid) mod Z.of_nat (length values) + 1)
                 mod Z.of_nat (length values))%Z
    /\ snd (select values (py "sequential") fixed_index uid choice sigma)
         !! node_key uid = Some cursor
    /\ forall text, parse_value_list text = values ->
         snd (process text (py "sequential") fixed_index uid choice sigma)
           !! node_key uid = Some cursor.
Proof.
  intros Hne.
  destruct (select_sequential values fixed_index uid choice sigma Hne)
    as (v & _ & Hs).
  assert (Hlen : (0 < Z.of_nat (length values))%Z).
  { destruct values; [congruence | simpl; lia]. }
  eexists. split; [|split; [reflexivity|split]].
  2: { rewrite Hs. simpl. apply lookup_insert_eq. }
  - apply Z.mod_pos_bound. exact Hlen.
  - intros text Ht. rewrite (process_nonempty _ _ _ _ _ _ _ Ht Hne).
    rewrite Hs. simpl. apply lookup_insert_eq.
Qed.

Lemma sequential_cursor_in_range_witness :
  exists cursor,
    (0 <= cursor < 2)%Z
    /\ cursor = ((default 0 (({[ py "wildcard_12" := 7%Z ]} : gmap pystr Z)
                               !! node_key (py "12"))
                  mod 2 + 1) mod 2)%Z
    /\ snd (select [py "x"; py "y"] (py "sequential") 0 (py "12") 0
              {[ py "wildcard_12" := 7%Z ]})
         !! node_key (py "12") = Some cursor
    /\ forall text, parse_value_list text = [py "x"; py "y"] ->
         snd (process text (py "sequential") 0 (py "12") 0
                {[ py "wildcard_12" := 7%Z ]})
           !! node_key (py "12") = Some cursor.
Proof.
  apply (sequential_cursor_in_range [py "x"; py "y"] 0 (py "12") 0
           {[ py "wildcard_12" := 7%Z ]}).
  discriminate.
Defined.

(** * Further properties of the code *)

(** ** The wildcard node: cursors *)

Section Cursors.
Implicit Types (values : list pystr) (sigma : gmap pystr Z).

Lemma process_sequential text values i uid choice sigma :
  parse_value_list text = values -> values <> [] ->
  let n := Z.of_nat (length values) in
  let cursor := default 0%Z (sigma !! node_key uid) in
  process text (py "sequential") i uid choice sigma =
    (nth_error values (Z.to_nat (cursor mod n)),
     <[node_key uid := ((cursor + 1) mod n)%Z]> sigma).
Proof.
  intros Ht Hne n cursor.
  rewrite (process_nonempty _ _ _ _ _ _ _ Ht Hne).
  destruct (select_sequential values i uid choice sigma Hne) as (v & Hv & Hs).
  fold n cursor in Hv, Hs. rewrite Hs, Hv.
  rewrite Zplus_mod_idemp_l. reflexivity.
Qed.
End Cursors.

(** X1.  Sequential selection is a round-robin from wherever the cursor
    stands: the [j]-th of any number of successive calls returns the value
    at index [(cursor + j) mod n], for a stored cursor of any size and 0
    for a node not seen before. *)
Theorem sequential_calls_cycle
    (text uid : pystr) (values : list pystr) (fixed_index : Z) (choice : nat)
    (sigma : gmap pystr Z) (k : nat) :
  parse_value_list text = values -> values <> [] ->
  let n := Z.of_nat (length values) in
  let cursor := default 0%Z (sigma !! node_key uid) in
  fst (sequential_calls k text uid fixed_index choice sigma) =
  List.map (fun j => nth_error values (Z.to_nat ((cursor + Z.of_nat j) mod n)))
    (seq 0 k).
Proof.
  intros Ht Hne n. revert sigma. induction k as [|k IH]; intros sigma cursor.
  - reflexivity.
  - cbn [sequential_calls].
    rewrite (process_sequential text values _ _ _ _ Ht Hne). fold n cursor.
    specialize (IH (<[node_key uid := ((cursor + 1) mod n)%Z]> sigma)).
    destruct (sequential_calls k text uid fixed_index choice
                (<[node_key uid := ((cursor + 1) mod n)%Z]> sigma)) as [rs s2].
    cbn [fst] in *. rewrite IH. cbn [seq List.map].
    rewrite Z.add_0_r. f_equal.
    rewrite <- seq_shift, List.map_map. apply List.map_ext. intros j.
    rewrite lookup_insert_eq.
    change (default 0%Z (Some ((cursor + 1) mod n)%Z)) with ((cursor + 1) mod n)%Z.
    rewrite Zplus_mod_idemp_l. do 3 f_equal. lia.
Qed.

Lemma sequential_calls_cycle_witness :
  fst (sequential_calls 5 (py "x,y,z") (py "12") 0 0 {[ py "wildcard_12" := 7%Z ]})
  = List.map
      (fun j => nth_error [py "x"; py "y"; py "z"]
                  (Z.to_nat ((default 0%Z
                                (({[ py "wildcard_12" := 7%Z ]} : gmap pystr Z)
                                   !! node_key (py "12"))
                              + Z.of_nat j) mod 3)))
      (seq 0 5).
Proof.
  apply (sequential_calls_cycle (py "x,y,z") (py "12") [py "x"; py "y"; py "z"]
           0 0 {[ py "wildcard_12" := 7%Z ]} 5).
  - vm_compute. reflexivity.
  - discriminate.
Defined.

(** X2.  [process] writes no cursor but that of its own node, and none at
    all outside of the sequential mode. *)
Theorem process_frames_cursors
    (text mode uid key : pystr) (fixed_index : Z) (choice : nat)
    (sigma : gmap pystr Z) :
  mode <> py "sequential" \/ key <> node_key uid ->
  snd (process text mode fixed_index uid choice sigma) !! key = sigma !! key.
Proof.
  intros Hor. unfold process.
  destruct (parse_value_list text) as [|v vs] eqn:Ht; [reflexivity|].
  unfold select.
  destruct (pystr_eqb mode (py "list (csv)")); [reflexivity|].
  destruct (pystr_eqb mode (py "dynamic_prompts")); [reflexivity|].
  destruct (pystr_eqb mode (py "fixed")); [reflexivity|].
  unfold pystr_eqb. destruct (decide (mode = py "sequential")) as [Hm|Hm].
  - destruct Hor as [Hor|Hkey]; [congruence|].
    rewrite bool_decide_true by exact Hm.
    destruct (sigma !! node_key uid) as [c|] eqn:E.
    + rewrite E.
      destruct (getitem (v :: vs) (c mod Z.of_nat (length (v :: vs)))); cbn [snd];
        [|reflexivity].
      apply lookup_insert_ne. congruence.
    + rewrite lookup_insert_eq.
      destruct (getitem (v :: vs) (0 mod Z.of_nat (length (v :: vs)))); cbn [snd].
      * rewrite !lookup_insert_ne by congruence. reflexivity.
      * rewrite lookup_insert_ne by congruence. reflexivity.
  - rewrite bool_decide_false by exact Hm. reflexivity.
Qed.

Lemma process_frames_cursors_witness :
  snd (process (py "x,y,z") (py "sequential") 0 (py "12") 0
         {[ py "wildcard_7" := 2%Z ]}) !! py "wildcard_7"
  = ({[ py "wildcard_7" := 2%Z ]} : gmap pystr Z) !! py "wildcard_7".
Proof.
  apply (process_frames_cursors (py "x,y,z") (py "sequential") (py "12")
           (py "wildcard_7") 0 0 {[ py "wildcard_7" := 2%Z ]}).
  right. vm_compute. discriminate.
Defined.

(** X3.  After [reset_sequential_index] for the node, or
    [reset_all_sequential_indices], the next sequential call returns the
    first value, whatever the cursors were, and a reset of a node that was
    never seen leaves the cursors as they are. *)
Theorem reset_restarts_sequence
    (text uid : pystr) (v : pystr) (vs : list pystr) (fixed_index : Z)
    (choice : nat) (sigma : gmap pystr Z) :
  parse_value_list text = v :: vs ->
  fst (process text (py "sequential") fixed_index uid choice
         (reset_sequential_index uid sigma)) = Some v
  /\ fst (process text (py "sequential") fixed_index uid choice
            (reset_all_sequential_indices sigma)) = Some v
  /\ (sigma !! node_key uid = None -> reset_sequential_index uid sigma = sigma).
Proof.
  intros Ht. assert (Hne : v :: vs <> []) by discriminate.
  assert (Hlen : (0 < Z.of_nat (length (v :: vs)))%Z) by (simpl; lia).
  split; [|split].
  - rewrite (process_sequential text _ _ _ _ _ Ht Hne). cbn [fst].
    replace (default 0%Z (reset_sequential_index uid sigma !! node_key uid)) with 0%Z.
    + rewrite Z.mod_0_l by lia. reflexivity.
    + unfold reset_sequential_index.
      destruct (sigma !! node_key uid) eqn:E;
        [rewrite lookup_insert_eq | rewrite E]; reflexivity.
  - rewrite (process_sequential text _ _ _ _ _ Ht Hne). cbn [fst].
    unfold reset_all_sequential_indices. rewrite lookup_empty. cbn [default].
    rewrite Z.mod_0_l by lia. reflexivity.
  - intros E. unfold reset_sequential_index. rewrite E. reflexivity.
Qed.

Lemma reset_restarts_sequence_witness :
  fst (process (py "x,y,z") (py "sequential") 0 (py "12") 0
         (reset_sequential_index (py "12") {[ py "wildcard_12" := 2%Z ]}))
  = Some (py "x").
Proof.
  apply (reset_restarts_sequence (py "x,y,z") (py "12") (py "x") [py "y"; py "z"]
           0 0 {[ py "wildcard_12" := 2%Z ]}).
  vm_compute. reflexivity.
Defined.

(** ** File names *)

Section StripChars.
Variable chars : pystr.
Implicit Types (s : pystr) (c : char).

Lemma lstrip_chars_suffix s : exists a, s = a ++ lstrip_chars chars s.
Proof.
  induction s as [|c s [a IH]]; [exists []; reflexivity|].
  cbn [lstrip_chars]. destruct (contains c chars).
  - exists (c :: a). cbn [app]. f_equal. exact IH.
  - exists []. reflexivity.
Qed.

Lemma lstrip_chars_head s c r :
  lstrip_chars chars s = c :: r -> contains c chars = false.
Proof.
  induction s as [|d s IH]; cbn [lstrip_chars]; [discriminate|].
  destruct (contains d chars) eqn:E; [exact IH|].
  intros [= <- <-]. exact E.
Qed.

Lemma lstrip_chars_id s :
  match s with c :: _ => contains c chars = false | [] => True end ->
  lstrip_chars chars s = s.
Proof.
  destruct s as [|c s]; [reflexivity|]. cbn [lstrip_chars]. intros ->. reflexivity.
Qed.

Lemma rstrip_chars_prefix s : exists b, s = rstrip_chars chars s ++ b.
Proof.
  unfold rstrip_chars. destruct (lstrip_chars_suffix (rev s)) as [a H].
  exists (rev a). rewrite <- rev_app_distr, <- H, rev_involutive. reflexivity.
Qed.

(** What [strip_chars] returns has none of [chars] at its ends. *)
Lemma strip_chars_ends s :
  (forall c r, strip_chars chars s = c :: r -> contains c chars = false)
  /\ (forall c r, rev (strip_chars chars s) = c :: r -> contains c chars = false).
Proof.
  unfold strip_chars. split; intros c r H.
  - destruct (rstrip_chars_prefix (lstrip_chars chars s)) as [b Hb].
    rewrite H in Hb. exact (lstrip_chars_head s c _ Hb).
  - unfold rstrip_chars in H. rewrite rev_involutive in H.
    exact (lstrip_chars_head _ c r H).
Qed.

Lemma strip_chars_id s :
  match s with c :: _ => contains c chars = false | [] => True end ->
  match rev s with c :: _ => contains c chars = false | [] => True end ->
  strip_chars chars s = s.
Proof.
  intros Hh Hl. unfold strip_chars, rstrip_chars.
  rewrite (lstrip_chars_id s Hh), (lstrip_chars_id (rev s) Hl).
  apply rev_involutive.
Qed.

Lemma strip_chars_sub s c :
  In c (strip_chars chars s) -> In c s.
Proof.
  intros H. unfold strip_chars in H.
  destruct (lstrip_chars_suffix s) as [a Ha].
  destruct (rstrip_chars_prefix (lstrip_chars chars s)) as [b Hb].
  rewrite Ha, Hb. apply in_or_app. right. apply in_or_app. left. exact H.
Qed.
End StripChars.

Section Sanitize.
Import FileManager.
Implicit Types (s name : pystr) (c : char).

Lemma replace_char c new s :
  replace [c] new s = flat_map (fun d => if (c =? d)%N then new else [d]) s.
Proof.
  induction s as [|d s IH]; [reflexivity|].
  rewrite replace_cons. cbn [strip_prefix flat_map].
  destruct (c =? d)%N; rewrite IH; reflexivity.
Qed.

(** The loop over [invalid_chars] puts an underscore for every character
    of the list. *)
Lemma replace_all_chars (cs : pystr) (u : char) s :
  contains u cs = false ->
  fold_left (fun result char => replace [char] [u] result) cs s
  = List.map (fun d => if contains d cs then u else d) s.
Proof.
  revert s. induction cs as [|c cs IH]; intros s Hu; cbn [fold_left].
  - cbn [contains existsb]. symmetry. apply List.map_id.
  - cbn [contains existsb] in Hu. apply orb_false_elim in Hu as [Huc Hu].
    rewrite (IH _ Hu), replace_char. clear IH.
    induction s as [|d s IHs]; [reflexivity|].
    cbn [flat_map List.map contains existsb]. rewrite (N.eqb_sym d c).
    destruct (N.eqb_spec c d) as [->|Hcd]; cbn [app List.map orb]; rewrite IHs.
    + destruct (contains u cs); reflexivity.
    + reflexivity.
Qed.

Lemma sanitize_unfold name :
  _sanitize_filename name =
  let result :=
    strip_chars (py " .")
      (List.map (fun d => if contains d invalid_chars then c_underscore else d) name) in
  if negb (truthy result) then py "unnamed" else result.
Proof.
  unfold _sanitize_filename.
  change (py "_") with [c_underscore].
  rewrite replace_all_chars by reflexivity. reflexivity.
Qed.
End Sanitize.

(** What the three steps of [_sanitize_filename] leave. *)
Lemma sanitize_filename_facts (name : pystr) :
  let result := FileManager._sanitize_filename name in
  result <> []
  /\ (forall c, In c result -> contains c FileManager.invalid_chars = false)
  /\ (forall c r, result = c :: r -> contains c (py " .") = false)
  /\ (forall c r, rev result = c :: r -> contains c (py " .") = false).
Proof.
  cbv zeta. rewrite sanitize_unfold. cbv zeta.
  set (mapped := List.map _ name).
  destruct (strip_chars_ends (py " .") mapped) as [Hhead Hlast].
  destruct (strip_chars (py " .") mapped) as [|d r] eqn:E; cbn [truthy negb].
  - split; [discriminate|]. split; [|split].
    + intros c Hc. revert c Hc. apply List.Forall_forall.
      repeat constructor.
    + intros c r [= <- _]. reflexivity.
    + intros c r. vm_compute. intros [= <- _]. reflexivity.
  - split; [discriminate|]. split; [|split; [exact Hhead | exact Hlast]].
    intros c Hc. rewrite <- E in Hc. apply strip_chars_sub in Hc.
    subst mapped. apply List.in_map_iff in Hc as (d0 & <- & _).
    destruct (contains d0 FileManager.invalid_chars) eqn:Ed; [reflexivity | exact Ed].
Qed.

(** X4.  A sanitized file name is not empty, holds none of the characters
    of [invalid_chars] (so no slash and no backslash), and neither begins
    nor ends with a space or a dot. *)
Theorem sanitize_filename_safe (name : pystr) :
  let result := FileManager._sanitize_filename name in
  result <> []
  /\ (forall c, In c result -> contains c FileManager.invalid_chars = false)
  /\ (forall c r, result = c :: r -> contains c (py " .") = false)
  /\ (forall c r, rev result = c :: r -> contains c (py " .") = false).
Proof. exact (sanitize_filename_facts name). Qed.

Lemma sanitize_filename_safe_witness :
  FileManager._sanitize_filename (py " a/b. ") <> []
  /\ contains c_underscore FileManager.invalid_chars = false.
Proof.
  destruct (sanitize_filename_safe (py " a/b. ")) as (Hne & Hvalid & _).
  split; [exact Hne|]. apply Hvalid. vm_compute. right. left. reflexivity.
Defined.

(** X5.  Sanitizing is idempotent: a sanitized name is its own sanitized
    form. *)
Theorem sanitize_filename_idempotent (name : pystr) :
  FileManager._sanitize_filename (FileManager._sanitize_filename name)
  = FileManager._sanitize_filename name.
Proof.
  destruct (sanitize_filename_facts name) as (Hne & Hvalid & Hhead & Hlast).
  set (r := FileManager._sanitize_filename name) in *.
  rewrite (sanitize_unfold r). cbv zeta.
  assert (Hmap : List.map (fun d => if contains d FileManager.invalid_chars
                                    then c_underscore else d) r = r).
  { rewrite <- (List.map_id r) at 2. apply List.map_ext_in.
    intros c Hc. rewrite (Hvalid c Hc). reflexivity. }
  rewrite Hmap. rewrite strip_chars_id.
  - destruct r; [congruence | reflexivity].
  - destruct r as [|c r']; [exact I | exact (Hhead c r' eq_refl)].
  - destruct (rev r) as [|c r'] eqn:E; [exact I | exact (Hlast c r' eq_refl)].
Qed.

(** ** Placeholder names *)

Section Names.
Implicit Types (s id name text pre post : pystr) (c : char).

Lemma ident_run_all id :
  forallb is_ident id = true -> ident_run id = (id, []).
Proof.
  induction id as [|c id IH]; [reflexivity|]. cbn [forallb ident_run].
  intros H. apply andb_prop in H as [-> H]. rewrite (IH H). reflexivity.
Qed.

Lemma unique_full_names_NoDup ms seen acc :
  NoDup acc -> (forall x, In x acc -> In x seen) ->
  NoDup (unique_full_names ms seen acc).
Proof.
  revert seen acc. induction ms as [|m ms IH]; intros seen acc Hnd Hsub;
    cbn [unique_full_names]; [exact Hnd|].
  destruct (existsb (pystr_eqb (py "wildcard_" ++ m)) seen) eqn:E.
  - apply IH; assumption.
  - apply IH.
    + apply NoDup_ListNoDup. apply List.NoDup_app. repeat split.
      * apply NoDup_ListNoDup. exact Hnd.
      * repeat constructor. intros [].
      * intros x Hx [<-|[]]. apply Hsub in Hx.
        assert (Ht : existsb (pystr_eqb (py "wildcard_" ++ m)) seen = true).
        { apply existsb_exists. exists (py "wildcard_" ++ m). split; [exact Hx|].
          unfold pystr_eqb. apply bool_decide_eq_true. reflexivity. }
        congruence.
    + intros x Hx. apply in_app_or in Hx as [Hx|[<-|[]]];
        [right; auto | left; reflexivity].
Qed.

Lemma unique_full_names_sound ms seen acc x :
  In x (unique_full_names ms seen acc) ->
  In x acc \/ exists m, In m ms /\ x = py "wildcard_" ++ m.
Proof.
  revert seen acc. induction ms as [|m ms IH]; intros seen acc;
    cbn [unique_full_names]; [auto|].
  destruct (existsb _ seen); intros H; apply IH in H as [H|(m' & Hm' & ->)].
  - auto.
  - right. exists m'. split; [right; exact Hm' | reflexivity].
  - apply in_app_or in H as [H|[<-|[]]]; [auto|].
    right. exists m. split; [left; reflexivity | reflexivity].
  - right. exists m'. split; [right; exact Hm' | reflexivity].
Qed.

(** The pattern steps over the text before a placeholder without taking
    any of it into a match. *)
Lemma findall_finds pre id post :
  id <> [] -> forallb is_ident id = true ->
  In id (findall wildcard_here (pre ++ token id ++ post)).
Proof.
  intros Hne Hid. induction pre as [pre IH] using by_length.
  destruct pre as [|c pre].
  - cbn [app]. pose proof (wildcard_here_token id post Hne Hid) as Hw.
    destruct (token id ++ post) as [|d r] eqn:E; [discriminate|].
    rewrite (findall_cons _ wildcard_here_consumes), Hw. left. reflexivity.
  - cbn [app]. rewrite (findall_cons _ wildcard_here_consumes).
    destruct (wildcard_here (c :: pre ++ token id ++ post)) as [[n rest]|] eqn:E.
    + right. apply wildcard_here_Some in E as (Heq & Hn & Hnid).
      change (c :: pre ++ token id ++ post) with ((c :: pre) ++ token id ++ post) in Heq.
      apply List.app_eq_app in Heq as [e [[Hpre Hrest]|[Htok Hrest]]].
      * (* the match ends before the placeholder *)
        rewrite Hrest. apply IH. rewrite Hpre, length_app. unfold token.
        rewrite length_app. simpl. lia.
      * (* the match would have to hold the brace of the placeholder *)
        destruct e as [|x e].
        -- cbn [app] in Hrest. rewrite <- Hrest.
           apply (IH []). simpl. lia.
        -- exfalso.
           assert (Hx : x = c_lcurly)
             by (apply (f_equal (hd 0%N)) in Hrest; symmetry; exact Hrest).
           assert (Htl : py "wildcard_" ++ n ++ py "}" = pre ++ x :: e)
             by (apply (f_equal (@List.tl char)) in Htok; exact Htok).
           pose proof (token_plain n Hnid) as Hplain.
           rewrite Htl in Hplain. apply Forall_app in Hplain as [_ Hplain].
           inversion Hplain; congruence.
    + apply IH. simpl. lia.
Qed.
End Names.

(** The names that the pattern of [validate_wildcard_name] lets pass. *)
Lemma validate_wildcard_name_iff (name : pystr) :
  validate_wildcard_name name = true <->
  exists id, id <> [] /\ forallb is_ident id = true
             /\ (name = id \/ name = id ++ [c_nl]).
Proof.
  unfold validate_wildcard_name. split.
  - destruct name as [|c name]; [discriminate|]. cbn [truthy negb].
    pose proof (ident_run_spec (c :: name)) as Hrun.
    destruct (ident_run (c :: name)) as [[|d run] rest]; [discriminate|].
    destruct Hrun as [Heq Hrun]. intros H. exists (d :: run).
    split; [discriminate|]. split; [exact Hrun|].
    apply orb_prop in H as [H|H]; unfold pystr_eqb in H;
      apply bool_decide_eq_true in H; subst rest; rewrite Heq.
    + left. apply app_nil_r.
    + right. reflexivity.
  - intros (id & Hne & Hid & [->| ->]).
    + destruct id as [|c id]; [congruence|]. cbn [truthy negb].
      rewrite (ident_run_all _ Hid). reflexivity.
    + destruct id as [|c id]; [congruence|]. cbn [app truthy negb].
      change (c :: id ++ [c_nl]) with ((c :: id) ++ c_nl :: []).
      rewrite (ident_run_app _ c_nl [] Hid) by reflexivity. reflexivity.
Qed.

(** X6.  [validate_wildcard_name] accepts the non-empty names made of
    letters, digits and underscores, and also such a name followed by one
    newline, which the [$] of its pattern lets pass; it accepts nothing
    else. *)
Theorem validate_wildcard_name_spec (name : pystr) :
  validate_wildcard_name name = true <->
  exists id, id <> [] /\ forallb is_ident id = true
             /\ (name = id \/ name = id ++ [c_nl]).
Proof. exact (validate_wildcard_name_iff name). Qed.

(** X7.  [extract_wildcard_names] returns no name twice, and each name it
    returns is [wildcard_] followed by a name that
    [validate_wildcard_name] accepts. *)
Theorem extract_wildcard_names_valid (text : pystr) :
  NoDup (extract_wildcard_names text)
  /\ forall x, In x (extract_wildcard_names text) ->
       exists id, x = py "wildcard_" ++ id /\ validate_wildcard_name id = true.
Proof.
  unfold extract_wildcard_names. split.
  - apply unique_full_names_NoDup; [constructor | intros x []].
  - intros x Hx. apply unique_full_names_sound in Hx as [[]|(m & Hm & ->)].
    exists m. split; [reflexivity|].
    apply findall_pieces in Hm.
    assert (Hw : well_formed (Hit m)).
    { clear -Hm. unfold pieces in Hm.
      induction text as [text IH] using by_length.
      destruct text as [|c text]; [destruct Hm|].
      rewrite (scan_cons _ wildcard_here_consumes) in Hm.
      destruct (wildcard_here (c :: text)) as [[id rest]|] eqn:E.
      - destruct Hm as [[= <-]|Hm].
        + apply wildcard_here_Some in E as (_ & Hne & Hid). split; assumption.
        + exact (IH rest (wildcard_here_consumes _ _ _ E) Hm).
      - destruct Hm as [[=]|Hm]. apply (IH text); [simpl; lia | exact Hm]. }
    destruct Hw as [Hne Hid]. apply validate_wildcard_name_iff.
    exists m. auto.
Qed.

Lemma extract_wildcard_names_valid_witness :
  exists id, py "wildcard_color" = py "wildcard_" ++ id
             /\ validate_wildcard_name id = true.
Proof.
  apply (proj2 (extract_wildcard_names_valid (py "a {wildcard_color} car"))).
  vm_compute. left. reflexivity.
Defined.

(** X8.  Every well-formed placeholder of a text is reported: whatever
    stands before and after [{wildcard_id}], the name [wildcard_id] is
    among the extracted names. *)
Theorem extract_wildcard_names_complete (pre id post : pystr) :
  id <> [] -> forallb is_ident id = true ->
  In (py "wildcard_" ++ id) (extract_wildcard_names (pre ++ token id ++ post)).
Proof.
  intros Hne Hid. unfold extract_wildcard_names.
  apply unique_full_names_covers; [intros x [] |].
  apply findall_finds; assumption.
Qed.

Lemma extract_wildcard_names_complete_witness :
  In (py "wildcard_" ++ py "color")
    (extract_wildcard_names (py "a {x} {wildcard_" ++ token (py "color") ++ py " car")).
Proof.
  apply (extract_wildcard_names_complete (py "a {x} {wildcard_") (py "color") (py " car")).
  - discriminate.
  - reflexivity.
Defined.

(** ** Substitution on a text with well-formed placeholders *)

Section Substitution.
Implicit Types (s id n name text rest : pystr) (c : char)
  (values done : dict pystr) (segs : list (piece (A := pystr))).

Lemma pattern_of_name_token name : pattern_of_name name = token (key_id name).
Proof.
  unfold pattern_of_name, key_id, startswith.
  destruct (strip_prefix (py "wildcard_") name) as [id|] eqn:E; [|reflexivity].
  apply strip_prefix_Some in E. subst name. reflexivity.
Qed.

Lemma value_for_app id done values :
  value_for id (done ++ values) =
  match value_for id done with
  | Some v => Some v
  | None => value_for id values
  end.
Proof.
  induction done as [|[name v] done IH]; [reflexivity|].
  cbn [app value_for]. destruct (pystr_eqb (key_id name) id); [reflexivity | exact IH].
Qed.

Lemma plain_values_value_for id values v :
  plain_values values = true -> value_for id values = Some v ->
  contains c_lcurly v = false.
Proof.
  unfold plain_values. induction values as [|[name w] values IH]; [discriminate|].
  cbn [forallb value_for fst snd]. intros H. apply andb_prop in H as [Hw H].
  destruct (pystr_eqb (key_id name) id); [|exact (IH H)].
  intros [= ->]. apply andb_prop in Hw as [_ Hw]. apply negb_true_iff. exact Hw.
Qed.

Lemma replace_token_tail n new id rest :
  forallb is_ident n = true -> forallb is_ident id = true -> id <> n ->
  replace (token n) new (token id ++ rest) = token id ++ replace (token n) new rest.
Proof.
  intros Hn Hid Hne.
  destruct (strip_prefix (token n) (token id ++ rest)) eqn:E.
  { exfalso. apply Hne. symmetry. apply (token_prefix n id rest Hn Hid).
    rewrite E. discriminate. }
  change (token n) with (c_lcurly :: (py "wildcard_" ++ n ++ py "}")) in *.
  change (token id ++ rest)
    with (c_lcurly :: (py "wildcard_" ++ id ++ py "}") ++ rest) in *.
  rewrite replace_cons, E.
  rewrite replace_plain by (apply token_plain; exact Hid). reflexivity.
Qed.

Lemma replace_token_here n new rest :
  replace (token n) new (token n ++ rest) = new ++ replace (token n) new rest.
Proof.
  pose proof (strip_prefix_app (token n) rest) as E.
  change (token n) with (c_lcurly :: (py "wildcard_" ++ n ++ py "}")) in *.
  change ((c_lcurly :: (py "wildcard_" ++ n ++ py "}")) ++ rest)
    with (c_lcurly :: (py "wildcard_" ++ n ++ py "}") ++ rest) in *.
  rewrite replace_cons, E. reflexivity.
Qed.

(** One round of the first loop. *)
Lemma replace_half_substituted done name v segs :
  plain_values done = true -> forallb is_ident (key_id name) = true ->
  Forall well_formed segs ->
  replace (pattern_of_name name) (str_or_empty v)
    (flat_map (half_substituted done) segs)
  = flat_map (half_substituted (done ++ [(name, v)])) segs.
Proof.
  intros Hdone Hn. rewrite pattern_of_name_token.
  assert (Hv : str_or_empty v = v) by (destruct v; reflexivity). rewrite Hv.
  induction 1 as [|[c|id] segs Hp _ IH]; [reflexivity| |].
  - cbn [flat_map half_substituted app].
    change (token (key_id name))
      with (c_lcurly :: (py "wildcard_" ++ key_id name ++ py "}")) in *.
    rewrite replace_cons. cbn [strip_prefix]. cbn [well_formed] in Hp.
    destruct (N.eqb_spec c_lcurly c) as [<-|_]; [congruence|].
    rewrite IH. reflexivity.
  - destruct Hp as [_ Hid]. cbn [flat_map half_substituted].
    rewrite value_for_app.
    destruct (value_for id done) as [w|] eqn:Ew; cbn [default].
    + change (token (key_id name))
        with (c_lcurly :: (py "wildcard_" ++ key_id name ++ py "}")) in *.
      rewrite replace_plain, IH; [reflexivity|].
      apply contains_Forall. exact (plain_values_value_for id done w Hdone Ew).
    + cbn [value_for]. unfold pystr_eqb.
      destruct (decide (key_id name = id)) as [<-|Hne].
      * rewrite bool_decide_true by reflexivity. cbn [default].
        rewrite replace_token_here, IH. reflexivity.
      * rewrite bool_decide_false by exact Hne. cbn [default].
        rewrite replace_token_tail by (assumption || congruence).
        rewrite IH. reflexivity.
Qed.

Lemma plain_values_app done values :
  plain_values (done ++ values) = plain_values done && plain_values values.
Proof. unfold plain_values. apply forallb_app. Qed.

(** The first loop. *)
Lemma apply_values_half_substituted values done segs :
  plain_values done = true -> plain_values values = true ->
  Forall well_formed segs ->
  apply_values (flat_map (half_substituted done) segs) values
  = flat_map (half_substituted (done ++ values)) segs.
Proof.
  revert done. induction values as [|[name v] values IH]; intros done Hd Hv Hs.
  - rewrite app_nil_r. reflexivity.
  - cbn [apply_values]. pose proof Hv as Hv'.
    unfold plain_values in Hv. cbn [forallb fst snd] in Hv.
    apply andb_prop in Hv as [Hnv Hv]. apply andb_prop in Hnv as [Hn Hval].
    rewrite (replace_half_substituted done name v segs Hd Hn Hs).
    rewrite IH; [|rewrite plain_values_app, Hd; unfold plain_values; cbn [forallb fst snd];
                   rewrite Hn, Hval; reflexivity | exact Hv | exact Hs].
    rewrite <- app_assoc. reflexivity.
Qed.

Lemma sub_wildcard_plain (f : pystr -> pystr) plain s :
  contains c_lcurly plain = false ->
  sub wildcard_here f (plain ++ s) = plain ++ sub wildcard_here f s.
Proof.
  induction plain as [|c plain IH]; [reflexivity|].
  cbn [contains existsb app]. intros H. apply orb_false_elim in H as [Hc H].
  rewrite (sub_cons _ wildcard_here_consumes).
  unfold wildcard_here at 1. cbn [py List.map list_ascii_of_string strip_prefix].
  change (ord "{") with c_lcurly. rewrite Hc, (IH H). reflexivity.
Qed.

Lemma sub_wildcard_token (f : pystr -> pystr) id rest :
  id <> [] -> forallb is_ident id = true ->
  sub wildcard_here f (token id ++ rest) = f id ++ sub wildcard_here f rest.
Proof.
  intros Hne Hid. pose proof (wildcard_here_token id rest Hne Hid) as E.
  change (token id ++ rest)
    with (c_lcurly :: (py "wildcard_" ++ id ++ py "}") ++ rest) in *.
  rewrite (sub_cons _ wildcard_here_consumes), E. reflexivity.
Qed.

(** The second loop, after the first. *)
Lemma delete_half_substituted values segs :
  plain_values values = true -> Forall well_formed segs ->
  sub wildcard_here (fun _ => []) (flat_map (half_substituted values) segs)
  = flat_map (substituted values) segs.
Proof.
  intros Hv. induction 1 as [|[c|id] segs Hp _ IH]; [reflexivity| |].
  - cbn [flat_map half_substituted substituted]. cbn [well_formed] in Hp.
    rewrite sub_wildcard_plain, IH; [reflexivity|].
    cbn [contains existsb]. destruct (N.eqb_spec c_lcurly c); [congruence | reflexivity].
  - destruct Hp as [Hne Hid]. cbn [flat_map half_substituted substituted].
    destruct (value_for id values) as [w|] eqn:Ew; cbn [default].
    + rewrite sub_wildcard_plain, IH; [reflexivity|].
      exact (plain_values_value_for id values w Hv Ew).
    + rewrite sub_wildcard_token by assumption. exact IH.
Qed.
End Substitution.

(** [replace_wildcards] piece by piece. *)
Lemma replace_wildcards_pieces (text : pystr) (values : dict pystr) :
  braces_open_wildcards text = true -> plain_values values = true ->
  replace_wildcards text values = flat_map (substituted values) (pieces text).
Proof.
  intros Ht Hv. pose proof (pieces_well_formed text Ht) as Hwf.
  assert (Htext : text = flat_map (half_substituted []) (pieces text)).
  { rewrite <- (render_pieces text) at 1. apply flat_map_ext. intros [c|id]; reflexivity. }
  unfold replace_wildcards.
  assert (Hkeep : braces_open_wildcards (apply_values text values) = true).
  { apply apply_values_keeps_braces; [exact Ht|].
    unfold plain_values in Hv. rewrite forallb_forall in Hv |- *.
    intros kv Hin. apply Hv in Hin. apply andb_prop in Hin as [_ H]. exact H. }
  rewrite (blank_remaining_deletes _ Hkeep).
  rewrite Htext at 1.
  rewrite (apply_values_half_substituted values [] _ eq_refl Hv Hwf).
  cbn [app]. apply delete_half_substituted; assumption.
Qed.

(** X9.  On a text in which every opening brace opens a placeholder, and
    with keys that stand for identifiers and values without an opening
    brace, [replace_wildcards] puts for every placeholder the value of the
    first key that stands for it, written with or without the prefix
    [wildcard_], puts nothing for a placeholder without a key, and keeps
    all the other characters. *)
Theorem replace_wildcards_substitutes (text : pystr) (values : dict pystr) :
  braces_open_wildcards text = true -> plain_values values = true ->
  replace_wildcards text values = flat_map (substituted values) (pieces text).
Proof. exact (replace_wildcards_pieces text values). Qed.

Lemma replace_wildcards_substitutes_witness :
  replace_wildcards (py "a {wildcard_color} {wildcard_size} car")
    [(py "color", py "red"); (py "wildcard_color", py "blue")]
  = flat_map
      (substituted [(py "color", py "red"); (py "wildcard_color", py "blue")])
      (pieces (py "a {wildcard_color} {wildcard_size} car")).
Proof.
  apply (replace_wildcards_substitutes
           (py "a {wildcard_color} {wildcard_size} car")
           [(py "color", py "red"); (py "wildcard_color", py "blue")]);
    vm_compute; reflexivity.
Defined.

(** X10.  A text without an opening brace comes back unchanged from
    [replace_wildcards], whatever the dictionary holds. *)
Theorem replace_wildcards_without_brace (text : pystr) (values : dict pystr) :
  contains c_lcurly text = false -> replace_wildcards text values = text.
Proof.
  intros Ht. unfold replace_wildcards.
  assert (Ha : apply_values text values = text).
  { induction values as [|[name v] values IH]; [reflexivity|].
    cbn [apply_values]. destruct (pattern_of_name_brace name) as [p ->].
    rewrite <- (app_nil_r text) at 1.
    rewrite replace_plain by (apply contains_Forall; exact Ht).
    rewrite replace_nil, app_nil_r. exact IH. }
  rewrite Ha. pose proof (no_brace_no_wildcard text Ht) as Hw.
  unfold has_wildcard in Hw. unfold extract_wildcard_names.
  destruct (findall wildcard_here text); [reflexivity | discriminate].
Qed.

Lemma replace_wildcards_without_brace_witness :
  replace_wildcards (py "a red car}") [(py "color", py "{wildcard_x}")]
  = py "a red car}".
Proof.
  apply (replace_wildcards_without_brace (py "a red car}")
           [(py "color", py "{wildcard_x}")]).
  reflexivity.
Defined.

(** ** Texts without white space and commas *)

Section Solid.
Implicit Types (s id : pystr) (c : char).

Lemma is_ident_solid c : is_ident c = true -> is_solid c = true.
Proof.
  unfold is_ident, is_solid, is_space. intros H.
  rewrite !orb_true_iff, !andb_true_iff, !N.leb_le, N.eqb_eq in H.
  apply andb_true_iff. split; apply negb_true_iff.
  - apply not_true_is_false. intros H'.
    rewrite !orb_true_iff, !andb_true_iff, !N.leb_le, !N.eqb_eq in H'. lia.
  - apply N.eqb_neq. unfold c_comma. lia.
Qed.

Lemma token_solid id : forallb is_ident id = true -> forallb is_solid (token id) = true.
Proof.
  intros Hid. unfold token. rewrite !forallb_app.
  apply andb_true_iff. split; [reflexivity|].
  apply andb_true_iff. split; [|reflexivity].
  apply forallb_forall. intros c Hc. rewrite forallb_forall in Hid.
  apply is_ident_solid, Hid, Hc.
Qed.

Lemma solid_single_spaced s : forallb is_solid s = true -> single_spaced s = true.
Proof.
  induction s as [|c s IH]; [reflexivity|]. cbn [forallb single_spaced].
  intros H. apply andb_prop in H as [Hc Hs]. rewrite (IH Hs), andb_true_r.
  destruct (N.eqb_spec c c_space) as [->|_]; [discriminate | reflexivity].
Qed.

Lemma solid_comma_normal s : forallb is_solid s = true -> comma_normal s.
Proof.
  induction s as [|c s IH]; [constructor|]. cbn [forallb].
  intros H. apply andb_prop in H as [Hc Hs]. apply cn_lit; [|exact (IH Hs)].
  rewrite next_is_comma_cons. unfold is_solid in Hc.
  apply andb_prop in Hc as [Hsp Hcm].
  apply negb_true_iff in Hsp, Hcm. rewrite Hsp. exact Hcm.
Qed.

Lemma solid_strip s : forallb is_solid s = true -> strip s = s.
Proof.
  intros H. unfold strip.
  assert (Hl : lstrip s = s).
  { destruct s as [|c s]; [reflexivity|]. cbn [forallb lstrip] in *.
    apply andb_prop in H as [Hc _]. unfold is_solid in Hc.
    apply andb_prop in Hc as [Hc _]. apply negb_true_iff in Hc. rewrite Hc. reflexivity. }
  rewrite Hl. destruct s as [|c s] using rev_ind; [reflexivity|].
  rewrite rstrip_snoc. rewrite forallb_app in H. apply andb_prop in H as [_ H].
  cbn [forallb] in H. rewrite andb_true_r in H. unfold is_solid in H.
  apply andb_prop in H as [Hc _]. apply negb_true_iff in Hc. rewrite Hc. reflexivity.
Qed.

Lemma solid_strip_commas s : forallb is_solid s = true -> strip_chars (py ",") s = s.
Proof.
  intros H. apply strip_chars_id.
  - destruct s as [|c s]; [exact I|]. cbn [forallb] in H.
    apply andb_prop in H as [Hc _]. unfold is_solid in Hc.
    apply andb_prop in Hc as [_ Hc]. apply negb_true_iff in Hc.
    cbn [contains existsb py List.map list_ascii_of_string]. change (ord ",") with c_comma.
    rewrite Hc. reflexivity.
  - destruct (rev s) as [|c r] eqn:E; [exact I|].
    rewrite <- forallb_rev, E in H. cbn [forallb] in H.
    apply andb_prop in H as [Hc _]. unfold is_solid in Hc.
    apply andb_prop in Hc as [_ Hc]. apply negb_true_iff in Hc.
    cbn [contains existsb py List.map list_ascii_of_string]. change (ord ",") with c_comma.
    rewrite Hc. reflexivity.
Qed.

Lemma solid_endswith s : forallb is_solid s = true -> endswith c_comma s = false.
Proof.
  intros H. unfold endswith. destruct (rev s) as [|c r] eqn:E; [reflexivity|].
  rewrite <- forallb_rev, E in H. cbn [forallb] in H.
  apply andb_prop in H as [Hc _]. unfold is_solid in Hc.
  apply andb_prop in Hc as [_ Hc]. apply negb_true_iff in Hc. exact Hc.
Qed.

(** Neither [clean_prompt] nor [_strip_commas] changes such a text. *)
Lemma clean_prompt_solid s : forallb is_solid s = true -> clean_prompt s = s.
Proof.
  intros H. apply clean_prompt_fixed.
  - exact (solid_single_spaced s H).
  - exact (solid_comma_normal s H).
  - exact (solid_strip s H).
  - exact (solid_endswith s H).
Qed.

Lemma strip_commas_solid s : forallb is_solid s = true -> _strip_commas s = s.
Proof.
  intros H. unfold _strip_commas. destruct s as [|c s]; [reflexivity|].
  cbn [truthy negb]. rewrite (solid_strip _ H), (solid_strip_commas _ H).
  exact (solid_strip _ H).
Qed.

Lemma collect_without_wildcards (kwargs acc : dict pystr) :
  forallb (fun kv => negb (startswith (py "wildcard_") (fst kv))) kwargs = true ->
  fold_left
    (fun wildcard_values kv =>
       if startswith (py "wildcard_") (fst kv)
       then dict_set (fst kv) (snd kv) wildcard_values
       else wildcard_values)
    kwargs acc = acc.
Proof.
  revert acc. induction kwargs as [|kv kwargs IH]; intros acc; [reflexivity|].
  cbn [forallb fold_left]. intros H. apply andb_prop in H as [Hk H].
  apply negb_true_iff in Hk. rewrite Hk. exact (IH acc H).
Qed.

Lemma Forall_contains c s : Forall (fun d => d <> c) s -> contains c s = false.
Proof.
  induction 1 as [|d l Hd _ IH]; [reflexivity|].
  cbn [contains existsb]. fold (contains c l). rewrite IH.
  destruct (N.eqb_spec c d); [congruence | reflexivity].
Qed.

Lemma braces_open_wildcards_token id s :
  id <> [] -> forallb is_ident id = true ->
  braces_open_wildcards s = true -> braces_open_wildcards (token id ++ s) = true.
Proof.
  intros Hne Hid Hs. pose proof (wildcard_here_token id s Hne Hid) as Hw.
  change (token id ++ s)
    with (c_lcurly :: (py "wildcard_" ++ id ++ py "}") ++ s) in *.
  cbn [braces_open_wildcards]. rewrite N.eqb_refl, Hw. cbn [andb].
  apply braces_open_wildcards_plain; [|exact Hs].
  apply Forall_contains, token_plain, Hid.
Qed.
End Solid.

(** X11.  A placeholder alone in the prompt of a drafter node stays in the
    output when no wildcard input is connected at all, and is replaced by
    the empty string as soon as a wildcard input of another name is
    connected: [process_prompt] skips the substitution for an empty
    dictionary. *)
Theorem drafter_placeholder_without_value (id other value : pystr) :
  id <> [] -> forallb is_ident id = true ->
  forallb is_ident other = true -> other <> id ->
  contains c_lcurly value = false ->
  (forall kwargs,
     forallb (fun kv => negb (startswith (py "wildcard_") (fst kv))) kwargs = true ->
     PromptDrafter.process_single (token id) [] [] kwargs = token id)
  /\ PromptDrafter.process_single (token id) [] []
       [(py "wildcard_" ++ other, value)] = [].
Proof.
  intros Hne Hid Hother Hdiff Hval.
  pose proof (token_solid id Hid) as Hsolid.
  assert (Hcomb : combine_prompt (token id) (Some []) (Some []) (py ", ") = token id).
  { unfold combine_prompt, has_text. cbn [truthy andb app].
    rewrite (solid_strip _ Hsolid). change (truthy (token id)) with true.
    cbn [andb join]. exact (strip_commas_solid _ Hsolid). }
  split.
  - intros kwargs Hk. unfold PromptDrafter.process_single, PromptDrafter.collect_wildcard_values.
    rewrite (collect_without_wildcards kwargs [] Hk).
    unfold process_prompt.
    replace (combine_prompt _ _ _ _) with (token id) by (symmetry; exact Hcomb).
    exact (clean_prompt_solid _ Hsolid).
  - unfold PromptDrafter.process_single, PromptDrafter.collect_wildcard_values.
    cbn [fold_left fst snd].
    assert (Hsw : startswith (py "wildcard_") (py "wildcard_" ++ other) = true)
      by (unfold startswith; rewrite strip_prefix_app; reflexivity).
    rewrite Hsw. cbn [dict_set]. unfold process_prompt.
    replace (combine_prompt _ _ _ _) with (token id) by (symmetry; exact Hcomb).
    assert (Hkey : key_id (py "wildcard_" ++ other) = other)
      by (unfold key_id; rewrite strip_prefix_app; reflexivity).
    rewrite replace_wildcards_pieces.
    + unfold pieces. pose proof (wildcard_here_token id [] Hne Hid) as Hw.
      rewrite app_nil_r in Hw.
      change (token id) with (c_lcurly :: (py "wildcard_" ++ id ++ py "}")) in *.
      rewrite (scan_cons _ wildcard_here_consumes), Hw.
      cbn [scan scan_fuel length flat_map substituted value_for].
      rewrite Hkey. unfold pystr_eqb. rewrite bool_decide_false by exact Hdiff.
      reflexivity.
    + rewrite <- (app_nil_r (token id)).
      apply braces_open_wildcards_token; [assumption..|reflexivity].
    + unfold plain_values. cbn [forallb fst snd]. rewrite Hkey, Hother, Hval. reflexivity.
Qed.

Lemma drafter_placeholder_without_value_witness :
  (forall kwargs,
     forallb (fun kv => negb (startswith (py "wildcard_") (fst kv))) kwargs = true ->
     PromptDrafter.process_single (token (py "color")) [] [] kwargs
     = token (py "color"))
  /\ PromptDrafter.process_single (token (py "color")) [] []
       [(py "wildcard_" ++ py "size", py "big")] = [].
Proof.
  apply (drafter_placeholder_without_value (py "color") (py "size") (py "big"));
    (discriminate || reflexivity).
Defined.

(** ** The order of [sorted] *)

Section Order.
Implicit Types (a b c : pystr).

Lemma pystr_leb_total a b : pystr_leb a b = true \/ pystr_leb b a = true.
Proof.
  revert b. induction a as [|x a IH]; intros [|y b]; cbn [pystr_leb]; auto.
  destruct (N.ltb_spec x y), (N.ltb_spec y x); auto; lia.
Qed.

Lemma pystr_leb_trans a b c :
  pystr_leb a b = true -> pystr_leb b c = true -> pystr_leb a c = true.
Proof.
  revert b c. induction a as [|x a IH]; intros [|y b] [|z c]; cbn [pystr_leb];
    try (reflexivity || discriminate).
  destruct (N.ltb_spec x y), (N.ltb_spec y x), (N.ltb_spec y z),
    (N.ltb_spec z y), (N.ltb_spec x z), (N.ltb_spec z x);
    try (reflexivity || discriminate || lia).
  apply IH.
Qed.

Lemma pystr_leb_antisym a b :
  pystr_leb a b = true -> pystr_leb b a = true -> a = b.
Proof.
  revert b. induction a as [|x a IH]; intros [|y b]; cbn [pystr_leb];
    try (reflexivity || discriminate).
  destruct (N.ltb_spec x y), (N.ltb_spec y x); try (discriminate || lia).
  intros H1 H2. assert (x = y) by lia. subst y. f_equal. exact (IH b H1 H2).
Qed.

#[local] Instance pystr_le_total : Total pystr_le.
Proof. intros a b. apply pystr_leb_total. Qed.

#[local] Instance pystr_le_trans : Transitive pystr_le.
Proof. intros a b c. apply pystr_leb_trans. Qed.

Lemma combined_sorted (names : gset pystr) :
  StronglySorted pystr_le (merge_sort pystr_le (elements names)).
Proof. apply StronglySorted_merge_sort; typeclasses eauto. Qed.
End Order.

(** X12.  [get_combined_wildcards] returns the names of the two prompts in
    ascending order of their code points, each name once, and does not
    depend on which prompt is the positive one; a name is in the result
    exactly when one of the prompts has it. *)
Theorem get_combined_wildcards_sorted_union (positive_text negative_text : pystr) :
  let names := get_combined_wildcards positive_text negative_text in
  StronglySorted pystr_le names
  /\ List.NoDup names
  /\ (forall x, In x names <->
        In x (extract_wildcard_names positive_text)
        \/ In x (extract_wildcard_names negative_text))
  /\ names = get_combined_wildcards negative_text positive_text.
Proof.
  cbv zeta. unfold get_combined_wildcards.
  set (all := (list_to_set (extract_wildcard_names positive_text)
               ∪ list_to_set (extract_wildcard_names negative_text) : gset pystr)).
  pose proof (merge_sort_Permutation pystr_le (elements all)) as Hperm.
  split; [apply combined_sorted|].
  split.
  { apply NoDup_ListNoDup. rewrite Hperm. apply NoDup_elements. }
  split.
  { intros x. rewrite <- !list_elem_of_In, Hperm, elem_of_elements.
    subst all. rewrite elem_of_union, !elem_of_list_to_set. reflexivity. }
  subst all. f_equal. f_equal. apply (comm_L (∪)).
Qed.

(** X13.  [clean_prompt] never returns a text with two spaces in a row or
    with white space at one of its ends. *)
Theorem clean_prompt_tidy (x : pystr) :
  single_spaced (clean_prompt x) = true
  /\ strip (clean_prompt x) = clean_prompt x.
Proof.
  destruct x as [|c x]; [split; reflexivity|].
  unfold clean_prompt. cbn [truthy negb].
  fold (collapse (c :: x)). fold (commas (collapse (c :: x))).
  set (z := commas (collapse (c :: x))).
  assert (Hz : single_spaced z = true)
    by apply single_spaced_commas, single_spaced_collapse.
  destruct (endswith c_comma (strip z)).
  - split; [|apply strip_idem].
    apply single_spaced_strip, single_spaced_removelast, single_spaced_strip, Hz.
  - split; [|apply strip_idem]. apply single_spaced_strip, Hz.
Qed.

(** X14.  [get_value_at_index] never raises: within the range of the
    parsed list it returns the value that the node selects in fixed mode,
    and for every other index, the negative ones included, the empty
    string, where the node clamps the index. *)
Theorem get_value_at_index_in_and_out_of_range (text : pystr) (index : Z)
    (uid : pystr) (choice : nat) (sigma : gmap pystr Z) :
  ((0 <= index < Z.of_nat (count_values text))%Z ->
     exists v, get_value_at_index text index = Some v
       /\ nth_error (parse_value_list text) (Z.to_nat index) = Some v
       /\ process text (py "fixed") index uid choice sigma = (Some v, sigma))
  /\ (~ (0 <= index < Z.of_nat (count_values text))%Z ->
     get_value_at_index text index = Some []).
Proof.
  unfold get_value_at_index, count_values. split.
  - intros Hi.
    destruct (Z.leb_spec 0 index) as [_|?]; [|lia].
    destruct (Z.ltb_spec index (Z.of_nat (length (parse_value_list text)))) as [_|?]; [|lia].
    cbn [andb].
    destruct (getitem_in_range (parse_value_list text) index Hi) as (v & Hv & Hg).
    exists v. split; [exact Hg|]. split; [exact Hv|].
    assert (Hne : parse_value_list text <> []).
    { intros E. rewrite E in Hi. cbn [length] in Hi. lia. }
    rewrite (process_nonempty text _ _ index uid choice sigma eq_refl Hne).
    destruct (select_fixed (parse_value_list text) index uid choice sigma Hne)
      as (w & Hw & Hs).
    rewrite Hs.
    assert (Hc : clamp index 0 (Z.of_nat (length (parse_value_list text)) - 1) = index).
    { unfold clamp. destruct (Z.ltb_spec index 0); [lia|].
      destruct (Z.ltb_spec (Z.of_nat (length (parse_value_list text)) - 1) index); [lia|].
      reflexivity. }
    rewrite Hc in Hw. congruence.
  - intros Hi.
    destruct (Z.leb_spec 0 index), (Z.ltb_spec index (Z.of_nat (length (parse_value_list text))));
      try reflexivity. lia.
Qed.

Lemma get_value_at_index_in_and_out_of_range_witness :
  (exists v, get_value_at_index (py "red, green, blue") 1 = Some v
     /\ nth_error (parse_value_list (py "red, green, blue")) (Z.to_nat 1) = Some v
     /\ process (py "red, green, blue") (py "fixed") 1 [] 0 ∅ = (Some v, ∅))
  /\ get_value_at_index (py "red, green, blue") (-1) = Some [].
Proof.
  split.
  - apply (get_value_at_index_in_and_out_of_range (py "red, green, blue") 1 [] 0 ∅).
    vm_compute. split; [discriminate | reflexivity].
  - apply (get_value_at_index_in_and_out_of_range (py "red, green, blue") (-1) [] 0 ∅).
    vm_compute. intros [H _]. apply H. reflexivity.
Defined.

(** ** Parsing a joined list *)

Section RoundTrip.
Implicit Types (s v q pre post sep : pystr) (c d : char) (vs values : list pystr).

Lemma contains_app c s1 s2 :
  contains c (s1 ++ s2) = contains c s1 || contains c s2.
Proof. unfold contains. apply existsb_app. Qed.

Lemma contains_join c sep vs :
  contains c sep = false -> forallb (fun v => negb (contains c v)) vs = true ->
  contains c (join sep vs) = false.
Proof.
  intros Hsep. induction vs as [|v vs IH]; [reflexivity|].
  cbn [forallb]. intros H. apply andb_prop in H as [Hv Hvs].
  apply negb_true_iff in Hv. destruct vs as [|v' vs]; [exact Hv|].
  change (join sep (v :: v' :: vs)) with (v ++ sep ++ join sep (v' :: vs)).
  rewrite !contains_app, Hv, Hsep, (IH Hvs). reflexivity.
Qed.

Lemma padding_blank s : is_padding s = true -> forallb is_space s = true.
Proof.
  unfold is_padding. induction s as [|c s IH]; [reflexivity|]. cbn [forallb].
  intros H. apply andb_prop in H as [Hc Hs]. apply N.eqb_eq in Hc. subst c.
  rewrite (IH Hs). reflexivity.
Qed.

Lemma padding_contains c s :
  c <> c_space -> is_padding s = true -> contains c s = false.
Proof.
  intros Hc. unfold is_padding. induction s as [|d s IH]; [reflexivity|].
  cbn [forallb contains existsb]. intros H. apply andb_prop in H as [Hd Hs].
  apply N.eqb_eq in Hd. subst d. fold (contains c s). rewrite (IH Hs).
  destruct (N.eqb_spec c c_space); [contradiction | reflexivity].
Qed.

Lemma strip_padded a v b :
  forallb is_space a = true -> forallb is_space b = true ->
  strip (a ++ v ++ b) = strip v.
Proof.
  intros Ha Hb. induction a as [|c a IH].
  - clear Ha. cbn [app]. induction b as [|c b IH] using rev_ind.
    + rewrite app_nil_r. reflexivity.
    + rewrite forallb_app in Hb. apply andb_prop in Hb as [Hb Hc].
      cbn [forallb] in Hc. rewrite andb_true_r in Hc.
      rewrite app_assoc, (strip_snoc_space _ _ Hc). exact (IH Hb).
  - cbn [forallb] in Ha. apply andb_prop in Ha as [Hc Ha].
    cbn [app]. rewrite (strip_cons_space _ _ Hc). exact (IH Ha).
Qed.

Lemma split_app_sep d a s :
  contains d a = false -> split d (a ++ d :: s) = a :: split d s.
Proof.
  induction a as [|c a IH]; cbn [app split contains existsb].
  - intros _. rewrite N.eqb_refl. reflexivity.
  - intros H. apply orb_false_elim in H as [Hc Ha].
    rewrite N.eqb_sym, Hc. fold (contains d a) in Ha. rewrite (IH Ha). reflexivity.
Qed.

(** The pieces between the separators are the values with their padding. *)
Lemma map_strip_split_join d pre post q v vs :
  d <> c_space ->
  is_padding pre = true -> is_padding post = true -> is_padding q = true ->
  forallb (fun v => negb (contains d v)) (v :: vs) = true ->
  List.map strip (split d (q ++ join (pre ++ d :: post) (v :: vs)))
  = List.map strip (v :: vs).
Proof.
  intros Hd Hpre Hpost. revert q v.
  induction vs as [|v' vs IH]; intros q v Hq Hall.
  - cbn [join forallb] in *. rewrite andb_true_r in Hall.
    apply negb_true_iff in Hall.
    rewrite split_no_sep
      by (rewrite contains_app, (padding_contains d q Hd Hq), Hall; reflexivity).
    cbn [List.map]. f_equal.
    rewrite <- (app_nil_r v) at 1.
    exact (strip_padded q v [] (padding_blank q Hq) eq_refl).
  - change (join (pre ++ d :: post) (v :: v' :: vs))
      with (v ++ (pre ++ d :: post) ++ join (pre ++ d :: post) (v' :: vs)).
    cbn [forallb] in Hall. apply andb_prop in Hall as [Hv Hall].
    apply negb_true_iff in Hv.
    replace (q ++ v ++ (pre ++ d :: post) ++ join (pre ++ d :: post) (v' :: vs))
      with ((q ++ v ++ pre) ++ d :: (post ++ join (pre ++ d :: post) (v' :: vs)))
      by (rewrite <- !app_assoc; reflexivity).
    rewrite split_app_sep
      by (rewrite !contains_app, (padding_contains d q Hd Hq), Hv,
            (padding_contains d pre Hd Hpre); reflexivity).
    cbn [List.map]. f_equal.
    + exact (strip_padded q v pre (padding_blank q Hq) (padding_blank pre Hpre)).
    + exact (IH post v' Hpost Hall).
Qed.

Lemma length_lstrip s : length (lstrip s) <= length s.
Proof.
  induction s as [|c s IH]; cbn [lstrip length]; [lia|].
  destruct (is_space c); cbn [length]; lia.
Qed.

Lemma length_strip s : length (strip s) <= length s.
Proof.
  unfold strip. destruct (rstrip_prefix (lstrip s)) as [b Hb].
  pose proof (length_lstrip s) as Hl. rewrite Hb in Hl at 1.
  rewrite length_app in Hl. lia.
Qed.

Lemma strip_fixed_head c s : strip (c :: s) = c :: s -> is_space c = false.
Proof.
  intros H. destruct (is_space c) eqn:E; [|reflexivity].
  rewrite (strip_cons_space c s E) in H.
  pose proof (length_strip s) as Hl. rewrite H in Hl. cbn [length] in Hl. lia.
Qed.

Lemma plain_value_inv v :
  is_plain_value v = true ->
  v <> [] /\ strip v = v /\ forallb is_space v = false
  /\ contains c_nl v = false /\ contains c_pipe v = false
  /\ contains c_comma v = false /\ contains c_lparen v = false
  /\ contains c_lcurly v = false.
Proof.
  unfold is_plain_value. cbn [forallb]. intros H.
  rewrite !andb_true_iff, !negb_true_iff in H.
  destruct H as ((Ht & He) & (H1 & H2 & H3 & H4 & H5 & _)).
  unfold pystr_eqb in He. apply bool_decide_eq_true in He.
  destruct v as [|c v]; [discriminate|].
  repeat split; try assumption; try discriminate.
  cbn [forallb]. rewrite (strip_fixed_head c v He). reflexivity.
Qed.

Lemma plain_values_without c values :
  In c [c_nl; c_pipe; c_comma; c_lparen; c_lcurly] ->
  forallb is_plain_value values = true ->
  forallb (fun v => negb (contains c v)) values = true.
Proof.
  intros Hc Hall. apply forallb_forall. intros v Hv.
  rewrite forallb_forall in Hall.
  destruct (plain_value_inv v (Hall v Hv)) as (_ & _ & _ & H1 & H2 & H3 & H4 & H5).
  cbn [In] in Hc.
  destruct Hc as [<-|[<-|[<-|[<-|[<-|[]]]]]]; apply negb_true_iff; assumption.
Qed.

Lemma map_strip_plain values :
  forallb is_plain_value values = true -> List.map strip values = values.
Proof.
  induction values as [|v vs IH]; [reflexivity|]. cbn [forallb List.map].
  intros H. apply andb_prop in H as [Hv Hvs].
  destruct (plain_value_inv v Hv) as (_ & Hs & _). rewrite Hs, (IH Hvs). reflexivity.
Qed.

Lemma restore_plain values :
  forallb is_plain_value values = true -> restore_values [] values = values.
Proof.
  unfold restore_values. induction values as [|v vs IH]; [reflexivity|].
  cbn [forallb flat_map]. intros H. apply andb_prop in H as [Hv Hvs].
  destruct (plain_value_inv v Hv) as (Hne & _). rewrite (IH Hvs).
  cbn [_restore_brackets]. destruct v; [congruence | reflexivity].
Qed.

Lemma split_strip_map d s :
  split_strip d s = List.filter truthy (List.map strip (split d s)).
Proof.
  unfold split_strip. induction (split d s) as [|p ps IH]; [reflexivity|].
  cbn [List.filter List.map]. destruct (truthy (strip p)); cbn [List.map]; rewrite IH; reflexivity.
Qed.

Lemma filter_truthy_plain values :
  forallb is_plain_value values = true -> List.filter truthy values = values.
Proof.
  induction values as [|v vs IH]; [reflexivity|]. cbn [forallb List.filter].
  intros H. apply andb_prop in H as [Hv Hvs].
  destruct (plain_value_inv v Hv) as (Hne & _). rewrite (IH Hvs).
  destruct v; [congruence | reflexivity].
Qed.

Lemma lines_plain (lines values : list pystr) :
  List.map strip lines = values -> forallb is_plain_value values = true ->
  flat_map
    (fun line =>
       let line := strip line in
       if truthy line then
         if contains c_pipe line then split_strip c_pipe line
         else if contains c_comma line then split_strip c_comma line
         else [line]
       else [])
    lines = values.
Proof.
  match goal with |- _ -> _ -> flat_map ?f _ = _ => set (F := f) end.
  revert values. induction lines as [|l ls IH]; intros values <-; [reflexivity|].
  cbn [List.map forallb flat_map]. intros H. apply andb_prop in H as [Hv Hvs].
  destruct (plain_value_inv _ Hv) as (Hne & _ & _ & _ & Hp & Hc & _).
  rewrite (IH _ eq_refl Hvs). subst F. cbv beta zeta. rewrite Hp, Hc.
  destruct (strip l); [congruence | reflexivity].
Qed.

Lemma protect_without_brackets text :
  contains c_lparen text = false -> contains c_lcurly text = false ->
  _protect_brackets text = (text, []).
Proof.
  intros Hp Hc. unfold _protect_brackets.
  rewrite (count_char_absent _ _ Hp). cbn [protect_loop ps_result].
  rewrite (count_char_absent _ _ Hc). reflexivity.
Qed.
End RoundTrip.

(** X15.  Joining plain values with one of the three delimiters, with
    spaces around it or not, and parsing the text gives the values back;
    so the [list (csv)] output of a node, which joins with a comma and a
    space, parses to the list it was made from. *)
Theorem parse_join_round_trip (d : char) (pre post : pystr) (values : list pystr) :
  In d [c_nl; c_pipe; c_comma] ->
  is_padding pre = true -> is_padding post = true ->
  forallb is_plain_value values = true ->
  parse_value_list (join (pre ++ d :: post) values) = values.
Proof.
  intros Hd Hpre Hpost Hall.
  destruct values as [|v vs]; [reflexivity|].
  set (sep := pre ++ d :: post). set (text := join sep (v :: vs)).
  assert (Hsp : d <> c_space)
    by (cbn [In] in Hd; destruct Hd as [<-|[<-|[<-|[]]]]; discriminate).
  assert (Hno : forall c, In c [c_nl; c_pipe; c_comma; c_lparen; c_lcurly] ->
                  c <> d -> contains c text = false).
  { intros c Hc Hcd. apply contains_join.
    - unfold sep. rewrite contains_app. cbn [contains existsb].
      fold (contains c pre). fold (contains c post).
      assert (c <> c_space)
        by (cbn [In] in Hc; destruct Hc as [<-|[<-|[<-|[<-|[<-|[]]]]]]; discriminate).
      rewrite !padding_contains by assumption.
      destruct (N.eqb_spec c d); [contradiction | reflexivity].
    - apply plain_values_without; assumption. }
  assert (Hmap : List.map strip (split d text) = v :: vs).
  { pose proof (map_strip_split_join d pre post [] v vs Hsp Hpre Hpost eq_refl
                  (plain_values_without d _
                     ltac:(cbn [In] in *; tauto) Hall)) as H.
    cbn [app] in H. fold sep in H. fold text in H.
    rewrite H. apply map_strip_plain, Hall. }
  pose proof Hall as Hall'. cbn [forallb] in Hall'.
  apply andb_prop in Hall' as [Hv Hvs].
  destruct (plain_value_inv v Hv) as (Hne & Hs & Hb & Hv1 & Hv2 & Hv3 & _).
  assert (Htext : forallb is_space text = false).
  { destruct v as [|c v]; [congruence|]. cbn [forallb] in Hb.
    unfold text. destruct vs; cbn [join app forallb].
    - exact Hb.
    - destruct (is_space c); [|reflexivity]. cbn [andb] in *.
      rewrite forallb_app, Hb. reflexivity. }
  unfold parse_value_list.
  assert (Htr : truthy text = true)
    by (destruct text; [discriminate Htext | reflexivity]).
  rewrite Htr, truthy_strip, Htext. cbn [negb orb].
  rewrite protect_without_brackets
    by (apply Hno; [cbn [In]; tauto
                   | cbn [In] in Hd; destruct Hd as [<-|[<-|[<-|[]]]]; discriminate]).
  rewrite (restore_plain (split_values text)); [|].
  all: assert (Hsv : split_values text = v :: vs); [|rewrite Hsv; auto].
  all: unfold split_values.
  all: destruct vs as [|v' vs].
  all: try (change text with v in *; rewrite Hv1, Hv2, Hv3, Hs;
            destruct v; [congruence | reflexivity]).
  all: assert (Hin : contains d text = true)
         by (unfold text, sep;
             change (join (pre ++ d :: post) (v :: v' :: vs))
               with (v ++ (pre ++ d :: post) ++ join (pre ++ d :: post) (v' :: vs));
             rewrite !contains_app; cbn [contains existsb]; rewrite N.eqb_refl;
             rewrite !orb_true_r; reflexivity).
  all: cbn [In] in Hd; destruct Hd as [<-|[<-|[<-|[]]]].
  all: rewrite ?Hin.
  all: try (rewrite (Hno c_nl) by (cbn [In]; tauto || discriminate)).
  all: try (rewrite (Hno c_pipe) by (cbn [In]; tauto || discriminate)).
  all: try (apply lines_plain; assumption).
  all: rewrite split_strip_map, Hmap; apply filter_truthy_plain; assumption.
Qed.

Lemma parse_join_round_trip_witness :
  parse_value_list (join (py "" ++ c_comma :: py " ") [py "red"; py "dark green"; py "blue"])
  = [py "red"; py "dark green"; py "blue"].
Proof.
  apply (parse_join_round_trip c_comma (py "") (py " ")
           [py "red"; py "dark green"; py "blue"]).
  - cbn [In]. tauto.
  - reflexivity.
  - reflexivity.
  - vm_compute. reflexivity.
Defined.

(** ** The values that [parse_value_list] returns *)

Section Tight.
Implicit Types (s v g rest new : pystr) (c d : char) (reps : dict pystr).

Lemma head_solid_app x y : head_solid x = true -> head_solid (x ++ y) = true.
Proof. destruct x; [discriminate | exact id]. Qed.

Lemma last_solid_app x y :
  y <> [] -> head_solid (rev (x ++ y)) = head_solid (rev y).
Proof.
  intros Hy. rewrite rev_app_distr.
  destruct (rev y) eqn:E; [|reflexivity].
  apply (f_equal (@rev char)) in E. rewrite rev_involutive in E. contradiction.
Qed.

Lemma head_solid_truthy s : head_solid s = true -> s <> [].
Proof. destruct s; [discriminate | discriminate]. Qed.

Lemma last_solid_truthy s : head_solid (rev s) = true -> s <> [].
Proof. destruct s; [discriminate | discriminate]. Qed.

Lemma tight_strip v : is_tight v = true -> v <> [] /\ strip v = v.
Proof.
  unfold is_tight. intros H. apply andb_prop in H as [Hh Hl].
  split; [exact (head_solid_truthy v Hh)|].
  assert (Hfix : forall s, head_solid s = true -> lstrip s = s).
  { intros [|c s]; [discriminate|]. cbn [head_solid lstrip].
    intros Hc. apply negb_true_iff in Hc. rewrite Hc. reflexivity. }
  unfold strip, rstrip. rewrite (Hfix v Hh), (Hfix _ Hl). apply rev_involutive.
Qed.

Lemma strip_fixed_last s d : strip (s ++ [d]) = s ++ [d] -> is_space d = false.
Proof.
  intros H. destruct (is_space d) eqn:E; [|reflexivity].
  rewrite (strip_snoc_space s d E) in H.
  pose proof (length_strip s) as Hl. rewrite H, length_app in Hl.
  cbn [length] in Hl. lia.
Qed.

Lemma strip_tight s : truthy (strip s) = true -> is_tight (strip s) = true.
Proof.
  intros Ht. pose proof (strip_idem s) as Hi. unfold is_tight.
  apply andb_true_iff. split.
  - destruct (strip s) as [|c r]; [discriminate|].
    cbn [head_solid]. rewrite (strip_fixed_head c r Hi). reflexivity.
  - destruct (strip s) as [|c r] using rev_ind; [discriminate|].
    rewrite rev_app_distr. cbn [rev app head_solid].
    rewrite (strip_fixed_last r c Hi). reflexivity.
Qed.

(** Replacing a placeholder by a tight text in a tight text. *)
Lemma replace_head_solid a p new s :
  head_solid new = true -> head_solid s = true ->
  head_solid (replace (a :: p) new s) = true.
Proof.
  intros Hn Hs. destruct s as [|c s]; [discriminate|].
  rewrite replace_cons. destruct (strip_prefix (a :: p) (c :: s)).
  - apply head_solid_app, Hn.
  - exact Hs.
Qed.

Lemma replace_last_solid a p new s :
  head_solid (rev new) = true -> head_solid (rev s) = true ->
  head_solid (rev (replace (a :: p) new s)) = true.
Proof.
  intros Hn. remember (length s) as n eqn:Hlen. revert s Hlen.
  induction n as [n IH] using lt_wf_ind. intros s -> Hs.
  destruct s as [|c s]; [discriminate|].
  rewrite replace_cons. destruct (strip_prefix (a :: p) (c :: s)) as [rest|] eqn:E.
  - destruct rest as [|d rest].
    + rewrite replace_nil, app_nil_r. exact Hn.
    + pose proof (strip_prefix_Some _ _ _ E) as Hsplit.
      pose proof (strip_prefix_length _ _ _ E) as Hl.
      assert (Hr : head_solid (rev (d :: rest)) = true).
      { rewrite Hsplit, last_solid_app in Hs by discriminate. exact Hs. }
      assert (IHr : head_solid (rev (replace (a :: p) new (d :: rest))) = true).
      { apply (IH (length (d :: rest))); [cbn [length] in *; lia | reflexivity | exact Hr]. }
      rewrite last_solid_app by exact (last_solid_truthy _ IHr). exact IHr.
  - destruct s as [|d s].
    + rewrite replace_nil. exact Hs.
    + assert (Hr : head_solid (rev (d :: s)) = true).
      { change (c :: d :: s) with ([c] ++ d :: s) in Hs.
        rewrite last_solid_app in Hs by discriminate. exact Hs. }
      assert (IHr : head_solid (rev (replace (a :: p) new (d :: s))) = true).
      { apply (IH (length (d :: s))); [cbn [length]; lia | reflexivity | exact Hr]. }
      change (c :: replace (a :: p) new (d :: s))
        with ([c] ++ replace (a :: p) new (d :: s)).
      rewrite last_solid_app by exact (last_solid_truthy _ IHr). exact IHr.
Qed.

Lemma restore_tight reps v :
  Forall (fun kv => fst kv <> [] /\ is_tight (snd kv) = true) reps ->
  is_tight v = true -> is_tight (_restore_brackets v reps) = true.
Proof.
  intros Hall. revert v. induction Hall as [|[k g] reps [Hk Hg] _ IH]; intros v Hv.
  - exact Hv.
  - cbn [_restore_brackets]. apply IH. cbn [fst snd] in *.
    destruct k as [|a p]; [congruence|].
    unfold is_tight in *. apply andb_prop in Hg as [Hg1 Hg2].
    apply andb_prop in Hv as [Hv1 Hv2].
    rewrite replace_head_solid, replace_last_solid by assumption. reflexivity.
Qed.

Lemma Forall_dict_set {V} (P : pystr * V -> Prop) k (x : V) (d : dict V) :
  P (k, x) -> Forall P d -> Forall P (dict_set k x d).
Proof.
  intros Hx Hd. induction Hd as [|[k' y] d Hy Hd IH]; cbn [dict_set].
  - constructor; [exact Hx | constructor].
  - destruct (pystr_eqb k' k) eqn:E.
    + constructor; [|assumption].
      unfold pystr_eqb in E. apply bool_decide_eq_true in E. subst k'. exact Hx.
    + constructor; assumption.
Qed.

Lemma search_here here s before g rest :
  search here s = Some (before, g, rest) -> exists s', here s' = Some (g, rest).
Proof.
  revert before. induction s as [|c s IH]; intros before; cbn [search].
  - destruct (here []) as [[g' r']|] eqn:E; [|discriminate].
    intros [= <- <- <-]. exists []. exact E.
  - destruct (here (c :: s)) as [[g' r']|] eqn:E.
    + intros [= <- <- <-]. exists (c :: s). exact E.
    + destruct (search here s) as [[[b' g'] r']|]; [|discriminate].
      intros [= <- <- <-]. exact (IH b' eq_refl).
Qed.

(** The loops of [_protect_brackets] record tight originals only. *)
Lemma protect_loop_tight here tag fuel st :
  (forall s g rest, here s = Some (g, rest) -> is_tight g = true) ->
  Forall (fun kv => fst kv <> [] /\ is_tight (snd kv) = true) (ps_replacements st) ->
  Forall (fun kv => fst kv <> [] /\ is_tight (snd kv) = true)
    (ps_replacements (protect_loop here tag fuel st)).
Proof.
  intros Hhere. revert st. induction fuel as [|fuel IH]; intros st Hst; [exact Hst|].
  cbn [protect_loop].
  destruct (search here (ps_result st)) as [[[before g] rest]|] eqn:E; [|exact Hst].
  apply IH. cbn [ps_replacements]. apply Forall_dict_set; [|exact Hst].
  cbn [fst snd]. split; [discriminate|].
  destruct (search_here _ _ _ _ _ E) as [s' Hs']. exact (Hhere _ _ _ Hs').
Qed.

Lemma body_last_solid (body : pystr -> option (pystr * pystr)) closing opening :
  is_space closing = false ->
  (forall s, body s =
     match s with
     | [] => None
     | c :: r =>
         if (c =? closing)%N then Some ([c], r)
         else if (c =? opening)%N then None
         else match body r with
              | Some (g, rest) => Some (c :: g, rest)
              | None => None
              end
     end) ->
  forall s g rest, body s = Some (g, rest) -> head_solid (rev g) = true.
Proof.
  intros Hc Hbody. induction s as [|c s IH]; intros g rest; rewrite Hbody;
    [discriminate|].
  destruct (N.eqb_spec c closing) as [->|_].
  - intros [= <- <-]. cbn [rev app head_solid]. rewrite Hc. reflexivity.
  - destruct (c =? opening)%N; [discriminate|].
    destruct (body s) as [[g' r']|] eqn:E; [|discriminate].
    intros [= <- <-]. specialize (IH g' r' eq_refl).
    change (c :: g') with ([c] ++ g').
    rewrite last_solid_app by exact (last_solid_truthy _ IH). exact IH.
Qed.

Lemma paren_here_tight s g rest : paren_here s = Some (g, rest) -> is_tight g = true.
Proof.
  destruct s as [|c s]; cbn [paren_here]; [discriminate|].
  destruct (N.eqb_spec c c_lparen) as [->|]; [|discriminate].
  destruct (paren_body s) as [[g' r']|] eqn:E; [|discriminate].
  intros [= <- <-]. unfold is_tight. cbn [head_solid andb].
  assert (H : head_solid (rev g') = true).
  { apply (body_last_solid paren_body c_rparen c_lparen eq_refl) with (s := s) (rest := r');
      [|exact E].
    intros [|? ?]; reflexivity. }
  change (c_lparen :: g') with ([c_lparen] ++ g').
  rewrite last_solid_app by exact (last_solid_truthy _ H). exact H.
Qed.

Lemma curly_here_tight s g rest : curly_here s = Some (g, rest) -> is_tight g = true.
Proof.
  destruct s as [|c s]; cbn [curly_here]; [discriminate|].
  destruct (N.eqb_spec c c_lcurly) as [->|]; [|discriminate].
  destruct (startswith (py "wildcard_") s); [discriminate|].
  destruct (curly_body s) as [[g' r']|] eqn:E; [|discriminate].
  intros [= <- <-]. unfold is_tight. cbn [head_solid andb].
  assert (H : head_solid (rev g') = true).
  { apply (body_last_solid curly_body c_rcurly c_lcurly eq_refl) with (s := s) (rest := r');
      [|exact E].
    intros [|? ?]; reflexivity. }
  change (c_lcurly :: g') with ([c_lcurly] ++ g').
  rewrite last_solid_app by exact (last_solid_truthy _ H). exact H.
Qed.

Lemma protect_brackets_tight text :
  Forall (fun kv => fst kv <> [] /\ is_tight (snd kv) = true)
    (snd (_protect_brackets text)).
Proof.
  unfold _protect_brackets. cbn [snd].
  apply protect_loop_tight; [exact curly_here_tight|].
  apply protect_loop_tight; [exact paren_here_tight|].
  constructor.
Qed.

Lemma split_strip_tight d s v : In v (split_strip d s) -> is_tight v = true.
Proof.
  unfold split_strip. intros H. apply in_map_iff in H as (p & <- & Hp).
  apply filter_In in Hp as [_ Hp]. exact (strip_tight p Hp).
Qed.

Lemma split_values_tight t v : In v (split_values t) -> is_tight v = true.
Proof.
  unfold split_values. destruct (contains c_nl t).
  - intros H. apply in_flat_map in H as (line & _ & H). cbv zeta in H.
    destruct (truthy (strip line)) eqn:Ht; [|destruct H].
    destruct (contains c_pipe (strip line)); [exact (split_strip_tight _ _ _ H)|].
    destruct (contains c_comma (strip line)); [exact (split_strip_tight _ _ _ H)|].
    destruct H as [<-|[]]. exact (strip_tight line Ht).
  - destruct (contains c_pipe t); [apply split_strip_tight|].
    destruct (contains c_comma t); [apply split_strip_tight|].
    destruct (truthy (strip t)) eqn:Ht; [|intros []].
    intros [<-|[]]. exact (strip_tight t Ht).
Qed.
End Tight.

(** X16.  No value that [parse_value_list] returns is empty or has white
    space at one of its ends, whatever the brackets of the text are. *)
Theorem parse_value_list_values_tight (text v : pystr) :
  In v (parse_value_list text) -> v <> [] /\ strip v = v.
Proof.
  unfold parse_value_list.
  destruct (negb (truthy text) || negb (truthy (strip text))); [intros []|].
  pose proof (protect_brackets_tight text) as Hreps.
  destruct (_protect_brackets text) as [protected_text replacements].
  cbn [snd] in Hreps. unfold restore_values. intros H.
  apply in_flat_map in H as (value & Hvalue & H). cbv zeta in H.
  destruct (truthy (_restore_brackets value replacements)); [|destruct H].
  destruct H as [<-|[]]. apply tight_strip, restore_tight; [exact Hreps|].
  exact (split_values_tight _ _ Hvalue).
Qed.

Lemma parse_value_list_values_tight_witness :
  py "(b , c)" <> [] /\ strip (py "(b , c)") = py "(b , c)".
Proof.
  apply (parse_value_list_values_tight (py "  a |  (b , c)  | d ") (py "(b , c)")).
  vm_compute. right. left. reflexivity.
Defined.

(** X17.  The [dynamic_prompts] output for two or more values without
    brackets is a curly group, and [parse_value_list] reads it as one
    value: [format_as_dynamic_prompts] is no inverse of the parsing. *)
Theorem dynamic_prompts_output_is_one_value (values : list pystr) :
  2 <= length values ->
  forallb (fun v => negb (contains c_lparen v || contains c_lcurly v
                          || contains c_rcurly v)) values = true ->
  startswith (py "wildcard_") (join (py "|") values) = false ->
  parse_value_list (format_as_dynamic_prompts values)
  = [format_as_dynamic_prompts values]
  /\ format_as_dynamic_prompts values = py "{" ++ join (py "|") values ++ py "}".
Proof.
  intros Hlen Hall Hw.
  assert (Hno : forall c, In c [c_lparen; c_lcurly; c_rcurly] ->
                  contains c (join (py "|") values) = false).
  { intros c Hc. apply contains_join.
    - cbn [In] in Hc. destruct Hc as [<-|[<-|[<-|[]]]]; reflexivity.
    - apply forallb_forall. intros v Hv. rewrite forallb_forall in Hall.
      specialize (Hall v Hv). apply negb_true_iff in Hall.
      apply orb_false_elim in Hall as [Hall H3].
      apply orb_false_elim in Hall as [H1 H2].
      cbn [In] in Hc. destruct Hc as [<-|[<-|[<-|[]]]]; apply negb_true_iff; assumption. }
  set (g := join (py "|") values) in *.
  assert (Hf : format_as_dynamic_prompts values = c_lcurly :: g ++ [c_rcurly]).
  { destruct values as [|v1 [|v2 vs]]; cbn [length] in Hlen; try lia. reflexivity. }
  split; [|exact Hf]. rewrite Hf.
  unfold parse_value_list. rewrite truthy_strip. cbn [truthy forallb negb orb andb].
  change (is_space c_lcurly) with false. cbn [truthy forallb negb orb andb].
  rewrite (protect_single_curly g [])
    by (reflexivity || (apply Hno; cbn [In]; tauto) || assumption).
  change (split_values (py "__CURLY_0__" ++ [])) with [py "__CURLY_0__"].
  unfold restore_values. cbn [flat_map _restore_brackets].
  rewrite (replace_whole 95%N (List.tl (py "__CURLY_0__"))).
  reflexivity.
Qed.

Lemma dynamic_prompts_output_is_one_value_witness :
  parse_value_list (format_as_dynamic_prompts [py "red"; py "green"; py "blue"])
  = [format_as_dynamic_prompts [py "red"; py "green"; py "blue"]]
  /\ format_as_dynamic_prompts [py "red"; py "green"; py "blue"]
     = py "{" ++ join (py "|") [py "red"; py "green"; py "blue"] ++ py "}".
Proof.
  apply (dynamic_prompts_output_is_one_value [py "red"; py "green"; py "blue"]).
  - cbn [length]. lia.
  - reflexivity.
  - reflexivity.
Defined.

(** X18.  [combine_prompt] with a prefix and a suffix is [combine_strings]
    on prefix, text and suffix, unless one of the three has text made of
    commas and white space only. *)
Theorem combine_prompt_as_combine_strings (text prefix suffix separator : pystr) :
  comma_only prefix = false -> comma_only text = false ->
  comma_only suffix = false ->
  combine_prompt text (Some prefix) (Some suffix) separator
  = combine_strings [prefix; text; suffix] separator.
Proof.
  unfold comma_only, combine_prompt, combine_strings. intros Hp Ht Hs.
  cbv zeta. cbn [flat_map app].
  destruct (has_text (Some prefix)), (has_text (Some text)),
    (has_text (Some suffix));
    cbn [andb] in Hp, Ht, Hs; rewrite ?negb_false_iff in *;
    rewrite ?Hp, ?Ht, ?Hs; reflexivity.
Qed.

Lemma combine_prompt_as_combine_strings_witness :
  combine_prompt (py "a cat, ") (Some (py " ,best quality")) (Some (py "  ")) (py ", ")
  = combine_strings [py " ,best quality"; py "a cat, "; py "  "] (py ", ").
Proof.
  apply (combine_prompt_as_combine_strings (py "a cat, ") (py " ,best quality")
           (py "  ") (py ", ")); vm_compute; reflexivity.
Defined.

(** X19.  A prefix of commas and white space only is kept by
    [combine_prompt] as an empty part: the drafter node then returns the
    prompt with a separator before it, where [combine_strings] drops the
    part. *)
Theorem comma_only_prefix_leaves_separator (prefix text : pystr)
    (kwargs : dict pystr) :
  comma_only prefix = true ->
  text <> [] -> forallb is_solid text = true ->
  forallb (fun kv => negb (startswith (py "wildcard_") (fst kv))) kwargs = true ->
  PromptDrafter.process_single text prefix [] kwargs = py ", " ++ text
  /\ combine_strings [prefix; text; []] (py ", ") = text.
Proof.
  unfold comma_only. intros Hp Hne Hsolid Hk.
  apply andb_prop in Hp as [Hp1 Hp2]. apply negb_true_iff in Hp2.
  assert (Hp3 : _strip_commas prefix = [])
    by (destruct (_strip_commas prefix); [reflexivity | discriminate]).
  assert (Ht : has_text (Some text) = true).
  { unfold has_text. rewrite (solid_strip _ Hsolid).
    destruct text; [congruence | reflexivity]. }
  assert (Htr : truthy text = true) by (destruct text; [congruence | reflexivity]).
  split.
  - unfold PromptDrafter.process_single, PromptDrafter.collect_wildcard_values.
    rewrite (collect_without_wildcards kwargs [] Hk).
    unfold process_prompt, combine_prompt. cbv zeta.
    rewrite Hp1, Ht. change (has_text (Some [])) with false.
    rewrite Hp3, (strip_commas_solid _ Hsolid). cbn [app join].
    destruct text as [|c text]; [congruence|].
    cbn [join app].
    change (py ", " ++ c :: text) with (c_comma :: c_space :: c :: text).
    pose proof Hsolid as Hc. cbn [forallb] in Hc. apply andb_prop in Hc as [Hc _].
    unfold is_solid in Hc. apply andb_prop in Hc as [Hc1 Hc2].
    apply negb_true_iff in Hc1, Hc2.
    apply clean_prompt_fixed.
    + pose proof (solid_single_spaced _ Hsolid) as Hss.
      assert (Hcs : (c =? c_space)%N = false)
        by (destruct (N.eqb_spec c c_space) as [->|_]; [discriminate | reflexivity]).
      cbn [single_spaced head_is] in Hss |- *.
      change (c_comma =? c_space)%N with false.
      rewrite N.eqb_refl, Hcs in *. cbn [andb negb] in Hss |- *. exact Hss.
    + apply cn_sep; [exact Hc1 | exact (solid_comma_normal _ Hsolid)].
    + apply tight_strip. unfold is_tight. cbn [head_solid andb].
      change (c_comma :: c_space :: c :: text) with (py ", " ++ c :: text).
      rewrite last_solid_app by discriminate.
      destruct (rev (c :: text)) as [|d r] eqn:E.
      { apply (f_equal (@length char)) in E. rewrite length_rev in E. discriminate. }
      rewrite <- forallb_rev, E in Hsolid. cbn [forallb] in Hsolid.
      apply andb_prop in Hsolid as [Hd _]. unfold is_solid in Hd.
      apply andb_prop in Hd as [Hd _]. exact Hd.
    + pose proof (solid_endswith _ Hsolid) as He. unfold endswith in *.
      change (c_comma :: c_space :: c :: text) with (py ", " ++ c :: text).
      rewrite rev_app_distr. destruct (rev (c :: text)) as [|d r] eqn:E.
      { apply (f_equal (@length char)) in E. rewrite length_rev in E. discriminate. }
      exact He.
  - unfold combine_strings. cbn [flat_map]. cbv zeta.
    rewrite Hp1, Hp2, Ht, (strip_commas_solid _ Hsolid), Htr.
    change (has_text (Some [])) with false. cbn [app join]. reflexivity.
Qed.

Lemma comma_only_prefix_leaves_separator_witness :
  PromptDrafter.process_single (py "cat") (py " , ") [] [(py "seed", py "7")]
  = py ", " ++ py "cat"
  /\ combine_strings [py " , "; py "cat"; []] (py ", ") = py "cat".
Proof.
  apply (comma_only_prefix_leaves_separator (py " , ") (py "cat") [(py "seed", py "7")]).
  - vm_compute. reflexivity.
  - discriminate.
  - vm_compute. reflexivity.
  - vm_compute. reflexivity.
Defined.

(** ** The combiner node *)

Section Combiner.
Implicit Types (kwargs : gmap pystr pystr) (k v : pystr).

Lemma has_text_strip_commas s :
  truthy (_strip_commas s) = true -> has_text (Some s) = true.
Proof.
  unfold _strip_commas, has_text. destruct s as [|c s]; [discriminate|].
  cbn [truthy negb andb]. rewrite !truthy_strip. intros H.
  apply negb_true_iff in H. apply negb_true_iff.
  destruct (forallb is_space (c :: s)) eqn:E; [|reflexivity].
  rewrite (strip_blank _ E) in H. discriminate.
Qed.

(** The test of [combine_strings] for the cleaned part covers the tests
    for blank strings before it. *)
Lemma combine_strings_filter (strings : list pystr) separator :
  combine_strings strings separator
  = join separator (List.filter truthy (List.map _strip_commas strings)).
Proof.
  unfold combine_strings. f_equal.
  induction strings as [|s strings IH]; [reflexivity|].
  cbn [flat_map List.map List.filter]. rewrite IH. cbv zeta.
  destruct (truthy (_strip_commas s)) eqn:E.
  - rewrite (has_text_strip_commas s E). reflexivity.
  - destruct (has_text (Some s)); reflexivity.
Qed.

Lemma combine_inputs (get : nat -> pystr) (l : list nat) separator :
  combine_strings
    (flat_map
       (fun i =>
          let value := get i in
          if truthy value && truthy (strip value) then [value] else [])
       l)
    separator
  = join separator (List.filter truthy (List.map (fun i => _strip_commas (get i)) l)).
Proof.
  rewrite combine_strings_filter. f_equal.
  match goal with |- context [flat_map ?f _] => set (F := f) end.
  induction l as [|i l IH]; [reflexivity|].
  cbn [flat_map List.map List.filter].
  rewrite List.map_app, List.filter_app, IH. subst F. cbv beta zeta.
  destruct (truthy (_strip_commas (get i))) eqn:E.
  - pose proof (has_text_strip_commas _ E) as Ht. unfold has_text in Ht.
    rewrite Ht. cbn [app List.map List.filter]. rewrite E. reflexivity.
  - destruct (truthy (get i) && truthy (strip (get i)));
      [cbn [app List.map List.filter]; rewrite E|]; reflexivity.
Qed.
End Combiner.

(** X20.  The combiner node joins what [_strip_commas] leaves of its
    inputs [string_1] to [string_25], in this order, and drops the inputs
    of which nothing is left; a keyword that is none of the twenty-five
    changes nothing, and a blank input counts as a missing one. *)
Theorem combiner_joins_cleaned_inputs (input_count : Z)
    (kwargs : gmap pystr pystr) (k v : pystr) :
  PromptCombiner.process input_count kwargs
  = join (py ", ")
      (List.filter truthy
         (List.map (fun i => _strip_commas (default [] (kwargs !! string_key i)))
            (seq 1 PromptCombiner.MAX_INPUTS)))
  /\ ((forall i, In i (seq 1 PromptCombiner.MAX_INPUTS) -> k <> string_key i) ->
      PromptCombiner.process input_count (<[k := v]> kwargs)
      = PromptCombiner.process input_count kwargs)
  /\ (forallb is_space v = true ->
      PromptCombiner.process input_count (<[k := v]> kwargs)
      = PromptCombiner.process input_count (delete k kwargs)).
Proof.
  assert (Hfilter : forall kw,
    PromptCombiner.process input_count kw
    = join (py ", ")
        (List.filter truthy
           (List.map (fun i => _strip_commas (default [] (kw !! string_key i)))
              (seq 1 PromptCombiner.MAX_INPUTS)))).
  { intros kw. unfold PromptCombiner.process, string_key.
    apply (combine_inputs (fun i => default [] (kw !! (py "string_" ++ str_of_nat i)))). }
  split; [apply Hfilter|]. split.
  - intros Hk. rewrite (Hfilter (<[k := v]> kwargs)), (Hfilter kwargs).
    rewrite (map_ext_in _
               (fun i => _strip_commas (default [] (kwargs !! string_key i))));
      [reflexivity|].
    intros i Hi. rewrite lookup_insert_ne by exact (Hk i Hi). reflexivity.
  - intros Hv. rewrite (Hfilter (<[k := v]> kwargs)), (Hfilter (delete k kwargs)).
    rewrite (map_ext_in _
               (fun i => _strip_commas (default [] (delete k kwargs !! string_key i))));
      [reflexivity|].
    intros i _. generalize (string_key i). intros key.
    destruct (decide (k = key)) as [->|Hne].
    + rewrite lookup_insert_eq, lookup_delete_eq.
      change (default [] (Some v)) with v. change (default [] (@None pystr)) with (@nil char).
      unfold _strip_commas. destruct v as [|c v]; [reflexivity|].
      cbn [truthy negb]. rewrite (strip_blank _ Hv). reflexivity.
    + rewrite lookup_insert_ne, lookup_delete_ne by exact Hne. reflexivity.
Qed.

Lemma combiner_joins_cleaned_inputs_witness :
  PromptCombiner.process 2
    (<[py "string_26" := py "x"]> ({[ py "string_1" := py "a cat" ]} : gmap pystr pystr))
  = PromptCombiner.process 2 ({[ py "string_1" := py "a cat" ]} : gmap pystr pystr).
Proof.
  refine (proj1 (proj2 (combiner_joins_cleaned_inputs 2
            ({[ py "string_1" := py "a cat" ]} : gmap pystr pystr)
            (py "string_26") (py "x"))) _).
  intros i Hi. vm_compute in Hi.
  repeat (destruct Hi as [<-|Hi]; [vm_compute; discriminate|]). destruct Hi.
Defined.

(** ** Validation of the wildcard inputs *)

Section Validation.
Implicit Types (id k v : pystr) (values : dict pystr).

Lemma value_for_key id k v values :
  In (k, v) values -> key_id k = id -> exists w, value_for id values = Some w.
Proof.
  intros Hin Hk. induction values as [|[k' v'] values IH]; [destruct Hin|].
  cbn [value_for]. destruct (pystr_eqb (key_id k') id) eqn:E; [eauto|].
  destruct Hin as [[= -> ->]|Hin]; [|exact (IH Hin)].
  unfold pystr_eqb in E. apply bool_decide_eq_false in E. contradiction.
Qed.

Lemma key_id_full id : key_id (py "wildcard_" ++ id) = id.
Proof. unfold key_id. rewrite strip_prefix_app. reflexivity. Qed.

Lemma filter_nil_forall {A} (f : A -> bool) (l : list A) :
  List.filter f l = [] -> forall x, In x l -> f x = false.
Proof.
  induction l as [|a l IH]; cbn [List.filter]; [intros _ x []|].
  destruct (f a) eqn:E; [discriminate|].
  intros H x [<-|Hx]; [exact E | exact (IH H x Hx)].
Qed.

Lemma extract_token id :
  id <> [] -> forallb is_ident id = true ->
  extract_wildcard_names (token id) = [py "wildcard_" ++ id].
Proof.
  intros Hne Hid. unfold extract_wildcard_names.
  pose proof (wildcard_here_token id [] Hne Hid) as Hw. rewrite app_nil_r in Hw.
  change (token id) with (c_lcurly :: (py "wildcard_" ++ id ++ py "}")) in *.
  rewrite (findall_cons _ wildcard_here_consumes), Hw. reflexivity.
Qed.
End Validation.

(** X21.  When [validate_wildcards] finds no name missing, every
    placeholder of the text has a value in the dictionary that
    [replace_wildcards] will put for it.  The converse fails: the
    validation looks for the key with its prefix [wildcard_] only, so a
    key written without the prefix, which [replace_wildcards] accepts, is
    reported as missing. *)
Theorem validate_wildcards_sound_not_complete (text : pystr)
    (available_wildcards : dict pystr) (id value : pystr) :
  (fst (validate_wildcards text available_wildcards) = true ->
   In (Hit id) (pieces text) ->
   exists v, value_for id available_wildcards = Some v)
  /\ (id <> [] -> forallb is_ident id = true ->
      startswith (py "wildcard_") id = false ->
      contains c_lcurly value = false ->
      validate_wildcards (token id) [(id, value)]
        = (false, [py "wildcard_" ++ id])
      /\ replace_wildcards (token id) [(id, value)] = value).
Proof.
  split.
  - unfold validate_wildcards, get_required_wildcards. cbv zeta. cbn [fst].
    intros Hvalid Hin. apply Nat.eqb_eq in Hvalid. apply length_zero_iff_nil in Hvalid.
    apply findall_pieces in Hin.
    assert (Hname : In (py "wildcard_" ++ id) (extract_wildcard_names text)).
    { unfold extract_wildcard_names.
      apply (unique_full_names_covers (findall wildcard_here text) [] []);
        [intros x [] | exact Hin]. }
    pose proof (filter_nil_forall _ _ Hvalid _ Hname) as Hhas.
    apply negb_false_iff, existsb_exists in Hhas as ([k v] & Hkv & Hk).
    cbn [fst] in Hk. unfold pystr_eqb in Hk. apply bool_decide_eq_true in Hk.
    subst k. exact (value_for_key id _ v _ Hkv (key_id_full id)).
  - intros Hne Hid Hsw Hvalue.
    assert (Hdiff : id <> py "wildcard_" ++ id).
    { intros E. apply (f_equal (@length char)) in E. rewrite length_app in E.
      change (length (py "wildcard_")) with 9 in E. lia. }
    assert (Hkey : key_id id = id).
    { unfold key_id. unfold startswith in Hsw.
      destruct (strip_prefix (py "wildcard_") id); [discriminate | reflexivity]. }
    assert (Hval : value_for id [(id, value)] = Some value).
    { cbn [value_for]. rewrite Hkey. unfold pystr_eqb.
      rewrite bool_decide_true by reflexivity. reflexivity. }
    split.
    + unfold validate_wildcards, get_required_wildcards. cbv zeta.
      rewrite (extract_token id Hne Hid). cbn [List.filter existsb fst].
      unfold pystr_eqb. rewrite bool_decide_false by exact Hdiff. reflexivity.
    + rewrite replace_wildcards_pieces.
      * unfold pieces. pose proof (wildcard_here_token id [] Hne Hid) as Hw.
        rewrite app_nil_r in Hw.
        change (token id) with (c_lcurly :: (py "wildcard_" ++ id ++ py "}")) in *.
        rewrite (scan_cons _ wildcard_here_consumes), Hw.
        cbn [scan scan_fuel length flat_map substituted]. rewrite Hval.
        apply app_nil_r.
      * rewrite <- (app_nil_r (token id)).
        apply braces_open_wildcards_token; [assumption..|reflexivity].
      * unfold plain_values. cbn [forallb fst snd]. rewrite Hkey, Hid, Hvalue.
        reflexivity.
Qed.

Lemma validate_wildcards_sound_not_complete_witness :
  (exists v, value_for (py "color") [(py "wildcard_color", py "red")] = Some v)
  /\ validate_wildcards (token (py "color")) [(py "color", py "red")]
       = (false, [py "wildcard_" ++ py "color"])
  /\ replace_wildcards (token (py "color")) [(py "color", py "red")] = py "red".
Proof.
  split.
  - apply (validate_wildcards_sound_not_complete (py "a {wildcard_color} car")
             [(py "wildcard_color", py "red")] (py "color") (py "red")).
    + vm_compute. reflexivity.
    + vm_compute. do 2 right. left. reflexivity.
  - apply (validate_wildcards_sound_not_complete [] [] (py "color") (py "red"));
      (discriminate || reflexivity).
Defined.

(** ** Substitution in a text with braces of its own *)

Section Stray.
Implicit Types (s u v n id rest : pystr) (c : char) (g : pystr -> pystr).
Implicit Types (ps : list (piece (A := pystr))).

Lemma has_wildcard_here s : has_wildcard s = false -> wildcard_here s = None.
Proof.
  unfold has_wildcard. destruct s as [|c s]; [reflexivity|].
  rewrite (findall_cons _ wildcard_here_consumes).
  destruct (wildcard_here (c :: s)) as [[a r]|]; [discriminate | reflexivity].
Qed.

Lemma has_wildcard_tail c s : has_wildcard (c :: s) = false -> has_wildcard s = false.
Proof.
  unfold has_wildcard. rewrite (findall_cons _ wildcard_here_consumes).
  destruct (wildcard_here (c :: s)) as [[a r]|]; [discriminate | exact id].
Qed.

Lemma has_wildcard_app a b : has_wildcard (a ++ b) = false -> has_wildcard b = false.
Proof.
  induction a as [|c a IH]; [exact id|].
  intros H. exact (IH (has_wildcard_tail c _ H)).
Qed.

Lemma render_lits u : flat_map render_piece (List.map Lit u) = u.
Proof. induction u as [|c u IH]; [reflexivity|]. cbn [List.map flat_map render_piece app]. rewrite IH. reflexivity. Qed.

Lemma fill_lits g u : flat_map (fill g) (List.map Lit u) = u.
Proof. induction u as [|c u IH]; [reflexivity|]. cbn [List.map flat_map fill app]. rewrite IH. reflexivity. Qed.

(** The characters before the first opening brace are pieces of their
    own. *)
Lemma lits_prefix u ps rest :
  Forall (fun c => c <> c_lcurly) u ->
  flat_map render_piece ps = u ++ rest ->
  exists ps2, ps = List.map Lit u ++ ps2 /\ flat_map render_piece ps2 = rest.
Proof.
  intros Hu. revert ps. induction Hu as [|a u Ha _ IH]; intros ps Hps.
  - exists ps. split; [reflexivity | exact Hps].
  - destruct ps as [|[c|id] ps]; [discriminate| |].
    + cbn [flat_map render_piece app] in Hps.
      assert (c = a) by (apply (f_equal (hd 0%N)) in Hps; exact Hps).
      assert (Ht : flat_map render_piece ps = u ++ rest)
        by (apply (f_equal (@List.tl char)) in Hps; exact Hps).
      subst c. destruct (IH ps Ht) as (ps2 & -> & Hr).
      exists ps2. split; [reflexivity | exact Hr].
    + exfalso. apply Ha. cbn [flat_map render_piece] in Hps.
      change (token id) with (c_lcurly :: (py "wildcard_" ++ id ++ py "}")) in Hps.
      apply (f_equal (hd 0%N)) in Hps. symmetry. exact Hps.
Qed.

(** At a character of the text that is no placeholder the pattern does
    not match, when filling the placeholders in gives a text without
    placeholder. *)
Lemma head_no_match g c ps :
  has_wildcard (flat_map (fill g) (Lit c :: ps)) = false ->
  wildcard_here (c :: flat_map render_piece ps) = None.
Proof.
  intros H.
  destruct (wildcard_here (c :: flat_map render_piece ps)) as [[id rest]|] eqn:E;
    [|reflexivity].
  exfalso. apply wildcard_here_Some in E as (Heq & Hne & Hid).
  change (token id) with (c_lcurly :: (py "wildcard_" ++ id ++ py "}")) in Heq.
  assert (Hc : c = c_lcurly) by (apply (f_equal (hd 0%N)) in Heq; exact Heq).
  assert (Ht : flat_map render_piece ps = (py "wildcard_" ++ id ++ py "}") ++ rest)
    by (apply (f_equal (@List.tl char)) in Heq; exact Heq).
  destruct (lits_prefix _ _ _ (token_plain id Hid) Ht) as (ps2 & -> & _).
  apply has_wildcard_here in H.
  assert (Hf : flat_map (fill g)
                 (Lit c :: List.map Lit (py "wildcard_" ++ id ++ py "}") ++ ps2)
               = token id ++ flat_map (fill g) ps2).
  { cbn [flat_map fill]. rewrite flat_map_app, fill_lits. subst c.
    unfold token. rewrite <- !app_assoc. reflexivity. }
  rewrite Hf, (wildcard_here_token id _ Hne Hid) in H. discriminate.
Qed.

Lemma no_match_no_token n c s :
  n <> [] -> forallb is_ident n = true ->
  wildcard_here (c :: s) = None -> strip_prefix (token n) (c :: s) = None.
Proof.
  intros Hne Hn Hw. destruct (strip_prefix (token n) (c :: s)) as [rest|] eqn:E;
    [|reflexivity].
  apply strip_prefix_Some in E. rewrite E, (wildcard_here_token n rest Hne Hn) in Hw.
  discriminate.
Qed.

(** [str.replace] of a placeholder goes piece by piece. *)
Lemma replace_pieces g n v ps :
  n <> [] -> forallb is_ident n = true -> Forall valid_hit ps ->
  has_wildcard (flat_map (fill g) ps) = false ->
  replace (token n) v (flat_map render_piece ps)
  = flat_map render_piece (flat_map (replace_hit n v) ps).
Proof.
  intros Hne Hn Hps. induction Hps as [|[c|m] ps Hp _ IH]; intros Hg.
  - reflexivity.
  - cbn [flat_map render_piece replace_hit app] in *.
    pose proof (no_match_no_token n c _ Hne Hn (head_no_match g c ps Hg)) as E.
    change (token n) with (c_lcurly :: (py "wildcard_" ++ n ++ py "}")) in *.
    rewrite replace_cons, E, (IH (has_wildcard_tail _ _ Hg)). reflexivity.
  - destruct Hp as [Hmne Hm].
    cbn [flat_map render_piece replace_hit] in *.
    specialize (IH (has_wildcard_app _ _ Hg)).
    unfold pystr_eqb. destruct (decide (m = n)) as [->|Hdiff].
    + rewrite bool_decide_true by reflexivity.
      rewrite flat_map_app, render_lits.
      change (token n) with (c_lcurly :: (py "wildcard_" ++ n ++ py "}")) at 1 2.
      cbn [app]. rewrite replace_cons.
      change (c_lcurly :: (py "wildcard_" ++ n ++ py "}")) with (token n).
      change (c_lcurly :: (py "wildcard_" ++ n ++ py "}") ++ flat_map render_piece ps)
        with (token n ++ flat_map render_piece ps).
      rewrite strip_prefix_app, IH. reflexivity.
    + rewrite bool_decide_false by exact Hdiff. cbn [flat_map render_piece].
      destruct (strip_prefix (token n) (token m ++ flat_map render_piece ps)) eqn:E.
      { exfalso. apply Hdiff. symmetry.
        apply (token_prefix n m (flat_map render_piece ps) Hn Hm).
        rewrite E. discriminate. }
      change (token n) with (c_lcurly :: (py "wildcard_" ++ n ++ py "}")) in *.
      change (token m) with (c_lcurly :: (py "wildcard_" ++ m ++ py "}")) in *.
      cbn [app] in *. rewrite replace_cons, E.
      rewrite replace_plain by (apply token_plain; exact Hm).
      rewrite IH. reflexivity.
Qed.

Lemma replace_hit_valid n v ps :
  Forall valid_hit ps -> Forall valid_hit (flat_map (replace_hit n v) ps).
Proof.
  induction 1 as [|[c|m] ps Hp _ IH]; [constructor| |].
  - cbn [flat_map replace_hit app]. constructor; [exact I | exact IH].
  - cbn [flat_map replace_hit]. apply Forall_app. split; [|exact IH].
    destruct (pystr_eqb m n).
    + apply List.Forall_forall. intros p Hin.
      apply in_map_iff in Hin as (c & <- & _). exact I.
    + constructor; [exact Hp | constructor].
Qed.

Lemma replace_hit_nil n ps :
  flat_map (replace_hit n []) ps = List.filter (other_than n) ps.
Proof.
  induction ps as [|[c|m] ps IH]; [reflexivity| |].
  - cbn [flat_map replace_hit List.filter other_than app]. rewrite IH. reflexivity.
  - cbn [flat_map replace_hit List.filter other_than]. rewrite IH.
    destruct (pystr_eqb m n); reflexivity.
Qed.

Lemma substituted_lits values u : flat_map (substituted values) (List.map Lit u) = u.
Proof. exact (fill_lits _ u). Qed.

Lemma str_or_empty_id v : str_or_empty v = v.
Proof. destruct v; reflexivity. Qed.

(** Substituting the first key and then the others is substituting
    all. *)
Lemma substituted_replace_hit k v more ps :
  flat_map (substituted more) (flat_map (replace_hit (key_id k) v) ps)
  = flat_map (substituted ((k, v) :: more)) ps.
Proof.
  induction ps as [|[c|m] ps IH]; [reflexivity| |].
  - cbn [flat_map replace_hit substituted app]. rewrite IH. reflexivity.
  - cbn [flat_map replace_hit]. rewrite flat_map_app, IH. f_equal.
    cbn [substituted value_for]. unfold pystr_eqb.
    destruct (decide (m = key_id k)) as [->|Hdiff].
    + rewrite !bool_decide_true by reflexivity. apply substituted_lits.
    + rewrite (bool_decide_false (m = key_id k)) by exact Hdiff.
      rewrite (bool_decide_false (key_id k = m)) by congruence.
      cbn [flat_map substituted]. apply app_nil_r.
Qed.

Lemma deleted_filter n ps :
  flat_map (substituted []) (List.filter (other_than n) ps)
  = flat_map (substituted []) ps.
Proof.
  induction ps as [|[c|m] ps IH]; [reflexivity| |].
  - cbn [List.filter other_than flat_map substituted app]. rewrite IH. reflexivity.
  - cbn [List.filter other_than]. destruct (negb (pystr_eqb m n)).
    + cbn [flat_map]. rewrite IH. reflexivity.
    + rewrite IH. reflexivity.
Qed.

(** The pieces of the rendered text are the pieces. *)
Lemma pieces_render g ps :
  Forall valid_hit ps -> has_wildcard (flat_map (fill g) ps) = false ->
  pieces (flat_map render_piece ps) = ps.
Proof.
  induction 1 as [|[c|m] ps Hp _ IH]; intros Hg; [reflexivity| |].
  - cbn [flat_map render_piece app] in *.
    rewrite pieces_cons, (head_no_match g c ps Hg), (IH (has_wildcard_tail _ _ Hg)).
    reflexivity.
  - destruct Hp as [Hne Hm]. cbn [flat_map render_piece fill] in *.
    pose proof (wildcard_here_token m (flat_map render_piece ps) Hne Hm) as Hw.
    change (token m) with (c_lcurly :: (py "wildcard_" ++ m ++ py "}")) in *.
    cbn [app] in *. rewrite pieces_cons, Hw, (IH (has_wildcard_app _ _ Hg)).
    reflexivity.
Qed.

Lemma pieces_valid s : Forall valid_hit (pieces s).
Proof.
  induction s as [s IH] using by_length.
  destruct s as [|c s]; [constructor|]. rewrite pieces_cons.
  destruct (wildcard_here (c :: s)) as [[id rest]|] eqn:E.
  - pose proof (wildcard_here_consumes _ _ _ E) as Hlen.
    apply wildcard_here_Some in E as (_ & Hne & Hid).
    constructor; [split; assumption | exact (IH rest Hlen)].
  - constructor; [exact I | apply IH; simpl; lia].
Qed.

(** The first loop of [replace_wildcards], piece by piece. *)
Lemma apply_values_pieces values : forall ps,
  keys_are_names values = true -> Forall valid_hit ps ->
  has_wildcard (flat_map (substituted values) ps) = false ->
  exists ps',
    apply_values (flat_map render_piece ps) values = flat_map render_piece ps'
    /\ Forall valid_hit ps'
    /\ flat_map (substituted []) ps' = flat_map (substituted values) ps.
Proof.
  induction values as [|[k v] more IH]; intros ps Hk Hps Hout.
  - exists ps. repeat split; [exact Hps].
  - cbn [keys_are_names forallb fst] in Hk. apply andb_prop in Hk as [Hkey Hk].
    apply andb_prop in Hkey as [Hne Hid].
    assert (Hne' : key_id k <> []) by (destruct (key_id k); [discriminate | discriminate]).
    cbn [apply_values]. rewrite pattern_of_name_token, str_or_empty_id.
    rewrite (replace_pieces (fun id => default [] (value_for id ((k, v) :: more)))
               (key_id k) v ps Hne' Hid Hps Hout).
    destruct (IH (flat_map (replace_hit (key_id k) v) ps) Hk
                (replace_hit_valid _ _ _ Hps)) as (ps' & Hr & Hv & Hfill).
    { rewrite substituted_replace_hit. exact Hout. }
    exists ps'. split; [exact Hr|]. split; [exact Hv|].
    rewrite Hfill. apply substituted_replace_hit.
Qed.

(** The second loop, on a text with braces of its own. *)
Lemma blank_remaining_stray names ps :
  Forall (fun x => exists n, x = py "wildcard_" ++ n /\ n <> []
                             /\ forallb is_ident n = true) names ->
  Forall valid_hit ps ->
  has_wildcard (flat_map (substituted []) ps) = false ->
  blank_remaining (flat_map render_piece ps) names
  = flat_map render_piece (List.filter (fun p => negb (named_in names p)) ps).
Proof.
  intros Hnames. revert ps.
  induction Hnames as [|x names (n & -> & Hne & Hn) _ IH]; intros ps Hps Hout;
    cbn [blank_remaining].
  - f_equal. symmetry. apply forallb_filter_id.
    apply forallb_forall. intros [c|id] _; reflexivity.
  - change (py "{" ++ (py "wildcard_" ++ n) ++ py "}") with (token n).
    rewrite (replace_pieces (fun _ => []) n [] ps Hne Hn Hps Hout), replace_hit_nil.
    rewrite IH; [|apply Forall_filter_list; exact Hps
                 |rewrite deleted_filter; exact Hout].
    f_equal. rewrite filter_twice. apply List.filter_ext. intros p.
    destruct p as [c|id]; cbn [other_than named_in existsb]; [reflexivity|].
    rewrite negb_orb. f_equal. f_equal. unfold pystr_eqb.
    apply bool_decide_ext. split; [intros ->; reflexivity|].
    intros H. exact (app_inv_head _ _ _ H).
Qed.

Lemma extracted_names r :
  Forall (fun x => exists n, x = py "wildcard_" ++ n /\ n <> []
                             /\ forallb is_ident n = true)
    (extract_wildcard_names r).
Proof.
  apply List.Forall_forall. intros x Hx. unfold extract_wildcard_names in Hx.
  apply unique_full_names_sound in Hx as [[]|(m & Hm & ->)].
  exists m. split; [reflexivity|]. apply findall_pieces in Hm.
  pose proof (pieces_valid r) as Hv. rewrite List.Forall_forall in Hv.
  exact (Hv _ Hm).
Qed.

(** When the text without its placeholders holds no placeholder, the
    second loop deletes the placeholders and nothing else. *)
Lemma blank_remaining_deletes_stray r :
  has_wildcard (without_placeholders r) = false ->
  blank_remaining r (extract_wildcard_names r) = without_placeholders r.
Proof.
  intros Hr. rewrite <- (render_pieces r) at 1.
  rewrite (blank_remaining_stray _ _ (extracted_names r) (pieces_valid r) Hr).
  unfold without_placeholders, sub. fold (pieces r).
  assert (Hcov : forall id, In (Hit id) (pieces r) ->
                   named_in (extract_wildcard_names r) (Hit id) = true).
  { intros id Hin. apply findall_pieces in Hin. cbn [named_in].
    apply existsb_exists. exists (py "wildcard_" ++ id). split.
    - apply unique_full_names_covers; [intros x [] | exact Hin].
    - unfold pystr_eqb. apply bool_decide_eq_true. reflexivity. }
  induction (pieces r) as [|[c|id] segs IH]; [reflexivity| |].
  - cbn [List.filter named_in negb flat_map render_piece].
    rewrite IH; [reflexivity|]. intros id Hin. apply Hcov. right. exact Hin.
  - cbn [List.filter]. rewrite (Hcov id) by (left; reflexivity).
    cbn [negb flat_map app]. apply IH. intros id' Hin. apply Hcov. right. exact Hin.
Qed.

(** [replace_wildcards] is the substitution of the specification when
    the substituted text holds no placeholder. *)
Lemma replace_wildcards_substitution text values :
  keys_are_names values = true ->
  has_wildcard (substitution text values) = false ->
  replace_wildcards text values = substitution text values.
Proof.
  unfold substitution. intros Hk Hout. unfold replace_wildcards.
  destruct (apply_values_pieces values (pieces text) Hk (pieces_valid text) Hout)
    as (ps' & Hr & Hv & Hfill).
  rewrite render_pieces in Hr. rewrite Hr, <- Hfill.
  rewrite <- Hfill in Hout.
  assert (Hw : without_placeholders (flat_map render_piece ps')
               = flat_map (substituted []) ps').
  { unfold without_placeholders, sub. fold (pieces (flat_map render_piece ps')).
    rewrite (pieces_render (fun _ => []) ps' Hv Hout). reflexivity. }
  rewrite <- Hw. apply blank_remaining_deletes_stray. rewrite Hw. exact Hout.
Qed.
End Stray.

(** C4, as the code has it.  For a dictionary whose keys stand for
    identifiers, [replace_wildcards] returns the text with every
    placeholder replaced by the value of the first key that stands for it,
    or by the empty string when there is none, and this output holds no
    placeholder, exactly when the text so substituted holds no
    placeholder: the two loops work on the names, one after the other, and
    do not see a placeholder that the replacements put together.  (A key
    that stands for no identifier is another matter: see
    [key_that_is_no_name].) *)
Theorem blank_fill_leaves_no_placeholder (text : pystr) (values : dict pystr) :
  keys_are_names values = true ->
  has_wildcard (substitution text values) = false
  <-> replace_wildcards text values = substitution text values
      /\ has_wildcard (replace_wildcards text values) = false.
Proof.
  intros Hk. split.
  - intros Hout. rewrite (replace_wildcards_substitution text values Hk Hout).
    split; [reflexivity | exact Hout].
  - intros [Heq Hno]. rewrite <- Heq. exact Hno.
Qed.

Lemma blank_fill_leaves_no_placeholder_witness :
  replace_wildcards (py "{wildcard_a}, {wildcard_b} {x|y} {wildcard_a}")
    [(py "wildcard_a", py "{red|blue}"); (py "a", py "no")]
  = py "{red|blue},  {x|y} {red|blue}"
  /\ has_wildcard
       (replace_wildcards (py "{wildcard_a}, {wildcard_b} {x|y} {wildcard_a}")
          [(py "wildcard_a", py "{red|blue}"); (py "a", py "no")]) = false.
Proof.
  apply (blank_fill_leaves_no_placeholder
           (py "{wildcard_a}, {wildcard_b} {x|y} {wildcard_a}")
           [(py "wildcard_a", py "{red|blue}"); (py "a", py "no")]).
  - vm_compute. reflexivity.
  - vm_compute. reflexivity.
Defined.

(** A key that does not stand for an identifier makes the first loop
    replace a text that is no placeholder. *)
Lemma key_that_is_no_name :
  replace_wildcards (py "{wildcard_a b}") [(py "a b", py "X")] = py "X"
  /\ substitution (py "{wildcard_a b}") [(py "a b", py "X")] = py "{wildcard_a b}".
Proof. vm_compute. split; reflexivity. Qed.

(** C2, as the code has it.  The second loop collects its names from the
    text after the values were substituted, so the placeholders that a
    value brought in are deleted like the others: for every text and every
    dictionary the output is the substituted text without its placeholders,
    and holds no placeholder, exactly when the substituted text without
    its placeholders holds none.  In particular a value substituted for
    its own placeholder comes out without the placeholders it held. *)
Theorem injected_placeholders_are_blanked (text : pystr) (values : dict pystr)
    (name value : pystr) :
  (has_wildcard (without_placeholders (apply_values text values)) = false
   <-> replace_wildcards text values = without_placeholders (apply_values text values)
       /\ has_wildcard (replace_wildcards text values) = false)
  /\ (has_wildcard (without_placeholders value) = false
      <-> replace_wildcards (pattern_of_name name) [(name, value)]
          = without_placeholders value
          /\ has_wildcard (replace_wildcards (pattern_of_name name) [(name, value)])
             = false).
Proof.
  assert (Hgen : forall t vs,
            has_wildcard (without_placeholders (apply_values t vs)) = false
            <-> replace_wildcards t vs = without_placeholders (apply_values t vs)
                /\ has_wildcard (replace_wildcards t vs) = false).
  { intros t vs. split.
    - intros H. unfold replace_wildcards.
      rewrite (blank_remaining_deletes_stray _ H). split; [reflexivity | exact H].
    - intros [Heq Hno]. rewrite <- Heq. exact Hno. }
  split; [apply Hgen|].
  assert (Hv : apply_values (pattern_of_name name) [(name, value)] = value).
  { cbn [apply_values]. rewrite str_or_empty_id. unfold pattern_of_name.
    destruct (startswith (py "wildcard_") name); apply replace_whole. }
  pose proof (Hgen (pattern_of_name name) [(name, value)]) as H.
  rewrite Hv in H. exact H.
Qed.

Lemma injected_placeholders_are_blanked_witness :
  (replace_wildcards (py "{wildcard_a} {c|d}")
     [(py "a", py "x {wildcard_b} y"); (py "e", py "{wildcard_f}")]
   = py "x  y {c|d}"
   /\ has_wildcard
        (replace_wildcards (py "{wildcard_a} {c|d}")
           [(py "a", py "x {wildcard_b} y"); (py "e", py "{wildcard_f}")]) = false)
  /\ (replace_wildcards (pattern_of_name (py "a")) [(py "a", py "{x {wildcard_b} y")]
      = py "{x  y"
      /\ has_wildcard
           (replace_wildcards (pattern_of_name (py "a"))
              [(py "a", py "{x {wildcard_b} y")]) = false).
Proof.
  split.
  - apply (proj1 (proj1 (injected_placeholders_are_blanked (py "{wildcard_a} {c|d}")
             [(py "a", py "x {wildcard_b} y"); (py "e", py "{wildcard_f}")] [] []))).
    vm_compute. reflexivity.
  - apply (proj1 (proj2 (injected_placeholders_are_blanked [] []
             (py "a") (py "{x {wildcard_b} y")))).
    vm_compute. reflexivity.
Defined.

(** ** The commas of a cleaned prompt *)

Section Commas.
Implicit Types (s r : pystr) (c : char).

Lemma count_comma_lstrip s : count_char c_comma (lstrip s) = count_char c_comma s.
Proof.
  induction s as [|c s IH]; [reflexivity|]. cbn [lstrip].
  destruct (is_space c) eqn:E; [|reflexivity].
  rewrite count_char_cons, IH.
  destruct (N.eqb_spec c_comma c) as [<-|_]; [discriminate | reflexivity].
Qed.

Lemma count_char_rev c s : count_char c (rev s) = count_char c s.
Proof.
  induction s as [|d s IH]; [reflexivity|]. cbn [rev].
  rewrite count_char_app, IH, (count_char_cons c d s), (count_char_cons c d []).
  change (count_char c []) with 0. lia.
Qed.

Lemma count_comma_strip s : count_char c_comma (strip s) = count_char c_comma s.
Proof.
  unfold strip, rstrip.
  rewrite count_char_rev, count_comma_lstrip, count_char_rev, count_comma_lstrip.
  reflexivity.
Qed.

Lemma count_comma_skip_spaces s :
  count_char c_comma (skip_spaces s) = count_char c_comma s.
Proof.
  induction s as [|c s IH]; [reflexivity|]. cbn [skip_spaces].
  destruct (N.eqb_spec c c_space) as [->|_]; [|reflexivity].
  rewrite count_char_cons, IH. reflexivity.
Qed.

Lemma count_comma_collapse s : count_char c_comma (collapse s) = count_char c_comma s.
Proof.
  induction s as [s IH] using by_length.
  destruct s as [|c s]; [reflexivity|]. rewrite collapse_cons.
  destruct (N.eqb_spec c c_space) as [->|_].
  - rewrite !count_char_cons, IH, count_comma_skip_spaces; [reflexivity|].
    pose proof (skip_spaces_length s). simpl. lia.
  - rewrite !count_char_cons, IH; [reflexivity | simpl; lia].
Qed.

Lemma count_comma_commas s : count_char c_comma (commas s) = count_char c_comma s.
Proof.
  induction s as [s IH] using by_length.
  destruct s as [|c s]; [reflexivity|]. rewrite commas_cons.
  destruct (next_is_comma (c :: s)) eqn:E.
  - unfold next_is_comma in E.
    pose proof (lstrip_length (c :: s)) as Hlen.
    rewrite <- (count_comma_lstrip (c :: s)).
    destruct (lstrip (c :: s)) as [|d r]; [discriminate|].
    cbn [head_is] in E. apply N.eqb_eq in E. subst d. cbn [List.tl].
    rewrite !count_char_cons, IH, count_comma_lstrip.
    + rewrite N.eqb_refl. change (c_comma =? c_space)%N with false. reflexivity.
    + pose proof (lstrip_length r). simpl in Hlen |- *. lia.
  - rewrite !count_char_cons, IH; [reflexivity | simpl; lia].
Qed.

(** Cleaning a text that ends with a comma changes it. *)
Lemma clean_prompt_moves_trailing_comma s :
  endswith c_comma s = true -> clean_prompt s <> s.
Proof.
  intros Hend Heq. destruct s as [|c s]; [discriminate|].
  unfold clean_prompt in Heq. cbn [truthy negb] in Heq.
  fold (collapse (c :: s)) in Heq. fold (commas (collapse (c :: s))) in Heq.
  set (t := strip (commas (collapse (c :: s)))) in *.
  assert (Ht : count_char c_comma t = count_char c_comma (c :: s)).
  { subst t. rewrite count_comma_strip, count_comma_commas, count_comma_collapse.
    reflexivity. }
  destruct (endswith c_comma t) eqn:Et.
  - apply (f_equal (count_char c_comma)) in Heq.
    rewrite count_comma_strip, <- Ht in Heq.
    rewrite (endswith_last _ _ Et) in Heq at 2.
    rewrite count_char_app, (count_char_cons c_comma c_comma []) in Heq.
    rewrite N.eqb_refl in Heq. lia.
  - rewrite Heq in Et. congruence.
Qed.
End Commas.

(** C3 fails, by a defect of the last step of [clean_prompt].  The step
    that is to remove the trailing comma removes one comma, and the text
    before it may end with a comma of its own: [clean_prompt] of [a,,]
    is [a,], and the drafter node returns this for the prompt
    [a, {wildcard_x}, {wildcard_y}] with two empty values.  Cleaning again
    takes the comma, so [clean_prompt] is idempotent on a text exactly
    when the cleaned text does not end with a comma. *)
Theorem clean_prompt_keeps_trailing_comma :
  clean_prompt (py "a,,") = py "a,"
  /\ PromptDrafter.process_single (py "a, {wildcard_x}, {wildcard_y}") [] []
       [(py "wildcard_x", []); (py "wildcard_y", [])] = py "a,"
  /\ clean_prompt (clean_prompt (py "a,,")) <> clean_prompt (py "a,,")
  /\ (forall x, clean_prompt (clean_prompt x) = clean_prompt x
                <-> endswith c_comma (clean_prompt x) = false).
Proof.
  split; [vm_compute; reflexivity|].
  split; [vm_compute; reflexivity|].
  split; [vm_compute; discriminate|].
  intros x. split.
  - intros Heq. destruct (endswith c_comma (clean_prompt x)) eqn:E; [|reflexivity].
    exfalso. exact (clean_prompt_moves_trailing_comma _ E Heq).
  - apply clean_prompt_idempotent_without_trailing_comma.
Qed.

(** ** The delimiters of a joined list *)

Section JoinedList.
Implicit Types (v : pystr) (values vs : list pystr) (d : char).

Lemma split_values_join d (pre post : pystr) values :
  In d [c_nl; c_pipe; c_comma] ->
  is_padding pre = true -> is_padding post = true ->
  forallb is_plain_value values = true ->
  split_values (join (pre ++ d :: post) values) = values.
Proof.
  intros Hd Hpre Hpost Hall.
  destruct values as [|v vs]; [reflexivity|].
  set (sep := pre ++ d :: post). set (text := join sep (v :: vs)).
  assert (Hsp : d <> c_space)
    by (cbn [In] in Hd; destruct Hd as [<-|[<-|[<-|[]]]]; discriminate).
  assert (Hno : forall c, In c [c_nl; c_pipe; c_comma; c_lparen; c_lcurly] ->
                  c <> d -> contains c text = false).
  { intros c Hc Hcd. apply contains_join.
    - unfold sep. rewrite contains_app. cbn [contains existsb].
      fold (contains c pre). fold (contains c post).
      assert (c <> c_space)
        by (cbn [In] in Hc; destruct Hc as [<-|[<-|[<-|[<-|[<-|[]]]]]]; discriminate).
      rewrite !padding_contains by assumption.
      destruct (N.eqb_spec c d); [contradiction | reflexivity].
    - apply plain_values_without; assumption. }
  assert (Hmap : List.map strip (split d text) = v :: vs).
  { pose proof (map_strip_split_join d pre post [] v vs Hsp Hpre Hpost eq_refl
                  (plain_values_without d _
                     ltac:(cbn [In] in *; tauto) Hall)) as H.
    cbn [app] in H. fold sep in H. fold text in H.
    rewrite H. apply map_strip_plain, Hall. }
  pose proof Hall as Hall'. cbn [forallb] in Hall'.
  apply andb_prop in Hall' as [Hv Hvs].
  destruct (plain_value_inv v Hv) as (Hne & Hs & Hb & Hv1 & Hv2 & Hv3 & _).
  unfold split_values.
  destruct vs as [|v' vs].
  { change text with v in *. rewrite Hv1, Hv2, Hv3, Hs.
    destruct v; [congruence | reflexivity]. }
  assert (Hin : contains d text = true)
    by (unfold text, sep;
        change (join (pre ++ d :: post) (v :: v' :: vs))
          with (v ++ (pre ++ d :: post) ++ join (pre ++ d :: post) (v' :: vs));
        rewrite !contains_app; cbn [contains existsb]; rewrite N.eqb_refl;
        rewrite !orb_true_r; reflexivity).
  cbn [In] in Hd; destruct Hd as [<-|[<-|[<-|[]]]].
  all: rewrite ?Hin.
  all: try (rewrite (Hno c_nl) by (cbn [In]; tauto || discriminate)).
  all: try (rewrite (Hno c_pipe) by (cbn [In]; tauto || discriminate)).
  all: try (apply lines_plain; assumption).
  all: rewrite split_strip_map, Hmap; apply filter_truthy_plain; assumption.
Qed.

Lemma join_cons sep v vs :
  join sep (v :: vs) = v ++ flat_map (fun w => sep ++ w) vs.
Proof.
  revert v. induction vs as [|w vs IH]; intros v.
  - cbn [join flat_map]. symmetry. apply app_nil_r.
  - change (join sep (v :: w :: vs)) with (v ++ sep ++ join sep (w :: vs)).
    rewrite IH. cbn [flat_map]. rewrite <- app_assoc. reflexivity.
Qed.
End JoinedList.

(** ** The internal placeholders *)

Section PlaceholderFacts.
Implicit Types (tag t : pystr) (n i j : nat) (s v p : pystr) (c a b : char).

Lemma digits_of_uint (u : Decimal.uint) :
  forallb is_digit (py (NilEmpty.string_of_uint u)) = true.
Proof.
  induction u; cbn [NilEmpty.string_of_uint]; [reflexivity|..];
    match goal with
    | |- forallb is_digit (py (String ?a ?s)) = true =>
        change (py (String a s)) with (ord a :: py s)
    end;
    cbn [forallb]; rewrite IHu; reflexivity.
Qed.

Lemma digits_of_nat n : forallb is_digit (str_of_nat n) = true.
Proof. apply digits_of_uint. Qed.

Lemma revapp_nonnil (u acc : Decimal.uint) :
  acc <> Decimal.Nil -> Decimal.revapp u acc <> Decimal.Nil.
Proof.
  revert acc. induction u; intros acc Hacc; cbn [Decimal.revapp];
    [exact Hacc|..]; apply IHu; discriminate.
Qed.

Lemma to_little_uint_nonnil n (acc : Decimal.uint) :
  acc <> Decimal.Nil -> Nat.to_little_uint n acc <> Decimal.Nil.
Proof.
  revert acc. induction n as [|n IH]; intros acc Hacc; cbn [Nat.to_little_uint];
    [exact Hacc|].
  apply IH. destruct acc; cbn [Decimal.Little.succ]; discriminate.
Qed.

Lemma str_of_nat_nonempty n : str_of_nat n <> [].
Proof.
  unfold str_of_nat, Nat.to_uint, Decimal.rev.
  pose proof (to_little_uint_nonnil n Decimal.zero ltac:(discriminate)) as H.
  destruct (Nat.to_little_uint n Decimal.zero) as [|u|u|u|u|u|u|u|u|u|u];
    [congruence|..]; cbn [Decimal.revapp];
    match goal with
    | |- context [Decimal.revapp u ?acc] =>
        pose proof (revapp_nonnil u acc ltac:(discriminate)) as H';
        destruct (Decimal.revapp u acc); [congruence|..]; discriminate
    end.
Qed.

Lemma string_of_uint_inj (u u' : Decimal.uint) :
  NilEmpty.string_of_uint u = NilEmpty.string_of_uint u' -> u = u'.
Proof.
  revert u'. induction u; intros u'; destruct u';
    cbn [NilEmpty.string_of_uint]; intros H; try discriminate;
    try reflexivity; injection H as H; f_equal; apply IHu; exact H.
Qed.

Lemma py_inj (x y : string) : py x = py y -> x = y.
Proof.
  revert y. induction x as [|a x IH]; intros [|b y];
    cbn [py list_ascii_of_string List.map]; intros H; try discriminate;
    [reflexivity|].
  assert (Ha : ord a = ord b) by (apply (f_equal (hd 0%N)) in H; exact H).
  assert (Ht : py x = py y) by (apply (f_equal (@List.tl char)) in H; exact H).
  f_equal; [|exact (IH y Ht)].
  unfold ord in Ha. rewrite <- (ascii_N_embedding a), <- (ascii_N_embedding b), Ha.
  reflexivity.
Qed.

Lemma str_of_nat_inj i j : str_of_nat i = str_of_nat j -> i = j.
Proof.
  unfold str_of_nat. intros H.
  apply py_inj, string_of_uint_inj in H.
  exact (DecimalNat.Unsigned.to_uint_inj _ _ H).
Qed.
End PlaceholderFacts.

Section PlaceholderShape.
Implicit Types (tag t : pystr) (n i j : nat) (s v p r : pystr) (c a b d : char).

Lemma contains_underscores c k :
  c <> c_underscore -> contains c (List.repeat c_underscore k) = false.
Proof.
  intros Hc. induction k as [|k IH]; [reflexivity|].
  cbn [List.repeat contains existsb]. fold (contains c (List.repeat c_underscore k)).
  rewrite IH. destruct (N.eqb_spec c c_underscore); [contradiction | reflexivity].
Qed.

Lemma contains_digits c s :
  forallb is_digit s = true -> is_digit c = false -> contains c s = false.
Proof.
  intros Hs Hc. induction s as [|d s IH]; [reflexivity|].
  cbn [forallb] in Hs. apply andb_prop in Hs as [Hd Hs].
  cbn [contains existsb]. fold (contains c s). rewrite (IH Hs).
  destruct (N.eqb_spec c d) as [->|_]; [congruence | reflexivity].
Qed.

Lemma contains_placeholder c tag n :
  c <> c_underscore -> is_digit c = false -> contains c tag = false ->
  contains c (placeholder tag n) = false.
Proof.
  intros Hu Hd Ht. unfold placeholder. rewrite !contains_app.
  change (py "__") with (List.repeat c_underscore 2).
  change (py "_") with (List.repeat c_underscore 1).
  rewrite !contains_underscores, Ht, (contains_digits c _ (digits_of_nat n) Hd)
    by exact Hu.
  reflexivity.
Qed.

Lemma placeholder_cons tag n :
  placeholder tag n
  = c_underscore :: c_underscore :: (tag ++ c_underscore :: str_of_nat n ++ py "__").
Proof. reflexivity. Qed.

Lemma placeholder_tight tag n : is_tight (placeholder tag n) = true.
Proof.
  unfold is_tight. rewrite placeholder_cons at 1. cbn [head_solid].
  unfold placeholder. rewrite !app_assoc.
  rewrite last_solid_app; [reflexivity|].
  change (py "__") with [c_underscore; c_underscore]. discriminate.
Qed.

(** A placeholder is a plain value: the splitting leaves it whole. *)
Lemma placeholder_plain tag n :
  is_tag tag -> is_plain_value (placeholder tag n) = true.
Proof.
  intros Htag. unfold is_plain_value.
  destruct (tight_strip _ (placeholder_tight tag n)) as [_ Hs].
  unfold pystr_eqb. rewrite bool_decide_true by exact Hs.
  rewrite placeholder_cons at 1. cbn [truthy andb forallb].
  rewrite !contains_placeholder;
    (reflexivity || discriminate || (destruct Htag as [->| ->]; reflexivity)).
Qed.

Lemma digits_then_close_digits seen (ds rest : pystr) :
  forallb is_digit ds = true ->
  digits_then_close seen (ds ++ py "__" ++ rest) = seen || truthy ds.
Proof.
  revert seen. induction ds as [|d ds IH]; intros seen Hds.
  - cbn [app truthy]. rewrite orb_false_r.
    change (py "__" ++ rest) with (c_underscore :: c_underscore :: rest).
    cbn [digits_then_close].
    change ((48 <=? c_underscore) && (c_underscore <=? 57))%N with false.
    cbv iota.
    change (startswith (py "__") (c_underscore :: c_underscore :: rest)) with true.
    apply andb_true_r.
  - cbn [forallb] in Hds. apply andb_prop in Hds as [Hd Hds].
    cbn [app digits_then_close truthy]. unfold is_digit in Hd. rewrite Hd.
    rewrite (IH true Hds). rewrite orb_true_r. reflexivity.
Qed.

Lemma has_bracket_placeholder_cons c s :
  has_bracket_placeholder (c :: s) = false -> has_bracket_placeholder s = false.
Proof.
  cbn [has_bracket_placeholder]. intros H. apply orb_false_elim in H as [_ H]. exact H.
Qed.

(** A text that holds no internal placeholder holds none of the
    placeholders of the two loops. *)
Lemma no_placeholder_infix tag n v :
  is_tag tag -> has_bracket_placeholder v = false ->
  is_infix (placeholder tag n) v = false.
Proof.
  intros Htag. induction v as [|c v IH]; intros Hv.
  - rewrite placeholder_cons. reflexivity.
  - pose proof (IH (has_bracket_placeholder_cons _ _ Hv)) as Hi.
    cbn [is_infix]. rewrite Hi, orb_false_r.
    destruct (startswith (placeholder tag n) (c :: v)) eqn:E; [|reflexivity].
    exfalso. unfold startswith in E.
    destruct (strip_prefix (placeholder tag n) (c :: v)) as [rest|] eqn:Ep;
      [|discriminate].
    apply strip_prefix_Some in Ep. rewrite Ep in Hv.
    assert (Hd : digits_then_close false (str_of_nat n ++ py "__" ++ rest) = true).
    { rewrite (digits_then_close_digits false _ rest (digits_of_nat n)).
      pose proof (str_of_nat_nonempty n). destruct (str_of_nat n); [congruence | reflexivity]. }
    destruct Htag as [->| ->]; unfold placeholder in Hv;
      rewrite <- !app_assoc in Hv.
    + change (py "__" ++ py "PAREN" ++ py "_" ++ str_of_nat n ++ py "__" ++ rest)
        with (py "__PAREN_" ++ (str_of_nat n ++ py "__" ++ rest)) in Hv.
      destruct (py "__PAREN_" ++ (str_of_nat n ++ py "__" ++ rest)) as [|x y] eqn:Ex;
        [discriminate|].
      cbn [has_bracket_placeholder] in Hv. rewrite <- Ex in Hv.
      rewrite strip_prefix_app, Hd in Hv. discriminate.
    + change (py "__" ++ py "CURLY" ++ py "_" ++ str_of_nat n ++ py "__" ++ rest)
        with (py "__CURLY_" ++ (str_of_nat n ++ py "__" ++ rest)) in Hv.
      destruct (py "__CURLY_" ++ (str_of_nat n ++ py "__" ++ rest)) as [|x y] eqn:Ex;
        [discriminate|].
      cbn [has_bracket_placeholder] in Hv. rewrite <- Ex in Hv.
      rewrite strip_prefix_app in Hv.
      change (strip_prefix (py "__PAREN_")
                (py "__CURLY_" ++ (str_of_nat n ++ py "__" ++ rest))) with (@None pystr) in Hv.
      rewrite Hd in Hv. discriminate.
Qed.

Lemma startswith_first a p c s :
  (a =? c)%N = false -> startswith (a :: p) (c :: s) = false.
Proof. intros H. unfold startswith. cbn [strip_prefix]. rewrite H. reflexivity. Qed.

Lemma startswith_second a b p d c s :
  (b =? c)%N = false -> startswith (a :: b :: p) (d :: c :: s) = false.
Proof.
  intros H. unfold startswith. cbn [strip_prefix].
  destruct (a =? d)%N; [rewrite H|]; reflexivity.
Qed.

Lemma is_infix_skip a p (skipped : pystr) s :
  forallb (fun c => negb (a =? c)%N) skipped = true ->
  is_infix (a :: p) (skipped ++ s) = is_infix (a :: p) s.
Proof.
  induction skipped as [|c skipped IH]; [reflexivity|]. cbn [forallb app is_infix].
  intros H. apply andb_prop in H as [Hc H]. apply negb_true_iff in Hc.
  rewrite (startswith_first a p c _ Hc), (IH H). reflexivity.
Qed.

Lemma digits_no_underscore (ds : pystr) :
  forallb is_digit ds = true ->
  forallb (fun c => negb (c_underscore =? c)%N) ds = true.
Proof.
  induction ds as [|d ds IH]; [reflexivity|]. cbn [forallb].
  intros H. apply andb_prop in H as [Hd H]. rewrite (IH H), andb_true_r.
  destruct (N.eqb_spec c_underscore d) as [<-|_]; [discriminate | reflexivity].
Qed.

Lemma digits_prefix (dj di x y : pystr) :
  forallb is_digit dj = true -> forallb is_digit di = true ->
  strip_prefix (dj ++ c_underscore :: x) (di ++ c_underscore :: y) <> None ->
  dj = di.
Proof.
  revert di. induction dj as [|a dj IH]; intros [|b di] Hj Hi;
    cbn [app strip_prefix forallb] in *.
  - reflexivity.
  - apply andb_prop in Hi as [Hb _].
    destruct (N.eqb_spec c_underscore b) as [<-|_]; [discriminate | congruence].
  - apply andb_prop in Hj as [Ha _].
    destruct (N.eqb_spec a c_underscore) as [->|_]; [discriminate | congruence].
  - apply andb_prop in Hj as [_ Hj]. apply andb_prop in Hi as [_ Hi].
    destruct (N.eqb_spec a b) as [->|_]; [|congruence].
    intros H. f_equal. exact (IH di Hj Hi H).
Qed.

(** One placeholder occurs in another only when they are the same. *)
Lemma placeholder_infix t j t' i :
  is_tag t -> is_tag t' ->
  is_infix (placeholder t j) (placeholder t' i) = true -> t = t' /\ j = i.
Proof.
  intros Ht Ht' H.
  assert (Hs : startswith (placeholder t j) (placeholder t' i) = true).
  { rewrite (placeholder_cons t' i) in H. rewrite (placeholder_cons t j) in H |- *.
    rewrite (placeholder_cons t' i).
    cbn [is_infix] in H.
    assert (H2 : startswith (c_underscore :: c_underscore
                               :: t ++ c_underscore :: str_of_nat j ++ py "__")
                   (c_underscore :: t' ++ c_underscore :: str_of_nat i ++ py "__")
                 = false).
    { destruct Ht' as [->| ->].
      - change (py "PAREN" ++ ?r) with (80%N :: (py "AREN" ++ r)).
        apply startswith_second. reflexivity.
      - change (py "CURLY" ++ ?r) with (67%N :: (py "URLY" ++ r)).
        apply startswith_second. reflexivity. }
    rewrite H2 in H. cbn [orb] in H.
    rewrite is_infix_skip in H by (destruct Ht' as [->| ->]; reflexivity).
    cbn [is_infix] in H.
    pose proof (str_of_nat_nonempty i) as Hne.
    pose proof (digits_of_nat i) as Hdi.
    destruct (str_of_nat i) as [|d di] eqn:Ei; [congruence|].
    assert (Hd : (c_underscore =? d)%N = false).
    { cbn [forallb] in Hdi. apply andb_prop in Hdi as [Hd _].
      destruct (N.eqb_spec c_underscore d) as [<-|_]; [discriminate | reflexivity]. }
    change ((d :: di) ++ py "__") with (d :: (di ++ py "__")) in H.
    rewrite (startswith_second _ _ _ c_underscore d _ Hd) in H.
    cbn [orb] in H.
    change (d :: (di ++ py "__")) with ((d :: di) ++ py "__") in H.
    rewrite is_infix_skip in H by (apply digits_no_underscore; exact Hdi).
    assert (H3 : is_infix (c_underscore :: c_underscore
                             :: t ++ c_underscore :: str_of_nat j ++ py "__")
                   (py "__") = false)
      by (destruct Ht as [->| ->]; reflexivity).
    rewrite H3, orb_false_r in H. exact H. }
  unfold startswith in Hs.
  destruct (strip_prefix (placeholder t j) (placeholder t' i)) as [rest|] eqn:E;
    [|discriminate].
  unfold placeholder in E.
  rewrite strip_prefix_common in E.
  assert (Htt : t = t').
  { destruct Ht as [->| ->], Ht' as [->| ->]; try reflexivity; exfalso.
    - change (strip_prefix (py "PAREN" ++ ?x) (py "CURLY" ++ ?y)) with (@None pystr) in E.
      discriminate.
    - change (strip_prefix (py "CURLY" ++ ?x) (py "PAREN" ++ ?y)) with (@None pystr) in E.
      discriminate. }
  split; [exact Htt|]. subst t'.
  rewrite strip_prefix_common in E.
  change (py "_" ++ ?x) with (c_underscore :: x) in E.
  cbn [strip_prefix] in E. rewrite N.eqb_refl in E.
  change (py "__") with (c_underscore :: [c_underscore]) in E.
  apply str_of_nat_inj.
  apply (digits_prefix _ _ [c_underscore] [c_underscore]
           (digits_of_nat j) (digits_of_nat i)).
  rewrite E. discriminate.
Qed.

Lemma replace_absent a p new s :
  is_infix (a :: p) s = false -> replace (a :: p) new s = s.
Proof.
  induction s as [|c s IH]; [reflexivity|]. cbn [is_infix].
  intros H. apply orb_false_elim in H as [Hs H].
  rewrite replace_cons. unfold startswith in Hs.
  destruct (strip_prefix (a :: p) (c :: s)); [discriminate|].
  rewrite (IH H). reflexivity.
Qed.
End PlaceholderShape.

(** ** The loops of [_protect_brackets] on a list of elements *)

Section Dictionary.
Implicit Types (reps d : dict pystr) (k g : pystr).

Lemma is_infix_refl (p : pystr) : is_infix p p = true.
Proof.
  assert (H : startswith p p = true).
  { unfold startswith. pose proof (strip_prefix_app p []) as H.
    rewrite app_nil_r in H. rewrite H. reflexivity. }
  destruct p; cbn [is_infix]; rewrite H; reflexivity.
Qed.

Lemma placeholder_inj t j t' i :
  is_tag t -> is_tag t' -> placeholder t j = placeholder t' i -> t = t' /\ j = i.
Proof.
  intros Ht Ht' H. apply (placeholder_infix t j t' i Ht Ht').
  rewrite H. apply is_infix_refl.
Qed.

Lemma indexed_app lo reps d :
  indexed lo (reps ++ d) <-> indexed lo reps /\ indexed (lo + length reps) d.
Proof.
  revert lo. induction reps as [|[k g] reps IH]; intros lo; cbn [app indexed length].
  - rewrite Nat.add_0_r. tauto.
  - rewrite IH. replace (S lo + length reps) with (lo + S (length reps)) by lia. tauto.
Qed.

Lemma indexed_keys lo reps k g :
  indexed lo reps -> In (k, g) reps ->
  exists t j, is_tag t /\ lo <= j < lo + length reps /\ k = placeholder t j.
Proof.
  revert lo. induction reps as [|[k' g'] reps IH]; intros lo Hi Hin; [destruct Hin|].
  cbn [indexed] in Hi. destruct Hi as [(t & Ht & Hk) Hi]. cbn [length].
  destruct Hin as [[= <- <-]|Hin].
  - exists t, lo. split; [exact Ht|]. split; [lia | exact Hk].
  - destruct (IH (S lo) Hi Hin) as (t' & j & Ht' & Hj & Hk').
    exists t', j. split; [exact Ht'|]. split; [lia | exact Hk'].
Qed.

Lemma dict_set_new k g d :
  (forall k' g', In (k', g') d -> k' <> k) -> dict_set k g d = d ++ [(k, g)].
Proof.
  induction d as [|[k' g'] d IH]; intros H; [reflexivity|]. cbn [dict_set app].
  unfold pystr_eqb. rewrite bool_decide_false by (apply (H k' g'); left; reflexivity).
  rewrite IH; [reflexivity|]. intros k2 g2 Hin. apply (H k2 g2). right. exact Hin.
Qed.

Lemma indexed_entries tag kind c es :
  is_tag tag -> indexed c (entries tag kind c es).
Proof.
  intros Ht. revert c. induction es as [|e es IH]; intros c; cbn [entries]; [exact I|].
  destruct (kind e); [|apply IH]. cbn [indexed]. split; [|apply IH].
  exists tag. split; [exact Ht | reflexivity].
Qed.

Lemma length_entries tag kind c es :
  length (entries tag kind c es) = length (List.filter kind es).
Proof.
  revert c. induction es as [|e es IH]; intros c; cbn [entries List.filter]; [reflexivity|].
  destruct (kind e); cbn [length]; rewrite IH; reflexivity.
Qed.

Lemma length_pass tag kind c es : length (pass tag kind c es) = length es.
Proof.
  revert c. induction es as [|e es IH]; intros c; cbn [pass]; [reflexivity|].
  destruct (kind e); cbn [length]; rewrite IH; reflexivity.
Qed.
End Dictionary.

Section ElementLoop.
Variable here : pystr -> option (pystr * pystr).
Variable opening : char.
Variable tag : pystr.
Variable kind : element -> bool.
Hypothesis tag_ok : is_tag tag.
Hypothesis here_nil : here [] = None.
Hypothesis here_other : forall c r, c <> opening -> here (c :: r) = None.
Hypothesis placeholder_closed :
  forall n, contains opening (placeholder tag n) = false.

Lemma cat_cons s seps e es :
  cat (s :: seps) (e :: es) = (s ++ show e) ++ cat seps es.
Proof. reflexivity. Qed.

Lemma search_skip (skipped s : pystr) :
  contains opening skipped = false ->
  search here (skipped ++ s) =
  match search here s with
  | Some (before, g, rest) => Some (skipped ++ before, g, rest)
  | None => None
  end.
Proof.
  induction skipped as [|c skipped IH]; intros H.
  - cbn [app]. destruct (search here s) as [[[before g] rest]|]; reflexivity.
  - cbn [contains existsb] in H. apply orb_false_elim in H as [Hc H].
    cbn [app search]. rewrite here_other by (intros ->; rewrite N.eqb_refl in Hc; discriminate).
    rewrite (IH H). destruct (search here s) as [[[before g] rest]|]; reflexivity.
Qed.

Lemma search_at_head (s g rest : pystr) :
  here s = Some (g, rest) -> search here s = Some ([], g, rest).
Proof. intros H. destruct s; cbn [search]; rewrite H; reflexivity. Qed.

Lemma loop_elements es : forall seps skipped reps c fuel,
  length seps = length es ->
  contains opening skipped = false ->
  Forall (fun s => contains opening s = false) seps ->
  Forall (element_fits here opening kind) es ->
  indexed 0 reps -> length reps = c ->
  length (List.filter kind es) <= fuel ->
  protect_loop here tag fuel
    {| ps_result := skipped ++ cat seps es; ps_replacements := reps; ps_counter := c |}
  = {| ps_result := skipped ++ cat seps (pass tag kind c es);
       ps_replacements := reps ++ entries tag kind c es;
       ps_counter := c + length (List.filter kind es) |}.
Proof.
  induction es as [|e es IH]; intros seps skipped reps c fuel Hlen Hsk Hseps Hes Hi Hc Hfuel.
  - destruct seps; [|discriminate]. cbn [cat combine flat_map pass entries List.filter length].
    rewrite !app_nil_r, Nat.add_0_r.
    destruct fuel as [|fuel]; [reflexivity|]. cbn [protect_loop ps_result].
    pose proof (search_skip skipped [] Hsk) as Hs. rewrite app_nil_r in Hs.
    rewrite Hs. cbn [search]. rewrite here_nil. reflexivity.
  - destruct seps as [|s seps]; [discriminate|].
    injection Hlen as Hlen.
    inversion Hseps as [|? ? Hs Hseps']; subst.
    inversion Hes as [|? ? He Hes']; subst.
    unfold element_fits in He. cbn [List.filter pass entries] in Hfuel |- *.
    destruct (kind e) eqn:Ek.
    + cbn [length] in Hfuel. destruct fuel as [|fuel]; [lia|].
      cbn [protect_loop ps_result ps_replacements ps_counter].
      assert (Hsearch : search here (skipped ++ cat (s :: seps) (e :: es))
                        = Some (skipped ++ s, show e, cat seps es)).
      { rewrite cat_cons, <- app_assoc, app_assoc.
        rewrite search_skip
          by (rewrite contains_app, Hsk, Hs; reflexivity).
        rewrite (search_at_head _ _ _ (He (cat seps es))), app_nil_r. reflexivity. }
      rewrite Hsearch. fold (placeholder tag (length reps)).
      rewrite dict_set_new.
      2:{ intros k' g' Hin Heq.
          destruct (indexed_keys 0 reps k' g' Hi Hin) as (t & j & Ht & Hj & ->).
          apply (placeholder_inj t j tag (length reps) Ht tag_ok) in Heq. lia. }
      match goal with
      | |- protect_loop _ _ _ ?st = _ =>
          replace st with
            {| ps_result := ((skipped ++ s) ++ placeholder tag (length reps))
                            ++ cat seps es;
               ps_replacements := reps ++ [(placeholder tag (length reps), show e)];
               ps_counter := S (length reps) |}
            by (f_equal; rewrite <- !app_assoc; reflexivity)
      end.
      rewrite (IH seps ((skipped ++ s) ++ placeholder tag (length reps))
                 (reps ++ [(placeholder tag (length reps), show e)])
                 (S (length reps)) fuel Hlen).
      * f_equal.
        -- rewrite cat_cons. cbn [show]. rewrite <- !app_assoc. reflexivity.
        -- rewrite <- app_assoc. reflexivity.
        -- cbn [length]. lia.
      * rewrite !contains_app, Hsk, Hs, placeholder_closed. reflexivity.
      * exact Hseps'.
      * exact Hes'.
      * apply indexed_app. split; [exact Hi|]. cbn [indexed].
        split; [|exact I]. exists tag. split; [exact tag_ok | reflexivity].
      * rewrite length_app. cbn [length]. lia.
      * lia.
    + rewrite !cat_cons, !(app_assoc skipped).
      apply (IH seps ((skipped ++ s) ++ show e) reps (length reps) fuel Hlen);
        try assumption; try reflexivity.
      rewrite !contains_app, Hsk, Hs, He. reflexivity.
Qed.

Lemma count_groups seps es :
  length seps = length es ->
  (forall e, In e es -> kind e = true -> 1 <= count_char opening (show e)) ->
  length (List.filter kind es) <= count_char opening (cat seps es).
Proof.
  revert seps. induction es as [|e es IH]; intros [|s seps] Hlen H;
    try discriminate; [cbn; lia|].
  injection Hlen as Hlen. rewrite cat_cons. cbn [List.filter].
  rewrite !count_char_app.
  specialize (IH seps Hlen (fun e' Hin => H e' (or_intror Hin))).
  destruct (kind e) eqn:Ek; [|lia].
  pose proof (H e (or_introl eq_refl) Ek). cbn [length]. lia.
Qed.
End ElementLoop.

(** ** A list of values and groups *)

Section Elements.
Implicit Types (e : element) (es : list element) (reps : dict pystr).
Implicit Types (v g k : pystr).

Lemma restore_app v (reps1 reps2 : dict pystr) :
  _restore_brackets v (reps1 ++ reps2)
  = _restore_brackets (_restore_brackets v reps1) reps2.
Proof.
  revert v. induction reps1 as [|[k g] reps1 IH]; intros v; [reflexivity|].
  cbn [app _restore_brackets]. apply IH.
Qed.

Lemma restore_absent lo v reps :
  indexed lo reps -> has_bracket_placeholder v = false ->
  _restore_brackets v reps = v.
Proof.
  revert lo. induction reps as [|[k g] reps IH]; intros lo Hi Hv; [reflexivity|].
  cbn [indexed] in Hi. destruct Hi as [(t & Ht & ->) Hi].
  cbn [_restore_brackets]. rewrite placeholder_cons.
  rewrite replace_absent
    by (rewrite <- placeholder_cons; exact (no_placeholder_infix t lo v Ht Hv)).
  exact (IH (S lo) Hi Hv).
Qed.

Lemma restore_other lo t n reps :
  indexed lo reps -> is_tag t -> (n < lo \/ lo + length reps <= n) ->
  _restore_brackets (placeholder t n) reps = placeholder t n.
Proof.
  revert lo. induction reps as [|[k g] reps IH]; intros lo Hi Ht Hn; [reflexivity|].
  cbn [indexed] in Hi. destruct Hi as [(t' & Ht' & ->) Hi]. cbn [length] in Hn.
  cbn [_restore_brackets]. rewrite (placeholder_cons t' lo).
  rewrite replace_absent.
  - apply (IH (S lo) Hi Ht). lia.
  - rewrite <- placeholder_cons.
    destruct (is_infix (placeholder t' lo) (placeholder t n)) eqn:E; [|reflexivity].
    apply (placeholder_infix t' lo t n Ht' Ht) in E. lia.
Qed.

(** The placeholder of an entry is restored to the text of the entry. *)
Lemma restore_entry t n g reps :
  indexed 0 reps -> is_tag t -> In (placeholder t n, g) reps ->
  has_bracket_placeholder g = false ->
  _restore_brackets (placeholder t n) reps = g.
Proof.
  intros Hi Ht Hin Hg. apply in_split in Hin as (reps1 & reps2 & ->).
  apply indexed_app in Hi as [H1 H2]. cbn [indexed Nat.add] in H2.
  destruct H2 as [(t' & Ht' & Hk) H2].
  apply (placeholder_inj t n t' (length reps1) Ht Ht') in Hk as [<- ->].
  rewrite restore_app, (restore_other 0 t (length reps1) reps1 H1 Ht) by lia.
  cbn [_restore_brackets]. rewrite (placeholder_cons t (length reps1)).
  rewrite replace_whole. exact (restore_absent _ g reps2 H2 Hg).
Qed.

Lemma restored_by_incl reps reps' e e2 :
  (forall x, In x reps -> In x reps') -> restored_by reps e e2 -> restored_by reps' e e2.
Proof.
  intros Hincl. destruct e as [v|g|g]; cbn [restored_by]; [exact id|..];
    intros (t & n & Ht & He & Hin); exists t, n; auto.
Qed.

(** The two loops, one after the other. *)
Lemma two_passes es : forall c1 c2,
  Forall2
    (restored_by
       (entries (py "PAREN") is_paren c1 es
        ++ entries (py "CURLY") is_curly c2 (pass (py "PAREN") is_paren c1 es)))
    es
    (pass (py "CURLY") is_curly c2 (pass (py "PAREN") is_paren c1 es)).
Proof.
  induction es as [|[v|g|g] es IH]; intros c1 c2; cbn [pass entries is_paren is_curly].
  - constructor.
  - constructor; [reflexivity | apply IH].
  - constructor.
    + exists (py "PAREN"), c1. split; [left; reflexivity|].
      split; [reflexivity | left; reflexivity].
    + eapply Forall2_impl; [apply (IH (S c1) c2)|].
      intros e e2. apply restored_by_incl. intros x Hx. right. exact Hx.
  - constructor.
    + exists (py "CURLY"), c2. split; [right; reflexivity|].
      split; [reflexivity|]. apply in_or_app. right. left. reflexivity.
    + eapply Forall2_impl; [apply (IH c1 (S c2))|].
      intros e e2. apply restored_by_incl. intros x Hx.
      apply in_app_or in Hx as [Hx|Hx]; apply in_or_app; [left | right; right]; exact Hx.
Qed.

Lemma element_ok_inv e :
  element_ok e = true ->
  has_bracket_placeholder (show e) = false
  /\ head_solid (show e) = true
  /\ match e with
     | Plain v => is_plain_value v = true
     | Paren g => contains c_lparen g = false /\ contains c_rparen g = false
     | Curly g => contains c_lparen g = false /\ contains c_lcurly g = false
                  /\ contains c_rcurly g = false
                  /\ startswith (py "wildcard_") g = false
     end.
Proof.
  unfold element_ok. intros H. apply andb_prop in H as [Hb H].
  apply negb_true_iff in Hb. split; [exact Hb|].
  destruct e as [v|g|g]; cbn [show head_solid].
  - split; [|exact H].
    destruct (plain_value_inv v H) as (Hne & Hs & _).
    destruct v as [|c v]; [congruence|]. cbn [head_solid].
    rewrite (strip_fixed_head c v Hs). reflexivity.
  - split; [reflexivity|]. rewrite !andb_true_iff, !negb_true_iff in H. exact H.
  - split; [reflexivity|]. rewrite !andb_true_iff, !negb_true_iff in H. tauto.
Qed.

Lemma restore_elements reps es es2 :
  indexed 0 reps -> Forall2 (restored_by reps) es es2 ->
  forallb element_ok es = true ->
  restore_values reps (List.map show es2) = List.map show es.
Proof.
  intros Hi H. unfold restore_values.
  match goal with |- _ -> flat_map ?f _ = _ => set (F := f) end.
  induction H as [|e e2 es es2 He _ IH]; intros Hok; [reflexivity|].
  cbn [forallb] in Hok. apply andb_prop in Hok as [Hoke Hok].
  cbn [List.map flat_map]. rewrite (IH Hok). subst F. cbv beta zeta.
  destruct (element_ok_inv e Hoke) as (Hb & Hh & _).
  assert (Hr : _restore_brackets (show e2) reps = show e).
  { destruct e as [v|g|g]; cbn [restored_by] in He.
    - subst e2. exact (restore_absent 0 _ reps Hi Hb).
    - destruct He as (t & n & Ht & -> & Hin). exact (restore_entry t n _ reps Hi Ht Hin Hb).
    - destruct He as (t & n & Ht & -> & Hin). exact (restore_entry t n _ reps Hi Ht Hin Hb). }
  rewrite Hr. destruct (show e); [discriminate | reflexivity].
Qed.

Lemma pass_Forall (P : element -> Prop) tag kind c es :
  (forall n, P (Plain (placeholder tag n))) ->
  (forall e, In e es -> kind e = false -> P e) ->
  Forall P (pass tag kind c es).
Proof.
  intros Hp. revert c. induction es as [|e es IH]; intros c H; cbn [pass]; [constructor|].
  destruct (kind e) eqn:Ek; constructor.
  - apply Hp.
  - apply IH. intros e' Hin. apply H. right. exact Hin.
  - apply H; [left; reflexivity | exact Ek].
  - apply IH. intros e' Hin. apply H. right. exact Hin.
Qed.

Lemma paren_here_other c (r : pystr) : c <> c_lparen -> paren_here (c :: r) = None.
Proof.
  intros Hc. cbn [paren_here].
  destruct (N.eqb_spec c c_lparen); [contradiction | reflexivity].
Qed.

Lemma curly_here_other c (r : pystr) : c <> c_lcurly -> curly_here (c :: r) = None.
Proof.
  intros Hc. cbn [curly_here].
  destruct (N.eqb_spec c c_lcurly); [contradiction | reflexivity].
Qed.

Lemma paren_fits e :
  element_ok e = true -> element_fits paren_here c_lparen is_paren e.
Proof.
  intros Hok. destruct (element_ok_inv e Hok) as (_ & _ & H).
  unfold element_fits. destruct e as [v|g|g]; cbn [is_paren show].
  - destruct (plain_value_inv v H) as (_ & _ & _ & _ & _ & _ & Hp & _). exact Hp.
  - destruct H as [Hl Hr]. intros rest. cbn [app paren_here].
    rewrite N.eqb_refl, <- app_assoc. cbn [app].
    rewrite (paren_body_group g rest Hl Hr). reflexivity.
  - destruct H as (Hl & _). cbn [contains existsb]. fold (contains c_lparen (g ++ [c_rcurly])).
    rewrite contains_app, Hl. reflexivity.
Qed.

Lemma curly_fits e :
  element_ok e = true -> is_paren e = false ->
  element_fits curly_here c_lcurly is_curly e.
Proof.
  intros Hok Hp. destruct (element_ok_inv e Hok) as (_ & _ & H).
  unfold element_fits. destruct e as [v|g|g]; cbn [is_curly show]; [|discriminate|].
  - destruct (plain_value_inv v H) as (_ & _ & _ & _ & _ & _ & _ & Hc). exact Hc.
  - destruct H as (_ & Hl & Hr & Hw). intros rest. cbn [app curly_here].
    rewrite N.eqb_refl, <- app_assoc. cbn [app].
    rewrite (startswith_group _ g c_rcurly rest) by (reflexivity || assumption).
    rewrite (curly_body_group g rest Hl Hr). reflexivity.
Qed.

Lemma placeholder_fits here opening kind tag n :
  is_tag tag -> (forall v, kind (Plain v) = false) ->
  contains opening (placeholder tag n) = false ->
  element_fits here opening kind (Plain (placeholder tag n)).
Proof. intros _ Hk H. unfold element_fits. rewrite Hk. exact H. Qed.

(** The separators of [join]: none before the first element. *)
Lemma join_cat sep e es :
  join sep (List.map show (e :: es))
  = cat ([] :: List.repeat sep (length es)) (e :: es).
Proof.
  cbn [List.map]. rewrite join_cons, cat_cons. cbn [app]. f_equal.
  induction es as [|e' es IH]; [reflexivity|].
  cbn [List.map flat_map length List.repeat]. rewrite cat_cons, IH, <- app_assoc.
  reflexivity.
Qed.
End Elements.

Section Protection.
Implicit Types (e : element) (es : list element) (sep text : pystr).

Lemma paren_count e : is_paren e = true -> 1 <= count_char c_lparen (show e).
Proof.
  destruct e as [v|g|g]; try discriminate. intros _. cbn [show].
  rewrite count_char_cons, N.eqb_refl. lia.
Qed.

Lemma curly_count e : is_curly e = true -> 1 <= count_char c_lcurly (show e).
Proof.
  destruct e as [v|g|g]; try discriminate. intros _. cbn [show].
  rewrite count_char_cons, N.eqb_refl. lia.
Qed.

Lemma Forall_repeat {A} (P : A -> Prop) (x : A) n : P x -> Forall P (List.repeat x n).
Proof. intros H. induction n; cbn [List.repeat]; constructor; assumption. Qed.

(** [_protect_brackets] on a joined list of elements: the parenthesised
    groups become placeholders, then the curly groups. *)
Lemma protect_elements sep e es :
  contains c_lparen sep = false -> contains c_lcurly sep = false ->
  forallb element_ok (e :: es) = true ->
  let es1 := pass (py "PAREN") is_paren 0 (e :: es) in
  let count := length (List.filter is_paren (e :: es)) in
  _protect_brackets (join sep (List.map show (e :: es)))
  = (cat ([] :: List.repeat sep (length es)) (pass (py "CURLY") is_curly count es1),
     entries (py "PAREN") is_paren 0 (e :: es)
     ++ entries (py "CURLY") is_curly count es1).
Proof.
  intros Hp Hc Hok es1 count. rewrite join_cat.
  set (seps := [] :: List.repeat sep (length es)).
  set (all := e :: es) in *.
  assert (Hlen : length seps = length all)
    by (subst seps all; cbn [length]; rewrite repeat_length; reflexivity).
  assert (Hall : forall x, In x all -> element_ok x = true)
    by (rewrite forallb_forall in Hok; exact Hok).
  unfold _protect_brackets.
  assert (H1 : protect_loop paren_here (py "PAREN") (count_char c_lparen (cat seps all))
                 {| ps_result := cat seps all; ps_replacements := []; ps_counter := 0 |}
               = {| ps_result := cat seps es1;
                    ps_replacements := entries (py "PAREN") is_paren 0 all;
                    ps_counter := count |}).
  { apply (loop_elements paren_here c_lparen (py "PAREN") is_paren
             (or_introl eq_refl) eq_refl paren_here_other
             (fun n => contains_placeholder c_lparen (py "PAREN") n
                         ltac:(discriminate) eq_refl eq_refl)
             all seps [] [] 0 _ Hlen eq_refl).
    - subst seps. constructor; [reflexivity | apply Forall_repeat; exact Hp].
    - apply List.Forall_forall. intros x Hx. apply paren_fits, Hall, Hx.
    - exact I.
    - reflexivity.
    - apply (count_groups c_lparen is_paren seps all Hlen).
      intros x _. apply paren_count. }
  rewrite H1. cbn [ps_result].
  assert (H2 : protect_loop curly_here (py "CURLY") (count_char c_lcurly (cat seps es1))
                 {| ps_result := cat seps es1;
                    ps_replacements := entries (py "PAREN") is_paren 0 all;
                    ps_counter := count |}
               = {| ps_result := cat seps (pass (py "CURLY") is_curly count es1);
                    ps_replacements :=
                      entries (py "PAREN") is_paren 0 all
                      ++ entries (py "CURLY") is_curly count es1;
                    ps_counter := count + length (List.filter is_curly es1) |}).
  { assert (Hlen1 : length seps = length es1)
      by (subst es1; rewrite length_pass; exact Hlen).
    apply (loop_elements curly_here c_lcurly (py "CURLY") is_curly
             (or_intror eq_refl) eq_refl curly_here_other
             (fun n => contains_placeholder c_lcurly (py "CURLY") n
                         ltac:(discriminate) eq_refl eq_refl)
             es1 seps [] _ count _ Hlen1 eq_refl).
    - subst seps. constructor; [reflexivity | apply Forall_repeat; exact Hc].
    - subst es1. apply pass_Forall.
      + intros n. apply placeholder_fits; [left; reflexivity | reflexivity |].
        apply contains_placeholder; (discriminate || reflexivity).
      + intros x Hx Hk. apply curly_fits; [exact (Hall x Hx) | exact Hk].
    - apply indexed_entries. left. reflexivity.
    - apply length_entries.
    - apply (count_groups c_lcurly is_curly seps es1 Hlen1).
      intros x _. apply curly_count. }
  rewrite H2. reflexivity.
Qed.

Lemma head_solid_not_blank (s : pystr) :
  head_solid s = true -> truthy s = true /\ forallb is_space s = false.
Proof.
  destruct s as [|c s]; [discriminate|]. cbn [head_solid truthy forallb].
  intros H. apply negb_true_iff in H. rewrite H. split; reflexivity.
Qed.

Lemma restore_nothing (values : list pystr) :
  Forall (fun v => v <> []) values -> restore_values [] values = values.
Proof.
  unfold restore_values. induction 1 as [|v values Hv _ IH]; [reflexivity|].
  cbn [flat_map]. rewrite IH. cbn [_restore_brackets].
  destruct v; [congruence | reflexivity].
Qed.

Lemma search_curly_wildcard (s : pystr) :
  braces_start_wildcard s = true -> search curly_here s = None.
Proof.
  induction s as [|c s IH]; [reflexivity|]. cbn [braces_start_wildcard].
  intros H. apply andb_prop in H as [Hc H]. cbn [search curly_here].
  rewrite (IH H). destruct (c =? c_lcurly)%N; [rewrite Hc|]; reflexivity.
Qed.
Lemma startswith_prefix (p g r : pystr) :
  startswith p (g ++ r) = false -> startswith p g = false.
Proof.
  unfold startswith. revert g. induction p as [|a p IH]; intros g; [discriminate|].
  destruct g as [|b g]; [reflexivity|]. cbn [app strip_prefix].
  destruct (a =? b)%N; [apply IH | reflexivity].
Qed.

Lemma protect_loop_records (P : pystr -> Prop) here tag fuel st :
  (forall s g rest, here s = Some (g, rest) -> P g) ->
  Forall (fun kv => P (snd kv)) (ps_replacements st) ->
  Forall (fun kv => P (snd kv)) (ps_replacements (protect_loop here tag fuel st)).
Proof.
  intros Hhere. revert st. induction fuel as [|fuel IH]; intros st Hst; [exact Hst|].
  cbn [protect_loop].
  destruct (search here (ps_result st)) as [[[before g] rest]|] eqn:E; [|exact Hst].
  apply IH. cbn [ps_replacements]. apply Forall_dict_set; [|exact Hst].
  cbn [snd]. destruct (search_here _ _ _ _ _ E) as [s' Hs']. exact (Hhere _ _ _ Hs').
Qed.

Lemma paren_here_no_wildcard s g rest :
  paren_here s = Some (g, rest) -> startswith (py "{wildcard_") g = false.
Proof.
  destruct s as [|c s]; cbn [paren_here]; [discriminate|].
  destruct (N.eqb_spec c c_lparen) as [->|]; [|discriminate].
  destruct (paren_body s) as [[g' r']|]; [|discriminate].
  intros [= <- <-]. reflexivity.
Qed.

Lemma curly_here_no_wildcard s g rest :
  curly_here s = Some (g, rest) -> startswith (py "{wildcard_") g = false.
Proof.
  destruct s as [|c s]; cbn [curly_here]; [discriminate|].
  destruct (N.eqb_spec c c_lcurly) as [->|]; [|discriminate].
  destruct (startswith (py "wildcard_") s) eqn:Hs; [discriminate|].
  destruct (curly_body s) as [[g' r']|] eqn:E; [|discriminate].
  intros [= <- <-]. apply curly_body_group_inv in E as [-> _].
  change (py "{wildcard_") with (c_lcurly :: py "wildcard_").
  unfold startswith. cbn [strip_prefix]. rewrite N.eqb_refl.
  exact (startswith_prefix _ _ _ Hs).
Qed.
End Protection.

(** C6, as the code has it.  In a list of values joined by one of the
    delimiters, every parenthesised group without parentheses in it and
    every curly group without brackets in it that does not begin with
    [{wildcard_] comes out of [parse_value_list] as one value, wherever it
    stands and however many groups there are; in a text without
    parentheses in which every opening brace is followed by [wildcard_],
    placeholder or not, nothing is protected and the text is split as its
    delimiters say; and in no text at all does [_protect_brackets] record
    a group that begins with [{wildcard_]. *)
Theorem bracket_group_is_atomic :
  (forall (d : char) (pre post : pystr) (elements : list element),
     In d [c_nl; c_pipe; c_comma] ->
     is_padding pre = true -> is_padding post = true ->
     forallb element_ok elements = true ->
     parse_value_list (join (pre ++ d :: post) (List.map show elements))
     = List.map show elements)
  /\ parse_value_list (py "(a, b), c") = [py "(a, b)"; py "c"]
  /\ (forall text : pystr,
        contains c_lparen text = false -> braces_start_wildcard text = true ->
        _protect_brackets text = (text, [])
        /\ parse_value_list text = split_values text)
  /\ (forall text : pystr,
        Forall (fun kv => startswith (py "{wildcard_") (snd kv) = false)
          (snd (_protect_brackets text))).
Proof.
  split; [|split; [vm_compute; reflexivity|split]].
  - intros d pre post elements Hd Hpre Hpost Hok.
    destruct elements as [|e es]; [reflexivity|].
    set (sep := pre ++ d :: post).
    assert (Hsep : forall c, c <> c_space -> c <> d -> contains c sep = false).
    { intros c Hc Hcd. unfold sep. rewrite contains_app. cbn [contains existsb].
      fold (contains c pre). fold (contains c post).
      rewrite !padding_contains by assumption.
      destruct (N.eqb_spec c d); [contradiction | reflexivity]. }
    assert (Hp : contains c_lparen sep = false)
      by (apply Hsep; [discriminate|];
          cbn [In] in Hd; destruct Hd as [<-|[<-|[<-|[]]]]; discriminate).
    assert (Hc : contains c_lcurly sep = false)
      by (apply Hsep; [discriminate|];
          cbn [In] in Hd; destruct Hd as [<-|[<-|[<-|[]]]]; discriminate).
    pose proof Hok as Hok'. cbn [forallb] in Hok'. apply andb_prop in Hok' as [Hoke _].
    destruct (element_ok_inv e Hoke) as (_ & Hhead & _).
    assert (Htext : head_solid (join sep (List.map show (e :: es))) = true).
    { cbn [List.map]. rewrite join_cons. apply head_solid_app, Hhead. }
    apply head_solid_not_blank in Htext as [Htr Hbl].
    unfold parse_value_list. rewrite Htr, truthy_strip, Hbl. cbn [negb orb].
    rewrite (protect_elements sep e es Hp Hc Hok). cbv zeta.
    set (es1 := pass (py "PAREN") is_paren 0 (e :: es)).
    set (count := length (List.filter is_paren (e :: es))).
    set (es2 := pass (py "CURLY") is_curly count es1).
    assert (Hall : forall x, In x (e :: es) -> element_ok x = true)
      by (rewrite forallb_forall in Hok; exact Hok).
    assert (H1 : Forall (fun x => is_curly x = false -> is_plain_value (show x) = true) es1).
    { subst es1. apply pass_Forall.
      - intros n _. apply placeholder_plain. left. reflexivity.
      - intros x Hx Hxp Hxc. destruct (element_ok_inv x (Hall x Hx)) as (_ & _ & H).
        destruct x; [exact H | discriminate | discriminate]. }
    assert (H2 : Forall (fun x => is_plain_value (show x) = true) es2).
    { subst es2. apply pass_Forall.
      - intros n. apply placeholder_plain. right. reflexivity.
      - intros x Hx Hxc. rewrite List.Forall_forall in H1. exact (H1 x Hx Hxc). }
    assert (Hlen2 : length es2 = S (length es))
      by (subst es2 es1; rewrite !length_pass; reflexivity).
    destruct es2 as [|e2 es2'] eqn:E2; [discriminate|].
    injection Hlen2 as Hlen2. rewrite <- Hlen2, <- join_cat.
    rewrite (split_values_join d pre post _ Hd Hpre Hpost).
    + rewrite <- E2. apply restore_elements.
      * apply indexed_app. split; [apply indexed_entries; left; reflexivity|].
        rewrite Nat.add_0_l, length_entries.
        apply indexed_entries. right. reflexivity.
      * subst es2 es1 count. rewrite E2 at 1. rewrite <- E2.
        apply two_passes.
      * exact Hok.
    + apply forallb_forall. intros v Hv. apply in_map_iff in Hv as (x & <- & Hx).
      rewrite List.Forall_forall in H2. exact (H2 x Hx).
  - intros text Hp Hw.
    assert (Hprot : _protect_brackets text = (text, [])).
    { unfold _protect_brackets. rewrite (count_char_absent _ _ Hp).
      cbn [protect_loop ps_result].
      destruct (count_char c_lcurly text); [reflexivity|].
      cbn [protect_loop ps_result]. rewrite (search_curly_wildcard text Hw). reflexivity. }
    split; [exact Hprot|]. unfold parse_value_list. rewrite Hprot.
    destruct (negb (truthy text) || negb (truthy (strip text))) eqn:E.
    + rewrite split_values_spec. symmetry. apply delimiter_split_blank.
      destruct text as [|c text]; [reflexivity|]. cbn [truthy negb orb] in E.
      rewrite truthy_strip, negb_involutive in E. exact E.
    + apply restore_nothing. apply List.Forall_forall. intros v Hv.
      apply split_values_tight in Hv. unfold is_tight in Hv.
      apply andb_prop in Hv as [Hv _]. exact (head_solid_truthy v Hv).
  - intros text. unfold _protect_brackets. cbn [snd].
    apply (protect_loop_records (fun g => startswith (py "{wildcard_") g = false));
      [exact curly_here_no_wildcard|].
    apply (protect_loop_records (fun g => startswith (py "{wildcard_") g = false));
      [exact paren_here_no_wildcard|].
    constructor.
Qed.

Lemma bracket_group_is_atomic_witness :
  parse_value_list
    (join (py " " ++ c_comma :: py " ")
       (List.map show [Plain (py "c"); Paren (py "a, b"); Curly (py "x|y");
                       Plain (py "d e"); Paren (py "f {g" ++ [c_nl] ++ py "h")]))
  = List.map show [Plain (py "c"); Paren (py "a, b"); Curly (py "x|y");
                   Plain (py "d e"); Paren (py "f {g" ++ [c_nl] ++ py "h")]
  /\ (_protect_brackets (py "{wildcard_a, b}, c") = (py "{wildcard_a, b}, c", [])
      /\ parse_value_list (py "{wildcard_a, b}, c")
         = split_values (py "{wildcard_a, b}, c")).
Proof.
  split.
  - apply (proj1 bracket_group_is_atomic c_comma (py " ") (py " ")).
    + cbn [In]. tauto.
    + reflexivity.
    + reflexivity.
    + vm_compute. reflexivity.
  - apply (proj1 (proj2 (proj2 bracket_group_is_atomic)) (py "{wildcard_a, b}, c"));
      vm_compute; reflexivity.
Defined.
